(** * Minesweeper (src/model.js, src/controller.js): a shallow embedding
      and its properties

    The JavaScript model has four classes: [Board] (a row-major array of
    tiles with two iteration primitives and a shuffle), [MineBoard] (the
    solution), [UserBoard] (what the player sees, with two running
    counters) and [Game] (the player's actions).  Each class is a module
    below; methods keep their source names.

    Conventions of the embedding.
    - A tile read from the array is an [option Z]: [None] is JavaScript's
      [undefined] (a hole or an index outside the array).
    - The array [data_] is its element map together with its [length]
      property, which JavaScript grows on a write at or above it.
    - Methods that mutate [this] take the object and return the new one.
      The iteration primitives run a callback that may change the
      receiver, so they thread a state [St] from which the receiver is
      read again before every call.
    - [Math.random] is a sequence of rationals in [0, 1), a parameter.
    - A method that can throw returns an [option]: [toString] throws on a
      tile that is [undefined].
    - Of the controller only the click handler is modelled, with the
      fields it uses; what it draws is left out.
    - The recursion of [revealTile] is bounded by a fuel argument; the
      entry point supplies enough of it: it always returns
      ([revealTile_total]) and more fuel gives the same result
      ([revealTile_fuel_enough]). *)

From stdpp Require Import base gmap list numbers strings pretty.

Local Open Scope Z_scope.

(** ** JavaScript values returned by methods and callbacks *)

Inductive JsVal : Type :=
| JUndefined
| JNull
| JBool (b : bool)
| JNum (n : Z)
| JError (msg : string).

(** [ret === false] *)
Definition strict_false (v : JsVal) : bool :=
  match v with JBool false => true | _ => false end.

(** [v == null]: loose equality with [null] holds of [null] and [undefined]. *)
Definition loose_null (v : JsVal) : bool :=
  match v with JUndefined | JNull => true | _ => false end.

(** Truthiness, as tested by [if (v)]. *)
Definition truthy (v : JsVal) : bool :=
  match v with
  | JUndefined | JNull => false
  | JBool b => b
  | JNum n => negb (n =? 0)
  | JError _ => true
  end.

Definition is_error (v : JsVal) : bool :=
  match v with JError _ => true | _ => false end.

(** ** minesweeper.Tile *)

Module Tile.
Definition MINE : Z := -1.
Definition UNKNOWN : Z := -2.
Definition FLAG : Z := -3.
End Tile.

(** [tile == k] for a tile that may be [undefined]. *)
Definition tile_eq (tile : option Z) (k : Z) : bool :=
  match tile with Some v => v =? k | None => false end.

(** [tile < k], [tile > k], [tile >= k]: every comparison with [undefined]
    is false. *)
Definition tile_lt (tile : option Z) (k : Z) : bool :=
  match tile with Some v => v <? k | None => false end.
Definition tile_gt (tile : option Z) (k : Z) : bool :=
  match tile with Some v => k <? v | None => false end.
Definition tile_ge (tile : option Z) (k : Z) : bool :=
  match tile with Some v => k <=? v | None => false end.

(** ** JavaScript arrays of numbers *)

Record JsArray : Type := mkArray { elems : gmap Z Z; len : Z }.

Definition arr_empty : JsArray := mkArray ∅ 0.

(** [a[i]] *)
Definition arr_get (a : JsArray) (i : Z) : option Z := elems a !! i.

(** [a[i] = v]: storing [undefined] leaves a slot that reads as [undefined];
    a write at or above [length] moves [length] just past it. *)
Definition arr_set (a : JsArray) (i : Z) (v : option Z) : JsArray :=
  {| elems := match v with
              | Some x => <[i := x]> (elems a)
              | None => delete i (elems a)
              end;
     len := if decide (len a <= i) then i + 1 else len a |}.

(** ** Math.random *)

(** One draw: the rational [rnum / (rnum + rgap + 1)], which lies in [0, 1). *)
Record Rand : Type := mkRand { rnum : nat; rgap : nat }.

(** [Math.floor(x * n)] for the draw [x]. *)
Definition floor_mul (x : Rand) (n : Z) : Z :=
  (Z.of_nat (rnum x) * n) `div` (Z.of_nat (rnum x) + Z.of_nat (rgap x) + 1).

(** ** minesweeper.Board *)

Module Board.

Record t : Type := mk { rowCount : Z; colCount : Z; data_ : JsArray }.

(** [opt_cols || rows]: an omitted or zero [opt_cols] gives a square board. *)
Definition new (rows : Z) (opt_cols : option Z) : t :=
  {| rowCount := rows;
     colCount := match opt_cols with
                 | Some c => if c =? 0 then rows else c
                 | None => rows
                 end;
     data_ := arr_empty |}.

Definition getIndex_ (b : t) (row col : Z) : Z := row * colCount b + col.

Definition setTile (b : t) (row col : Z) (tile : option Z) : t :=
  {| rowCount := rowCount b; colCount := colCount b;
     data_ := arr_set (data_ b) (getIndex_ b row col) tile |}.

Definition getTile (b : t) (row col : Z) : option Z :=
  arr_get (data_ b) (getIndex_ b row col).

Section Iteration.

(** [St] is everything the callback can see and change; [this] reads the
    receiver of the iteration out of it.  A callback gets row, column and
    tile, and returns the new state and its JavaScript result, or [None]
    when it ran out of fuel. *)
Context {St : Type} (this : St → t).

Definition Callback : Type := Z → Z → option Z → St → option (St * JsVal).

(** The inner [for (c = c0; c < maxCol; c++)] with [n] iterations left,
    calling back on the columns that [keep] admits.  The boolean is
    whether the iteration goes on ([false]: a callback returned [false]). *)
Fixpoint for_cols (keep : Z → Z → bool) (callback : Callback)
    (r : Z) (n : nat) (c : Z) (s : St) : option (St * bool) :=
  match n with
  | O => Some (s, true)
  | S n' =>
      if keep r c then
        match callback r c (getTile (this s) r c) s with
        | None => None
        | Some (s', ret) =>
            if strict_false ret then Some (s', false)
            else for_cols keep callback r n' (c + 1) s'
        end
      else for_cols keep callback r n' (c + 1) s
  end.

(** The outer [for (r = r0; r < maxRow; r++)] with [n] iterations left. *)
Fixpoint for_rows (keep : Z → Z → bool) (callback : Callback)
    (c0 : Z) (ncols : nat) (n : nat) (r : Z) (s : St) : option (St * bool) :=
  match n with
  | O => Some (s, true)
  | S n' =>
      match for_cols keep callback r ncols c0 s with
      | None => None
      | Some (s', false) => Some (s', false)
      | Some (s', true) => for_rows keep callback c0 ncols n' (r + 1) s'
      end
  end.

(** No callback of the program assigns [rowCount] or [colCount], so the
    loop bounds are those of the receiver on entry. *)
Definition forEachTile (callback : Callback) (s : St) : option (St * bool) :=
  let b := this s in
  for_rows (λ _ _, true) callback 0 (Z.to_nat (colCount b))
    (Z.to_nat (rowCount b)) 0 s.

Definition forEachBoundaryTile (row col : Z) (callback : Callback) (s : St)
    : option (St * bool) :=
  let b := this s in
  let minRow := Z.max (row - 1) 0 in
  let maxRow := Z.min (row + 2) (rowCount b) in
  let minCol := Z.max (col - 1) 0 in
  let maxCol := Z.min (col + 2) (colCount b) in
  for_rows (λ r c, negb ((r =? row) && (c =? col))) callback
    minCol (Z.to_nat (maxCol - minCol)) (Z.to_nat (maxRow - minRow)) minRow s.

End Iteration.

(** The loop of [shuffle]: [while (--i)] entered with [i] already
    decremented to [S i'], using the [draw]-th call of [Math.random]. *)
Fixpoint shuffle_loop (random : nat → Rand) (i : nat) (draw : nat)
    (d : JsArray) : JsArray :=
  match i with
  | O => d
  | S i' =>
      let j := floor_mul (random draw) (Z.of_nat i + 1) in
      let tempi := arr_get d (Z.of_nat i) in
      let tempj := arr_get d j in
      let d := arr_set d (Z.of_nat i) tempj in
      let d := arr_set d j tempi in
      shuffle_loop random i' (Datatypes.S draw) d
  end.

Definition shuffle (random : nat → Rand) (b : t) : t * JsVal :=
  let i := len (data_ b) in
  if i =? 0 then (b, JBool false)
  else ({| rowCount := rowCount b; colCount := colCount b;
           data_ := shuffle_loop random (Z.to_nat (i - 1)) 0 (data_ b) |},
        JUndefined).

(** The text [toString] writes for a tile: the [switch] compares with
    [===]; the default case calls [tile.toString()], the decimal digits of
    the number, and throws a [TypeError] on [undefined] ([None] here). *)
Definition tile_text (tile : option Z) : option string :=
  match tile with
  | Some v =>
      Some (if v =? Tile.MINE then "M"
            else if v =? Tile.UNKNOWN then "U"
            else if v =? Tile.FLAG then "F"
            else pretty v)
  | None => None
  end.

(** [for (i = 0; i < colCount * 4 + 1; i++) horizontalEdge += '-'] with [n]
    iterations left. *)
Fixpoint edge_loop (n : nat) (horizontalEdge : string) : string :=
  match n with
  | O => horizontalEdge
  | S n' => edge_loop n' (horizontalEdge +:+ "-")
  end.

(** The inner loop of [toString] over the columns from [c], [n] of them
    left. *)
Fixpoint row_loop (b : t) (r : Z) (n : nat) (c : Z) (rowBuf : string)
    : option string :=
  match n with
  | O => Some rowBuf
  | S n' =>
      match tile_text (getTile b r c) with
      | None => None
      | Some text => row_loop b r n' (c + 1) (rowBuf +:+ " " +:+ text +:+ " |")
      end
  end.

(** The outer loop of [toString] over the rows from [r], [n] of them left:
    each pushes its line and the edge below it. *)
Fixpoint rows_loop (b : t) (horizontalEdge : string) (n : nat) (r : Z)
    (lineBuf : list string) : option (list string) :=
  match n with
  | O => Some lineBuf
  | S n' =>
      match row_loop b r (Z.to_nat (colCount b)) 0 "|" with
      | None => None
      | Some rowBuf =>
          rows_loop b horizontalEdge n' (r + 1)
            (lineBuf ++ [rowBuf; horizontalEdge])
      end
  end.

(** The line feed between the lines that [join] puts together. *)
Definition newline : string := String (Ascii.ascii_of_nat 10) EmptyString.

(** [toString]: [None] when it throws. *)
Definition toString (b : t) : option string :=
  let horizontalEdge := edge_loop (Z.to_nat (colCount b * 4 + 1)) "" in
  match rows_loop b horizontalEdge (Z.to_nat (rowCount b)) 0 [horizontalEdge] with
  | None => None
  | Some lineBuf => Some (String.concat newline lineBuf)
  end.

End Board.

(** An iteration whose callback always returns, returns: [final] and
    [outcome] read its state and its result ([forEachTile_returns] and
    [forEachBoundaryTile_returns] show the default is never used). *)
Definition final {St : Type} (s : St) (res : option (St * bool)) : St :=
  match res with Some (s', _) => s' | None => s end.
Definition outcome {St : Type} (res : option (St * bool)) : bool :=
  match res with Some (_, b) => b | None => true end.

(** A callback written as a function that always returns. *)
Definition returns {St : Type} (f : Z → Z → option Z → St → St * JsVal)
    : @Board.Callback St :=
  λ r c tile s, Some (f r c tile s).

(** ** minesweeper.MineBoard *)

Module MineBoard.

Record t : Type := mk { base : Board.t; mineCount : Z }.

Definition with_base (m : t) (b : Board.t) : t :=
  {| base := b; mineCount := mineCount m |}.

(** [setTile] and [getTile] are inherited. *)
Definition setTile (m : t) (row col : Z) (tile : option Z) : t :=
  with_base m (Board.setTile (base m) row col tile).
Definition getTile (m : t) (row col : Z) : option Z :=
  Board.getTile (base m) row col.

Definition incrementAdjacentTiles_ (row col : Z) (m : t) : t :=
  final m
    (Board.forEachBoundaryTile base row col
       (returns (λ r c tile m,
          (if tile_ge tile 0 then setTile m r c ((λ v, v + 1) <$> tile) else m,
           JUndefined)))
       m).

(** The two passes of [setMines_] and the shuffle between them.  The first
    callback counts down the parameter [mineCount], which is a variable of
    the enclosing call and so part of the state. *)
Definition clearBoard_ (mineCount : Z) (m : t) : t :=
  fst (final (m, mineCount)
    (Board.forEachTile (λ s, base (fst s))
       (returns (λ r c _ '(m, mineCount),
          if 0 <? mineCount
          then ((setTile m r c (Some Tile.MINE), mineCount - 1), JUndefined)
          else ((setTile m r c (Some 0), mineCount), JUndefined)))
       (m, mineCount))).

Definition countAdjacent_ (m : t) : t :=
  final m
    (Board.forEachTile base
       (returns (λ r c tile m,
          (if tile_eq tile Tile.MINE then incrementAdjacentTiles_ r c m else m,
           JUndefined)))
       m).

Definition setMines_ (random : nat → Rand) (mineCount : Z) (m : t) : t :=
  let m := clearBoard_ mineCount m in
  let m := with_base m (fst (Board.shuffle random (base m))) in
  countAdjacent_ m.

Definition new (random : nat → Rand) (mines rows : Z) (opt_cols : option Z) : t :=
  setMines_ random mines {| base := Board.new rows opt_cols; mineCount := mines |}.

End MineBoard.

(** ** minesweeper.UserBoard *)

Module UserBoard.

Record t : Type := mk { base : Board.t; flagCount : Z; unknownCount : Z }.

Definition getTile (u : t) (row col : Z) : option Z :=
  Board.getTile (base u) row col.

(** The override: count the old tile out, write, count the new tile in. *)
Definition setTile (u : t) (row col : Z) (tile : option Z) : t :=
  let u :=
    if tile_eq (getTile u row col) Tile.FLAG
    then {| base := base u; flagCount := flagCount u - 1;
            unknownCount := unknownCount u |}
    else if tile_eq (getTile u row col) Tile.UNKNOWN
    then {| base := base u; flagCount := flagCount u;
            unknownCount := unknownCount u - 1 |}
    else u in
  let u := {| base := Board.setTile (base u) row col tile;
              flagCount := flagCount u; unknownCount := unknownCount u |} in
  if tile_eq (getTile u row col) Tile.FLAG
  then {| base := base u; flagCount := flagCount u + 1;
          unknownCount := unknownCount u |}
  else if tile_eq (getTile u row col) Tile.UNKNOWN
  then {| base := base u; flagCount := flagCount u;
          unknownCount := unknownCount u + 1 |}
  else u.

Definition initBoard_ (u : t) : t :=
  final u
    (Board.forEachTile base
       (returns (λ r c _ u, (setTile u r c (Some Tile.UNKNOWN), JUndefined)))
       u).

(** The prototype's [flagCount] and [unknownCount] are 0. *)
Definition new (rows : Z) (opt_cols : option Z) : t :=
  initBoard_ {| base := Board.new rows opt_cols;
                flagCount := 0; unknownCount := 0 |}.

Definition completed (u : t) : bool := unknownCount u =? 0.

End UserBoard.

(** ** minesweeper.Game *)

Module Game.

Record t : Type := mk { mineBoard : MineBoard.t; userBoard : UserBoard.t }.

Definition new (random : nat → Rand) (mines size : Z) : t :=
  {| mineBoard := MineBoard.new random mines size None;
     userBoard := UserBoard.new size None |}.

Definition with_user (g : t) (u : UserBoard.t) : t :=
  {| mineBoard := mineBoard g; userBoard := u |}.

(** [revealTile] with a bound on the depth of its recursion. *)
Fixpoint revealTile_fuel (fuel : nat) (row col : Z) (g : t)
    : option (t * JsVal) :=
  match fuel with
  | O => None
  | S fuel' =>
      let userTile := UserBoard.getTile (userBoard g) row col in
      if negb (tile_eq userTile Tile.UNKNOWN) && negb (tile_eq userTile Tile.FLAG)
      then Some (g, JUndefined)
      else
        let mineTile := MineBoard.getTile (mineBoard g) row col in
        let g := with_user g (UserBoard.setTile (userBoard g) row col mineTile) in
        if tile_eq mineTile Tile.MINE then Some (g, JError "mine revealed")
        else if tile_eq mineTile 0 then
          match Board.forEachBoundaryTile (λ g, MineBoard.base (mineBoard g))
                  row col (λ r c _ g, revealTile_fuel fuel' r c g) g with
          | None => None
          | Some (g', _) => Some (g', JNull)
          end
        else Some (g, JNull)
  end.

(** A tile the player has not revealed: [UNKNOWN] or [FLAG]. *)
Definition hidden (v : Z) : bool := (v =? Tile.UNKNOWN) || (v =? Tile.FLAG).

(** The number of slots of the user board that hold a hidden tile: each
    nested call of [revealTile] that goes on to its neighbours has revealed
    one of them. *)
Definition hiddenCount (g : t) : nat :=
  size (filter (λ kv, hidden kv.2 = true)
          (elems (Board.data_ (UserBoard.base (userBoard g))))).

Definition revealTile (row col : Z) (g : t) : option (t * JsVal) :=
  revealTile_fuel (S (hiddenCount g)) row col g.

Definition revealUnknownAdjacent (row col : Z) (g : t) : option (t * JsVal) :=
  let tile := UserBoard.getTile (userBoard g) row col in
  if tile_lt tile 0 then Some (g, JNull)
  else
    let adjacentFlags :=
      snd (final (g, 0)
        (Board.forEachBoundaryTile (λ s, UserBoard.base (userBoard (fst s)))
           row col
           (returns (λ r c tile '(g, adjacentFlags),
              if tile_eq tile Tile.FLAG
              then ((g, adjacentFlags + 1), JUndefined)
              else ((g, adjacentFlags), JUndefined)))
           (g, 0))) in
    if tile_gt tile adjacentFlags then Some (g, JNull)
    else
      match Board.forEachBoundaryTile (λ g, UserBoard.base (userBoard g))
              row col
              (λ r c userTile g,
                 if tile_eq userTile Tile.UNKNOWN then
                   match revealTile r c g with
                   | None => None
                   | Some (g', ret) => Some (g', JBool (loose_null ret))
                   end
                 else Some (g, JUndefined))
              g with
      | None => None
      | Some (g', success) =>
          if success then Some (g', JNull)
          else Some (g', JError "adajcent mine revealed")
      end.

Definition flagTile (row col : Z) (g : t) : t :=
  if tile_eq (UserBoard.getTile (userBoard g) row col) Tile.UNKNOWN
  then with_user g (UserBoard.setTile (userBoard g) row col (Some Tile.FLAG))
  else if tile_eq (UserBoard.getTile (userBoard g) row col) Tile.FLAG
  then with_user g (UserBoard.setTile (userBoard g) row col (Some Tile.UNKNOWN))
  else g.

Definition validate (g : t) : bool :=
  if negb (UserBoard.flagCount (userBoard g) =? MineBoard.mineCount (mineBoard g))
  then false
  else
    outcome
      (Board.forEachTile (λ g, MineBoard.base (mineBoard g))
         (returns (λ r c mineTile g,
            let userTile := UserBoard.getTile (userBoard g) r c in
            if tile_eq mineTile Tile.MINE || tile_eq userTile Tile.FLAG
            then (g, JBool (tile_eq mineTile Tile.MINE && tile_eq userTile Tile.FLAG))
            else (g, JUndefined)))
         g).

(** Both boards inherit [Board]'s [toString]. *)
Definition toString (g : t) : option string :=
  Board.toString (UserBoard.base (userBoard g)).

Definition cheat (g : t) : option string :=
  Board.toString (MineBoard.base (mineBoard g)).

End Game.

(** ** minesweeper.GameController (src/controller.js) *)

(** The click handler and the two endings it calls.  Of the controller
    only the fields they read and write are kept.  What they draw is not
    modelled: the [Outcome] says which of them ran and, for the endings,
    the game they drew from before they dropped it. *)
Module GameController.

(** [game_] is [null] once the game has ended. *)
Record t : Type := mk { game_ : option Game.t; flagToolActive_ : bool }.




(** [getDisplayClass_]: the CSS class of a tile; as [toString], it throws
    on [undefined]. *)
Definition getDisplayClass_ (tile : option Z) : option string :=
  match tile with
  | Some v =>
      let className := " reveal tile" in
      Some (if v =? Tile.UNKNOWN then ""
            else if v =? Tile.MINE then className +:+ "M"
            else if v =? Tile.FLAG then " flag"
            else className +:+ pretty v)
  | None => None
  end.




End GameController.

(** ** Specification-level notions *)

(** *** Cells, neighbours and sequential visits *)

Definition cell : Type := Z * Z.

(** The cells of the rectangle of [nr] rows from [r0] and [nc] columns
    from [c0], in row-major order. *)
Definition box (r0 nr c0 nc : Z) : list cell :=
  r ← seqZ r0 nr; pair r <$> seqZ c0 nc.

Definition cells (b : Board.t) : list cell :=
  box 0 (Board.rowCount b) 0 (Board.colCount b).

Definition in_range (b : Board.t) (p : cell) : Prop :=
  0 ≤ p.1 < Board.rowCount b ∧ 0 ≤ p.2 < Board.colCount b.

Global Instance in_range_dec b p : Decision (in_range b p).
Proof. unfold in_range. apply _. Defined.

(** Two distinct cells at most one row and one column apart. *)
Definition adjacent (p q : cell) : Prop :=
  Z.abs (q.1 - p.1) ≤ 1 ∧ Z.abs (q.2 - p.2) ≤ 1 ∧ q ≠ p.

Global Instance adjacent_dec p q : Decision (adjacent p q).
Proof. unfold adjacent. apply _. Defined.

(** The up to eight neighbours of [(row, col)] on the board, row-major. *)
Definition neighbors (b : Board.t) (row col : Z) : list cell :=
  filter (adjacent (row, col)) (cells b).

(** The callback run on the cells of a list in order, each with the tile
    the receiver holds when its turn comes, until one returns [false]. *)
Fixpoint visit {St : Type} (this : St → Board.t) (callback : Board.Callback)
    (l : list cell) (s : St) : option (St * bool) :=
  match l with
  | [] => Some (s, true)
  | (r, c) :: l' =>
      match callback r c (Board.getTile (this s) r c) s with
      | None => None
      | Some (s', ret) =>
          if strict_false ret then Some (s', false)
          else visit this callback l' s'
      end
  end.

(** One call of a callback [f] that always returns, on the cell [p]. *)
Definition call {St : Type} (this : St → Board.t)
    (f : Z → Z → option Z → St → St * JsVal) (s : St) (p : cell) : St :=
  (f p.1 p.2 (Board.getTile (this s) p.1 p.2) s).1.

(** The same as a relation: [Run this callback l s s' b] when the visit of
    [l] from [s] ends in [s'], with [b = false] exactly when it was cut
    short by a callback that returned the boolean [false]. *)
Inductive Run {St : Type} (this : St → Board.t) (callback : Board.Callback)
    : list cell → St → St → bool → Prop :=
| Run_done s : Run this callback [] s s true
| Run_stop r c l s s' :
    callback r c (Board.getTile (this s) r c) s = Some (s', JBool false) →
    Run this callback ((r, c) :: l) s s' false
| Run_next r c l s s1 ret s' b :
    callback r c (Board.getTile (this s) r c) s = Some (s1, ret) →
    ret ≠ JBool false →
    Run this callback l s1 s' b →
    Run this callback ((r, c) :: l) s s' b.

(** *** Counting tiles *)

(** The cell [p] of the board holds the number [k]. *)
Definition holds (b : Board.t) (k : Z) (p : cell) : Prop :=
  Board.getTile b p.1 p.2 = Some k.

Global Instance holds_dec b k p : Decision (holds b k p).
Proof. unfold holds. apply _. Defined.

(** The number of cells of the board that hold [k]. *)
Definition count_tiles (b : Board.t) (k : Z) : Z :=
  Z.of_nat (length (filter (holds b k) (cells b))).

(** A tile the player has not revealed. *)
Definition is_hidden (tile : option Z) : bool :=
  tile_eq tile Tile.UNKNOWN || tile_eq tile Tile.FLAG.

(** A revealed cell: it holds a number that is neither [FLAG] nor
    [UNKNOWN]. *)
Definition shown (b : Board.t) (p : cell) : Prop :=
  is_Some (Board.getTile b p.1 p.2) ∧ is_hidden (Board.getTile b p.1 p.2) = false.

Global Instance shown_dec b p : Decision (shown b p).
Proof. unfold shown. apply _. Defined.

Definition revealedCount (u : UserBoard.t) : Z :=
  Z.of_nat (length (filter (shown (UserBoard.base u)) (cells (UserBoard.base u)))).

(** The number of neighbours of [p] that hold a mine. *)
Definition mine_neighbors (b : Board.t) (p : cell) : Z :=
  Z.of_nat (length (filter (holds b Tile.MINE) (neighbors b p.1 p.2))).

(** The adjacency invariant of a solution: a cell without a mine holds the
    number of mines around it. *)
Definition adjacency_ok (b : Board.t) : Prop :=
  Forall (λ p, ¬ holds b Tile.MINE p → holds b (mine_neighbors b p) p) (cells b).

(** *** Boards reachable by writes, games reachable by play *)

(** A user board made by the constructor and then written through
    [setTile] at cells of the board. *)
Inductive written (rows : Z) (opt_cols : option Z) : UserBoard.t → Prop :=
| written_new : written rows opt_cols (UserBoard.new rows opt_cols)
| written_setTile u row col tile :
    written rows opt_cols u →
    in_range (UserBoard.base u) (row, col) →
    written rows opt_cols (UserBoard.setTile u row col (Some tile)).

Definition counters_ok (u : UserBoard.t) : Prop :=
  UserBoard.flagCount u = count_tiles (UserBoard.base u) Tile.FLAG
  ∧ UserBoard.unknownCount u = count_tiles (UserBoard.base u) Tile.UNKNOWN.

Definition user_at (g : Game.t) (p : cell) : option Z :=
  UserBoard.getTile (Game.userBoard g) p.1 p.2.
Definition mine_at (g : Game.t) (p : cell) : option Z :=
  MineBoard.getTile (Game.mineBoard g) p.1 p.2.
Definition board_of (g : Game.t) : Board.t :=
  MineBoard.base (Game.mineBoard g).

(** The player's actions, at cells of the board. *)
Inductive played (g0 : Game.t) : Game.t → Prop :=
| played_start : played g0 g0
| played_flag g row col :
    played g0 g → in_range (board_of g) (row, col) →
    played g0 (Game.flagTile row col g)
| played_reveal g row col g' ret :
    played g0 g → in_range (board_of g) (row, col) →
    Game.revealTile row col g = Some (g', ret) →
    played g0 g'
| played_chord g row col g' ret :
    played g0 g → in_range (board_of g) (row, col) →
    Game.revealUnknownAdjacent row col g = Some (g', ret) →
    played g0 g'.

(** What play keeps true of a game: the two boards have the same size, the
    solution satisfies the adjacency invariant, a cell of the user board is
    hidden or shows the solution, and around a revealed 0 every cell is
    revealed. *)
Record game_wf (g : Game.t) : Prop := {
  wf_rows : Board.rowCount (UserBoard.base (Game.userBoard g))
            = Board.rowCount (board_of g);
  wf_cols : Board.colCount (UserBoard.base (Game.userBoard g))
            = Board.colCount (board_of g);
  wf_mine : adjacency_ok (board_of g);
  wf_shows :
    Forall (λ p, is_hidden (user_at g p) = true ∨ user_at g p = mine_at g p)
      (cells (board_of g));
  wf_closed :
    Forall (λ p, user_at g p = Some 0 →
                 Forall (λ q, is_hidden (user_at g q) = false)
                   (neighbors (board_of g) p.1 p.2))
      (cells (board_of g))
}.

Global Instance game_wf_dec g : Decision (game_wf g).
Proof.
  destruct (decide
    (Board.rowCount (UserBoard.base (Game.userBoard g))
       = Board.rowCount (board_of g)
     ∧ Board.colCount (UserBoard.base (Game.userBoard g))
       = Board.colCount (board_of g)
     ∧ adjacency_ok (board_of g)
     ∧ Forall (λ p, is_hidden (user_at g p) = true ∨ user_at g p = mine_at g p)
         (cells (board_of g))
     ∧ Forall (λ p, user_at g p = Some 0 →
                    Forall (λ q, is_hidden (user_at g q) = false)
                      (neighbors (board_of g) p.1 p.2))
         (cells (board_of g)))) as [Hwf|Hwf].
  - left. destruct Hwf as (? & ? & ? & ? & ?). by constructor.
  - right. intros [? ? ? ? ?]. apply Hwf. done.
Defined.

(** *** The region a reveal opens *)

(** The cells of the solution that hold 0 and are connected to [p0]
    through adjacent cells that hold 0. *)
Inductive zero_region (b : Board.t) (p0 : cell) : cell → Prop :=
| zero_start :
    in_range b p0 → holds b 0 p0 → zero_region b p0 p0
| zero_step q q' :
    zero_region b p0 q → adjacent q q' → in_range b q' → holds b 0 q' →
    zero_region b p0 q'.

(** The cells next to the region that hold neither 0 nor a mine. *)
Definition zero_ring (b : Board.t) (p0 : cell) (q : cell) : Prop :=
  ∃ z, zero_region b p0 z ∧ adjacent z q ∧ in_range b q
       ∧ ¬ holds b 0 q ∧ ¬ holds b Tile.MINE q.

Definition opened (b : Board.t) (p0 : cell) (q : cell) : Prop :=
  zero_region b p0 q ∨ zero_ring b p0 q.

(** *** Auxiliary notions of the proofs *)

(** Every cell of the board holds a number. *)
Definition all_defined (b : Board.t) : Prop :=
  ∀ p, in_range b p → is_Some (Board.getTile b p.1 p.2).

(** The number of indices below [n] at which the array holds [k]. *)
Definition count_idx (d : JsArray) (n k : Z) : Z :=
  Z.of_nat (length (filter (λ i, arr_get d i = Some k) (seqZ 0 n))).

(** Below [n] the array holds mines and zeros only. *)
Definition mines_or_zero (d : JsArray) (n : Z) : Prop :=
  ∀ i, 0 ≤ i < n → arr_get d i = Some Tile.MINE ∨ arr_get d i = Some 0.

(** One call of the first callback of [setMines_], on the board and the
    count of mines still to lay. *)
Definition clear_step (s : MineBoard.t * Z) (p : cell) : MineBoard.t * Z :=
  if 0 <? s.2
  then (MineBoard.setTile s.1 p.1 p.2 (Some Tile.MINE), s.2 - 1)
  else (MineBoard.setTile s.1 p.1 p.2 (Some 0), s.2).

(** A count one higher, for a tile that holds a count. *)
Definition bump (tile : option Z) : option Z :=
  if tile_ge tile 0 then (λ v, v + 1) <$> tile else tile.

(** One call of the callback of [incrementAdjacentTiles_]. *)
Definition inc_step (m : MineBoard.t) (q : cell) : MineBoard.t :=
  if tile_ge (MineBoard.getTile m q.1 q.2) 0
  then MineBoard.setTile m q.1 q.2 ((λ v, v + 1) <$> MineBoard.getTile m q.1 q.2)
  else m.

(** One call of the second callback of [setMines_]. *)
Definition adjacent_step (m : MineBoard.t) (p : cell) : MineBoard.t :=
  if tile_eq (MineBoard.getTile m p.1 p.2) Tile.MINE
  then MineBoard.incrementAdjacentTiles_ p.1 p.2 m
  else m.

(** The number of mines of [b0] among the cells [seen] that are next to [q]. *)
Definition mines_among (b0 : Board.t) (seen : list cell) (q : cell) : Z :=
  Z.of_nat (length (filter (λ p, holds b0 Tile.MINE p ∧ adjacent p q) seen)).

(** A board of mines and zeros, as the second pass of [setMines_] finds it. *)
Definition laid (b0 : Board.t) : Prop :=
  ∀ q, in_range b0 q → holds b0 Tile.MINE q ∨ holds b0 0 q.

(** The second pass after the cells [seen]: the mines of [b0] are in
    place and every other cell counts the mines seen next to it. *)
Definition counting (b0 : Board.t) (seen : list cell) (m : MineBoard.t) : Prop :=
  Board.rowCount (MineBoard.base m) = Board.rowCount b0
  ∧ Board.colCount (MineBoard.base m) = Board.colCount b0
  ∧ ∀ q, in_range b0 q →
      (holds b0 Tile.MINE q → MineBoard.getTile m q.1 q.2 = Some Tile.MINE)
      ∧ (holds b0 0 q →
         MineBoard.getTile m q.1 q.2 = Some (mines_among b0 seen q)).

(** *** What a reveal may touch, and what it leaves closed *)

(** The cells a reveal at [p] can write: [p] itself and, when [p] holds 0,
    the cells next to its region. *)
Definition touched (b : Board.t) (p q : cell) : Prop :=
  q = p ∨ ∃ z, zero_region b p z ∧ adjacent z q ∧ in_range b q.

(** Around every revealed 0 outside [pending] all cells are revealed.  The
    cells of [pending] are those whose neighbours the cascade is still
    visiting. *)
Definition closed_except (pending : list cell) (g : Game.t) : Prop :=
  ∀ q, in_range (board_of g) q → q ∉ pending → user_at g q = Some 0 →
       ∀ n, n ∈ neighbors (board_of g) q.1 q.2 → is_hidden (user_at g n) = false.

(** The part of [game_wf] that holds throughout a cascade. *)
Definition consistent (g : Game.t) : Prop :=
  Board.rowCount (UserBoard.base (Game.userBoard g)) = Board.rowCount (board_of g)
  ∧ Board.colCount (UserBoard.base (Game.userBoard g)) = Board.colCount (board_of g)
  ∧ adjacency_ok (board_of g)
  ∧ ∀ p, in_range (board_of g) p →
         is_hidden (user_at g p) = true ∨ user_at g p = mine_at g p.

(** What a reveal at [p] has done when it has taken [g] to [g']: the
    solution and the size of the user board are the same; a cell of the user
    board is as it was, or it was hidden, is one the reveal may touch and now
    shows the solution; [p] is revealed; the user board is still one made
    by writes; and what was closed is closed, except around the cells
    [opening], whose neighbours the reveal is still visiting ([p] itself in
    the middle of a cascade, none at the end). *)
Definition revealed_from (opening : list cell) (g : Game.t) (p : cell)
    (g' : Game.t) : Prop :=
  Game.mineBoard g' = Game.mineBoard g
  ∧ Board.rowCount (UserBoard.base (Game.userBoard g'))
    = Board.rowCount (UserBoard.base (Game.userBoard g))
  ∧ Board.colCount (UserBoard.base (Game.userBoard g'))
    = Board.colCount (UserBoard.base (Game.userBoard g))
  ∧ (∀ q, in_range (board_of g) q →
       user_at g' q = user_at g q
       ∨ (is_hidden (user_at g q) = true ∧ user_at g' q = mine_at g q
          ∧ touched (board_of g) p q))
  ∧ is_hidden (user_at g' p) = false
  ∧ (∀ pending, closed_except pending g →
                closed_except (opening ++ pending) g')
  ∧ (∀ rows opt_cols, written rows opt_cols (Game.userBoard g) →
                      written rows opt_cols (Game.userBoard g')).

(** *** The chord, cell by cell *)

(** [Chord l g g' ok]: going through the cells [l] in order and revealing
    those that are [UNKNOWN] when their turn comes takes [g] to [g'];
    [ok = false] when one of these reveals returned an [Error], after which
    no further cell is looked at. *)
Inductive Chord : list cell → Game.t → Game.t → bool → Prop :=
| Chord_done g : Chord [] g g true
| Chord_skip p l g g' ok :
    user_at g p ≠ Some Tile.UNKNOWN →
    Chord l g g' ok →
    Chord (p :: l) g g' ok
| Chord_reveal p l g g1 ret g' ok :
    user_at g p = Some Tile.UNKNOWN →
    Game.revealTile p.1 p.2 g = Some (g1, ret) →
    is_error ret = false →
    Chord l g1 g' ok →
    Chord (p :: l) g g' ok
| Chord_hit p l g g1 ret :
    user_at g p = Some Tile.UNKNOWN →
    Game.revealTile p.1 p.2 g = Some (g1, ret) →
    is_error ret = true →
    Chord (p :: l) g g1 false.

(** The number of flags around [(row, col)] on the user board. *)
Definition flags_around (g : Game.t) (row col : Z) : Z :=
  Z.of_nat (length (filter (λ p, user_at g p = Some Tile.FLAG)
                      (neighbors (UserBoard.base (Game.userBoard g)) row col))).

(** What every reveal keeps, whatever the game: the solution, the size of
    the user board and the slots of its array that hold a revealed tile. *)
Definition kept (g g' : Game.t) : Prop :=
  Game.mineBoard g' = Game.mineBoard g
  ∧ Board.rowCount (UserBoard.base (Game.userBoard g'))
    = Board.rowCount (UserBoard.base (Game.userBoard g))
  ∧ Board.colCount (UserBoard.base (Game.userBoard g'))
    = Board.colCount (UserBoard.base (Game.userBoard g))
  ∧ ∀ i, is_hidden (arr_get (Board.data_ (UserBoard.base (Game.userBoard g))) i)
         = false →
         arr_get (Board.data_ (UserBoard.base (Game.userBoard g'))) i
         = arr_get (Board.data_ (UserBoard.base (Game.userBoard g))) i.

(** The game after [revealTile] has written the solution's tile at
    [(row, col)]. *)
Definition uncovered (g : Game.t) (row col : Z) : Game.t :=
  Game.with_user g
    (UserBoard.setTile (Game.userBoard g) row col
       (MineBoard.getTile (Game.mineBoard g) row col)).

(** A hand-made game of one row: a mine next to a 0 that does not count
    it, so that a cascade can reach the mine.  No constructed solution
    looks like this (see [MineBoard_new_adjacency_ok]). *)
Definition miscounted_game : Game.t :=
  {| Game.mineBoard :=
       {| MineBoard.base :=
            Board.setTile
              (Board.setTile
                 (Board.setTile (Board.new 1 (Some 3)) 0 0 (Some Tile.MINE))
                 0 1 (Some 0))
              0 2 (Some 0);
          MineBoard.mineCount := 1 |};
     Game.userBoard := UserBoard.new 1 (Some 3) |}.

(** *** Small games to run the model on *)

(** [Math.random] returning 0 at every call. *)
Definition no_random : nat → Rand := λ _, mkRand 0 0.

(** Three rows, three columns, one mine: the shuffle leaves it at (2, 2). *)
Definition small_game : Game.t := Game.new no_random 1 3.

(** The same after a reveal at (0, 0). *)
Definition opened_game : Game.t :=
  match Game.revealTile 0 0 small_game with
  | Some (g, _) => g
  | None => small_game
  end.

(** One cell, a mine count of -1. *)
Definition negative_game : Game.t := Game.new no_random (-1) 1.

(** *** Notions of the further properties *)

(** The slots of the array below its length, in order. *)
Definition tiles (d : JsArray) : list (option Z) :=
  arr_get d <$> seqZ 0 (len d).

(** The exchange of the positions [i] and [j]. *)
Definition transpose (i j k : nat) : nat :=
  if decide (k = i) then j else if decide (k = j) then i else k.

(** A solved game: every mine is flagged and every other cell shows the
    tile of the solution. *)
Definition solved (g : Game.t) : Prop :=
  ∀ p, in_range (board_of g) p →
    if decide (mine_at g p = Some Tile.MINE)
    then user_at g p = Some Tile.FLAG
    else user_at g p = mine_at g p.

(** [small_game] after a reveal at (1, 1), which shows a 1. *)
Definition probed_game : Game.t :=
  match Game.revealTile 1 1 small_game with
  | Some (g, _) => g
  | None => small_game
  end.

(** The same with a flag on the mine at (2, 2). *)
Definition flagged_game : Game.t := Game.flagTile 2 2 probed_game.

(** The character [toString] writes for a tile of one character. *)
Definition tile_char (tile : option Z) : option Ascii.ascii :=
  text ← Board.tile_text tile; String.get 0 text.

(** The lines of a grid of text for the board: an edge, then for every row
    its line and an edge, all of the same width, the tile of the cell
    [(r, c)] at position [4 * c + 2] of line [2 * r + 1]. *)
Definition grid_of (b : Board.t) (lines : list string) : Prop :=
  length lines = Z.to_nat (2 * Board.rowCount b + 1)
  ∧ Forall (λ line, String.length line = Z.to_nat (4 * Board.colCount b + 1))
      lines
  ∧ ∀ p, in_range b p →
      ∃ line, lines !! Z.to_nat (2 * p.1 + 1) = Some line
              ∧ String.get (Z.to_nat (4 * p.2 + 2)) line
                = tile_char (Board.getTile b p.1 p.2).




(** The callback that notes the cells it is called on. *)
Definition note : @Board.Callback (list cell) :=
  returns (λ r c _ log, (log ++ [(r, c)], JUndefined)).

(** [small_game] after a reveal at (1, 1) and a flag on (0, 0), where there
    is no mine. *)
Definition misflagged_game : Game.t := Game.flagTile 0 0 probed_game.


(** * Properties *)

(** ** The iteration primitives visit a list of cells *)

Section IterationFacts.

Context {St : Type} (this : St → Board.t) (callback : @Board.Callback St).

Lemma visit_app l1 l2 s :
  visit this callback (l1 ++ l2) s =
  match visit this callback l1 s with
  | Some (s', true) => visit this callback l2 s'
  | res => res
  end.
Proof.
  revert s. induction l1 as [|[r c] l1 IH]; intros s; simpl; [done|].
  destruct (callback r c _ s) as [[s' ret]|]; [|done].
  destruct (strict_false ret); [done|]. apply IH.
Qed.

Lemma box_cons r0 nr c0 nc :
  0 < nr →
  box r0 nr c0 nc = (pair r0 <$> seqZ c0 nc) ++ box (r0 + 1) (nr - 1) c0 nc.
Proof.
  intros Hnr. unfold box. rewrite (seqZ_cons r0) by lia.
  replace (Z.succ r0) with (r0 + 1) by lia.
  replace (Z.pred nr) with (nr - 1) by lia. done.
Qed.

Lemma box_nil r0 nr c0 nc : nr ≤ 0 → box r0 nr c0 nc = [].
Proof. intros Hnr. unfold box. by rewrite (seqZ_nil r0 nr) by lia. Qed.

Lemma for_cols_visit keep r n c s :
  Board.for_cols this keep callback r n c s =
  visit this callback
    (filter (λ p, keep p.1 p.2 = true) (pair r <$> seqZ c (Z.of_nat n))) s.
Proof.
  revert c s. induction n as [|n IH]; intros c s.
  - by rewrite seqZ_nil by lia.
  - rewrite seqZ_cons by lia. rewrite fmap_cons, filter_cons. simpl.
    replace (Z.pred (Z.of_nat (S n))) with (Z.of_nat n) by lia.
    replace (Z.succ c) with (c + 1) by lia.
    destruct (keep r c) eqn:Hk.
    + rewrite decide_True by done. simpl.
      destruct (callback r c _ s) as [[s' ret]|]; [|done].
      destruct (strict_false ret); [done|]. apply IH.
    + rewrite decide_False by done. apply IH.
Qed.

Lemma for_rows_visit keep c0 ncols n r s :
  Board.for_rows this keep callback c0 ncols n r s =
  visit this callback
    (filter (λ p, keep p.1 p.2 = true)
       (box r (Z.of_nat n) c0 (Z.of_nat ncols))) s.
Proof.
  revert r s. induction n as [|n IH]; intros r s.
  - by rewrite box_nil by lia.
  - rewrite box_cons by lia. rewrite filter_app, visit_app. simpl.
    rewrite for_cols_visit.
    replace (Z.of_nat (S n) - 1) with (Z.of_nat n) by lia.
    destruct (visit _ _ _ s) as [[s' []]|]; [|done..]. apply IH.
Qed.

Lemma visit_Run l s s' b :
  visit this callback l s = Some (s', b) ↔ Run this callback l s s' b.
Proof.
  split.
  - revert s. induction l as [|[r c] l IH]; intros s; simpl.
    + intros [= <- <-]. constructor.
    + destruct (callback r c _ s) as [[s1 ret]|] eqn:Hcb; [|done].
      destruct (strict_false ret) eqn:Hret.
      * intros [= <- <-]. destruct ret as [| |[]| |]; try done.
        by apply Run_stop.
      * intros Hv. eapply Run_next; [done| |by apply IH].
        by intros ->.
  - induction 1 as [s|r c l s s' Hcb|r c l s s1 ret s' b Hcb Hret _ IH]; simpl.
    + done.
    + by rewrite Hcb.
    + rewrite Hcb. destruct ret as [| |[]| |]; done.
Qed.

End IterationFacts.

(** ** Lists of cells *)

Lemma filter_ext_elem {A} (P Q : A → Prop) `{∀ x, Decision (P x)}
    `{∀ x, Decision (Q x)} (l : list A) :
  (∀ x, x ∈ l → P x ↔ Q x) → filter P l = filter Q l.
Proof.
  induction l as [|x l IH]; intros HPQ; [done|].
  rewrite !filter_cons.
  rewrite IH by (intros y Hy; apply HPQ; by right).
  destruct (decide (P x)) as [HP|HP], (decide (Q x)) as [HQ|HQ]; try done;
    exfalso; apply (HPQ x) in HP || apply (HPQ x) in HQ; by try left.
Qed.

Lemma filter_none {A} (P : A → Prop) `{∀ x, Decision (P x)} (l : list A) :
  (∀ x, x ∈ l → ¬ P x) → filter P l = [].
Proof.
  induction l as [|x l IH]; intros HP; [done|].
  rewrite filter_cons_False by (apply HP; by left).
  apply IH. intros y Hy. apply HP. by right.
Qed.

Lemma filter_all {A} (P : A → Prop) `{∀ x, Decision (P x)} (l : list A) :
  (∀ x, x ∈ l → P x) → filter P l = l.
Proof.
  induction l as [|x l IH]; intros HP; [done|].
  rewrite filter_cons_True by (apply HP; by left).
  f_equal. apply IH. intros y Hy. apply HP. by right.
Qed.

Lemma filter_fmap {A B} (f : A → B) (P : B → Prop) `{∀ x, Decision (P x)}
    (l : list A) :
  filter P (f <$> l) = f <$> filter (λ x, P (f x)) l.
Proof.
  induction l as [|x l IH]; [done|].
  rewrite fmap_cons, !filter_cons, IH. by destruct (decide (P (f x))).
Qed.

Lemma seqZ_to_nat m n : seqZ m (Z.of_nat (Z.to_nat n)) = seqZ m n.
Proof. unfold seqZ. by rewrite Nat2Z.id. Qed.

Lemma box_to_nat r0 nr c0 nc :
  box r0 (Z.of_nat (Z.to_nat nr)) c0 (Z.of_nat (Z.to_nat nc)) = box r0 nr c0 nc.
Proof. unfold box. by rewrite !seqZ_to_nat. Qed.

Lemma elem_of_box p r0 nr c0 nc :
  p ∈ box r0 nr c0 nc ↔ r0 ≤ p.1 < r0 + nr ∧ c0 ≤ p.2 < c0 + nc.
Proof.
  unfold box. rewrite list_elem_of_bind. split.
  - intros (r & Hp & Hr). apply list_elem_of_fmap in Hp as (c & -> & Hc).
    apply elem_of_seqZ in Hr, Hc. done.
  - intros [Hr Hc]. exists p.1. split; [|by apply elem_of_seqZ].
    apply list_elem_of_fmap. exists p.2. split; [by destruct p|].
    by apply elem_of_seqZ.
Qed.

Lemma NoDup_box r0 nr c0 nc : NoDup (box r0 nr c0 nc).
Proof.
  unfold box. apply NoDup_bind.
  - intros r1 r2 p _ _ H1 H2.
    apply list_elem_of_fmap in H1 as (? & -> & _).
    apply list_elem_of_fmap in H2 as (? & [= -> _] & _). done.
  - intros r _. apply NoDup_fmap_2; [|apply NoDup_seqZ]. by intros ?? [=].
  - apply NoDup_seqZ.
Qed.

Lemma elem_of_cells b p : p ∈ cells b ↔ in_range b p.
Proof. unfold cells, in_range. rewrite elem_of_box. lia. Qed.

Lemma NoDup_cells b : NoDup (cells b).
Proof. apply NoDup_box. Qed.

Lemma elem_of_neighbors b row col p :
  p ∈ neighbors b row col ↔ adjacent (row, col) p ∧ in_range b p.
Proof. unfold neighbors. by rewrite list_elem_of_filter, elem_of_cells. Qed.

Lemma NoDup_neighbors b row col : NoDup (neighbors b row col).
Proof. apply NoDup_filter, NoDup_cells. Qed.

(** Filtering an interval of integers by another interval clips it. *)
Lemma filter_seqZ lo hi m n :
  filter (λ x, lo ≤ x < hi) (seqZ m (Z.of_nat n)) =
  seqZ (Z.max lo m) (Z.min hi (m + Z.of_nat n) - Z.max lo m).
Proof.
  revert m. induction n as [|n IH]; intros m.
  - rewrite (seqZ_nil m) by lia. by rewrite seqZ_nil by lia.
  - rewrite (seqZ_cons m) by lia. rewrite filter_cons.
    replace (Z.pred (Z.of_nat (S n))) with (Z.of_nat n) by lia.
    rewrite IH. destruct (decide (lo ≤ m < hi)) as [Hm|Hm].
    + rewrite (seqZ_cons (Z.max lo m)) by lia. f_equal; [lia|].
      f_equal; lia.
    + destruct (decide (m < lo)).
      * f_equal; lia.
      * rewrite !seqZ_nil by lia. done.
Qed.

(** Filtering a rectangle by another rectangle clips it; a further
    condition [Q] stays. *)
Lemma filter_box (Q : cell → Prop) `{∀ p, Decision (Q p)} rlo rhi clo chi
    r0 n c0 nc :
  filter (λ p, (rlo ≤ p.1 < rhi ∧ clo ≤ p.2 < chi) ∧ Q p)
    (box r0 (Z.of_nat n) c0 (Z.of_nat nc)) =
  filter Q
    (box (Z.max rlo r0) (Z.min rhi (r0 + Z.of_nat n) - Z.max rlo r0)
         (Z.max clo c0) (Z.min chi (c0 + Z.of_nat nc) - Z.max clo c0)).
Proof.
  revert r0. induction n as [|n IH]; intros r0.
  - rewrite (box_nil r0) by lia. by rewrite box_nil by lia.
  - rewrite (box_cons r0) by lia. rewrite filter_app.
    replace (Z.of_nat (S n) - 1) with (Z.of_nat n) by lia. rewrite IH.
    destruct (decide (rlo ≤ r0 < rhi)) as [Hr|Hr].
    + rewrite (box_cons (Z.max rlo r0)) by lia. rewrite filter_app.
      f_equal.
      * replace (Z.max rlo r0) with r0 by lia.
        rewrite <- filter_seqZ, !filter_fmap, list_filter_filter.
        f_equal. apply filter_ext_elem. intros c _. simpl. tauto.
      * do 2 f_equal; lia.
    + rewrite filter_none.
      2:{ intros p Hp. apply list_elem_of_fmap in Hp as (c & -> & _).
          simpl. lia. }
      simpl. destruct (decide (r0 < rlo)).
      * do 2 f_equal; lia.
      * by rewrite !box_nil by lia.
Qed.

Lemma box_empty r0 nr c0 nc : nr ≤ 0 ∨ nc ≤ 0 → box r0 nr c0 nc = [].
Proof.
  intros Hn. destruct (box r0 nr c0 nc) as [|p l] eqn:Hbox; [done|].
  assert (p ∈ box r0 nr c0 nc) as Hp by (rewrite Hbox; by left).
  apply elem_of_box in Hp. lia.
Qed.

(** The loop bounds of [forEachBoundaryTile] enumerate the neighbours. *)
Lemma boundary_box b row col :
  filter (λ p : cell, negb ((p.1 =? row) && (p.2 =? col)) = true)
    (box (Z.max (row - 1) 0)
       (Z.min (row + 2) (Board.rowCount b) - Z.max (row - 1) 0)
       (Z.max (col - 1) 0)
       (Z.min (col + 2) (Board.colCount b) - Z.max (col - 1) 0)) =
  neighbors b row col.
Proof.
  unfold neighbors, cells.
  destruct (decide (0 ≤ Board.rowCount b ∧ 0 ≤ Board.colCount b)) as [Hd|Hd].
  - rewrite <- (box_to_nat 0 (Board.rowCount b)).
    rewrite (filter_ext_elem (adjacent (row, col))
      (λ p, (row - 1 ≤ p.1 < row + 2 ∧ col - 1 ≤ p.2 < col + 2)
            ∧ p ≠ (row, col))).
    2:{ intros p _. unfold adjacent. simpl. split.
        - intros (H1 & H2 & H3). repeat split; lia || done.
        - intros ((H1 & H2) & H3). repeat split; lia || done. }
    rewrite filter_box. rewrite !Z2Nat.id by lia.
    replace (0 + Board.rowCount b) with (Board.rowCount b) by lia.
    replace (0 + Board.colCount b) with (Board.colCount b) by lia.
    apply filter_ext_elem. intros [r c] _. simpl.
    destruct (Z.eqb_spec r row), (Z.eqb_spec c col); simpl;
      split; try done; try congruence; by intros ? [= ? ?].
  - rewrite (box_empty 0) by lia. rewrite box_empty by lia. done.
Qed.

Section IterationVisits.

Context {St : Type} (this : St → Board.t) (callback : @Board.Callback St).

Lemma forEachTile_visit s :
  Board.forEachTile this callback s = visit this callback (cells (this s)) s.
Proof.
  unfold Board.forEachTile. rewrite for_rows_visit, box_to_nat.
  by rewrite filter_all.
Qed.

Lemma forEachBoundaryTile_visit row col s :
  Board.forEachBoundaryTile this row col callback s =
  visit this callback (neighbors (this s) row col) s.
Proof.
  unfold Board.forEachBoundaryTile. rewrite for_rows_visit, box_to_nat.
  by rewrite boundary_box.
Qed.

End IterationVisits.

(** C8. [forEachTile] and [forEachBoundaryTile] call back on the cells of
    the board, respectively on the in-range neighbours of the centre
    without the centre, in row-major order; they return [false] exactly
    when a callback returned the boolean [false], at which point they
    stop, and [true] when every cell was visited; a callback result that is
    [undefined], [null], a number (0 included), an [Error] or [true] never
    stops the iteration. *)
Theorem forEach_stops_on_false_only :
  ∀ (St : Type) (this : St → Board.t) (callback : Board.Callback)
    (s s' : St) (b : bool),
    (Board.forEachTile this callback s = Some (s', b)
       ↔ Run this callback (cells (this s)) s s' b)
    ∧ (∀ row col,
         Board.forEachBoundaryTile this row col callback s = Some (s', b)
         ↔ Run this callback (neighbors (this s) row col) s s' b)
    ∧ (∀ v, strict_false v = true ↔ v = JBool false)
    ∧ (∀ msg n, JUndefined ≠ JBool false ∧ JNull ≠ JBool false
         ∧ JNum n ≠ JBool false ∧ JError msg ≠ JBool false
         ∧ JBool true ≠ JBool false).
Proof.
  intros St this callback s s' b. repeat split; try done.
  - rewrite forEachTile_visit. apply visit_Run.
  - rewrite forEachTile_visit. apply visit_Run.
  - rewrite forEachBoundaryTile_visit. apply visit_Run.
  - rewrite forEachBoundaryTile_visit. apply visit_Run.
  - by destruct v as [| |[]| |].
  - by intros ->.
Qed.

(** ** Reading and writing tiles *)

Lemma arr_get_set a i j v :
  arr_get (arr_set a i v) j = if decide (i = j) then v else arr_get a j.
Proof.
  unfold arr_get, arr_set. simpl. destruct v as [x|].
  - rewrite lookup_insert. by case_decide.
  - rewrite lookup_delete. by case_decide.
Qed.

Lemma len_arr_set d i v :
  len (arr_set d i v) = if decide (len d ≤ i) then i + 1 else len d.
Proof. done. Qed.

Lemma getIndex_inj b p q :
  in_range b p → in_range b q →
  Board.getIndex_ b p.1 p.2 = Board.getIndex_ b q.1 q.2 → p = q.
Proof.
  unfold in_range, Board.getIndex_. destruct p as [r c], q as [r' c']. simpl.
  intros Hp Hq Heq. assert (r = r') as -> by nia. f_equal. lia.
Qed.

Lemma getTile_setTile_eq b r c v :
  Board.getTile (Board.setTile b r c v) r c = v.
Proof.
  unfold Board.getTile, Board.setTile. simpl. rewrite arr_get_set.
  by rewrite decide_True.
Qed.

Lemma getTile_setTile_ne b p q v :
  in_range b p → in_range b q → p ≠ q →
  Board.getTile (Board.setTile b p.1 p.2 v) q.1 q.2 = Board.getTile b q.1 q.2.
Proof.
  intros Hp Hq Hne. unfold Board.getTile, Board.setTile. simpl.
  rewrite arr_get_set. rewrite decide_False; [done|].
  intros Heq. apply Hne. by apply (getIndex_inj b).
Qed.

Lemma getTile_setTile b p q v :
  in_range b p → in_range b q →
  Board.getTile (Board.setTile b p.1 p.2 v) q.1 q.2 =
  if decide (p = q) then v else Board.getTile b q.1 q.2.
Proof.
  intros Hp Hq. case_decide as Hpq.
  - subst. apply getTile_setTile_eq.
  - by apply getTile_setTile_ne.
Qed.

(** ** Iterations whose callback always returns *)

Section Returns.

Context {St : Type} (this : St → Board.t).
Context (f : Z → Z → option Z → St → St * JsVal).

Hypothesis f_not_false : ∀ r c tile s, (f r c tile s).2 ≠ JBool false.

Lemma visit_returns l s :
  visit this (returns f) l s = Some (foldl (call this f) s l, true).
Proof.
  revert s. induction l as [|[r c] l IH]; intros s; simpl; [done|].
  unfold returns at 1. destruct (f r c _ s) as [s' ret] eqn:Hf.
  assert (strict_false ret = false) as ->.
  { pose proof (f_not_false r c (Board.getTile (this s) r c) s) as Hnf.
    rewrite Hf in Hnf. simpl in Hnf. by destruct ret as [| |[]| |]. }
  rewrite IH. replace (call this f s (r, c)) with s'; [done|].
  unfold call. simpl. by rewrite Hf.
Qed.

Lemma forEachTile_returns s :
  final s (Board.forEachTile this (returns f) s) = foldl (call this f) s (cells (this s)).
Proof. by rewrite forEachTile_visit, visit_returns. Qed.

Lemma forEachBoundaryTile_returns row col s :
  final s (Board.forEachBoundaryTile this row col (returns f) s) =
  foldl (call this f) s (neighbors (this s) row col).
Proof. by rewrite forEachBoundaryTile_visit, visit_returns. Qed.

End Returns.

(** ** Counting under a write *)

Lemma length_filter_update {A} `{EqDecision A} (P Q : A → Prop)
    `{∀ x, Decision (P x)}
    `{∀ x, Decision (Q x)} (l : list A) (x : A) :
  NoDup l → x ∈ l → (∀ y, y ∈ l → y ≠ x → P y ↔ Q y) →
  Z.of_nat (length (filter Q l)) =
  Z.of_nat (length (filter P l))
  - (if decide (P x) then 1 else 0) + (if decide (Q x) then 1 else 0).
Proof.
  induction l as [|y l IH]; intros Hnd Hx HPQ; [by apply elem_of_nil in Hx|].
  apply NoDup_cons in Hnd as [Hy Hnd]. rewrite !filter_cons.
  destruct (decide (y = x)) as [->|Hne].
  - rewrite (filter_ext_elem P Q l).
    2:{ intros z Hz. apply HPQ; [by right|]. by intros ->. }
    destruct (decide (P x)), (decide (Q x)); simpl; lia.
  - apply elem_of_cons in Hx as [->|Hx]; [done|].
    assert (P y ↔ Q y) as Hyy by (apply HPQ; [by left|done]).
    assert (∀ z, z ∈ l → z ≠ x → P z ↔ Q z) as HPQ'
      by (intros z Hz; apply HPQ; by right).
    specialize (IH Hnd Hx HPQ').
    destruct (decide (P y)), (decide (Q y)); simpl; tauto || lia.
Qed.

Lemma cells_setTile b r c v : cells (Board.setTile b r c v) = cells b.
Proof. done. Qed.

Lemma in_range_setTile b r c v p :
  in_range (Board.setTile b r c v) p ↔ in_range b p.
Proof. done. Qed.

Lemma tile_eq_holds b k p :
  tile_eq (Board.getTile b p.1 p.2) k = true ↔ holds b k p.
Proof.
  unfold holds. destruct (Board.getTile b p.1 p.2) as [v|]; simpl; [|done].
  rewrite Z.eqb_eq. split; congruence.
Qed.

Lemma tile_eq_Some v k : tile_eq (Some v) k = true ↔ v = k.
Proof. simpl. apply Z.eqb_eq. Qed.

Lemma count_tiles_setTile b p v k :
  in_range b p →
  count_tiles (Board.setTile b p.1 p.2 v) k =
  count_tiles b k - Z.b2z (tile_eq (Board.getTile b p.1 p.2) k)
  + Z.b2z (tile_eq v k).
Proof.
  intros Hp. unfold count_tiles. rewrite cells_setTile.
  rewrite (length_filter_update (holds b k) _ (cells b) p).
  - f_equal; [f_equal|].
    + destruct (decide (holds b k p)) as [Hh|Hh].
      * apply tile_eq_holds in Hh. by rewrite Hh.
      * destruct (tile_eq _ k) eqn:Ht; [|done]. by apply tile_eq_holds in Ht.
    + destruct (decide (holds _ k p)) as [Hh|Hh]; unfold holds in Hh;
        rewrite getTile_setTile_eq in Hh.
      * subst v. simpl. by rewrite Z.eqb_refl.
      * destruct v as [x|]; simpl; [|done].
        destruct (Z.eqb_spec x k); [congruence|done].
  - apply NoDup_cells.
  - by apply elem_of_cells.
  - intros q Hq Hne. apply elem_of_cells in Hq. unfold holds.
    by rewrite getTile_setTile_ne.
Qed.

(** ** The user board's counters *)

Lemma UserBoard_setTile_base u r c v :
  UserBoard.base (UserBoard.setTile u r c v)
  = Board.setTile (UserBoard.base u) r c v.
Proof.
  unfold UserBoard.setTile, UserBoard.getTile. simpl.
  repeat (case_match; simpl); done.
Qed.

Lemma tile_eq_excl t : tile_eq t Tile.FLAG = true → tile_eq t Tile.UNKNOWN = false.
Proof. destruct t as [v|]; simpl; [|done]. unfold Tile.FLAG, Tile.UNKNOWN. lia. Qed.

Lemma UserBoard_setTile_flagCount u r c v :
  UserBoard.flagCount (UserBoard.setTile u r c v) =
  UserBoard.flagCount u
  - Z.b2z (tile_eq (UserBoard.getTile u r c) Tile.FLAG)
  + Z.b2z (tile_eq v Tile.FLAG).
Proof.
  unfold UserBoard.setTile, UserBoard.getTile. simpl.
  destruct (tile_eq (Board.getTile (UserBoard.base u) r c) Tile.FLAG) eqn:Hf;
    [|destruct (tile_eq (Board.getTile (UserBoard.base u) r c) Tile.UNKNOWN)];
    simpl; rewrite !getTile_setTile_eq;
    (destruct (tile_eq v Tile.FLAG) eqn:Hv;
      [|destruct (tile_eq v Tile.UNKNOWN)]); simpl; lia.
Qed.

Lemma UserBoard_setTile_unknownCount u r c v :
  UserBoard.unknownCount (UserBoard.setTile u r c v) =
  UserBoard.unknownCount u
  - Z.b2z (tile_eq (UserBoard.getTile u r c) Tile.UNKNOWN)
  + Z.b2z (tile_eq v Tile.UNKNOWN).
Proof.
  unfold UserBoard.setTile, UserBoard.getTile. simpl.
  destruct (tile_eq (Board.getTile (UserBoard.base u) r c) Tile.FLAG) eqn:Hf;
    [apply tile_eq_excl in Hf; rewrite Hf
    |destruct (tile_eq (Board.getTile (UserBoard.base u) r c) Tile.UNKNOWN)];
    simpl; rewrite !getTile_setTile_eq;
    (destruct (tile_eq v Tile.FLAG) eqn:Hv;
      [apply tile_eq_excl in Hv; rewrite Hv
      |destruct (tile_eq v Tile.UNKNOWN)]); simpl; lia.
Qed.

Lemma setTile_counters_ok u r c v :
  in_range (UserBoard.base u) (r, c) →
  counters_ok u → counters_ok (UserBoard.setTile u r c v).
Proof.
  intros Hr [Hf Hu]. unfold counters_ok.
  rewrite UserBoard_setTile_base, UserBoard_setTile_flagCount,
    UserBoard_setTile_unknownCount.
  rewrite !(count_tiles_setTile _ (r, c)) by done.
  unfold UserBoard.getTile. simpl. lia.
Qed.

(** ** Cells and array indices *)

Lemma fmap_index_box cols r0 n :
  0 ≤ cols →
  (λ p : cell, p.1 * cols + p.2) <$> box r0 (Z.of_nat n) 0 cols
  = seqZ (r0 * cols) (Z.of_nat n * cols).
Proof.
  intros Hc. revert r0. induction n as [|n IH]; intros r0.
  - rewrite box_nil by lia. by rewrite seqZ_nil by lia.
  - rewrite box_cons by lia. rewrite fmap_app.
    replace (Z.of_nat (S n) - 1) with (Z.of_nat n) by lia. rewrite IH.
    rewrite <- list_fmap_compose.
    replace (Z.of_nat (S n) * cols) with (cols + Z.of_nat n * cols) by lia.
    rewrite seqZ_app by lia. f_equal.
    + trans (Z.add (r0 * cols) <$> seqZ 0 cols); [done|].
      rewrite fmap_add_seqZ. f_equal. lia.
    + f_equal. lia.
Qed.

Lemma index_cells b :
  0 ≤ Board.rowCount b → 0 ≤ Board.colCount b →
  (λ p : cell, Board.getIndex_ b p.1 p.2) <$> cells b
  = seqZ 0 (Board.rowCount b * Board.colCount b).
Proof.
  intros Hr Hc. unfold cells, Board.getIndex_.
  rewrite <- (Z2Nat.id (Board.rowCount b)) at 1 by done.
  rewrite fmap_index_box by done. f_equal. lia.
Qed.

Lemma length_cells b :
  0 ≤ Board.rowCount b → 0 ≤ Board.colCount b →
  Z.of_nat (length (cells b)) = Board.rowCount b * Board.colCount b.
Proof.
  intros Hr Hc.
  rewrite <- (length_fmap (λ p : cell, Board.getIndex_ b p.1 p.2)).
  rewrite index_cells, length_seqZ by done. nia.
Qed.

(** ** The counter invariant *)

Lemma length_filter_partition {A} (P1 P2 P3 : A → Prop)
    `{∀ x, Decision (P1 x)} `{∀ x, Decision (P2 x)} `{∀ x, Decision (P3 x)}
    (l : list A) :
  (∀ x, x ∈ l → (P1 x ∧ ¬ P2 x ∧ ¬ P3 x) ∨ (¬ P1 x ∧ P2 x ∧ ¬ P3 x)
                ∨ (¬ P1 x ∧ ¬ P2 x ∧ P3 x)) →
  (length (filter P1 l) + length (filter P2 l) + length (filter P3 l)
   = length l)%nat.
Proof.
  induction l as [|x l IH]; intros Hone; [done|].
  rewrite !filter_cons.
  assert (∀ y, y ∈ l → (P1 y ∧ ¬ P2 y ∧ ¬ P3 y) ∨ (¬ P1 y ∧ P2 y ∧ ¬ P3 y)
                ∨ (¬ P1 y ∧ ¬ P2 y ∧ P3 y)) as Hl
    by (intros y Hy; apply Hone; by right).
  specialize (IH Hl). specialize (Hone x (list_elem_of_here x l)).
  destruct (decide (P1 x)), (decide (P2 x)), (decide (P3 x)); simpl;
    tauto || lia.
Qed.

Lemma counts_partition u :
  all_defined (UserBoard.base u) →
  count_tiles (UserBoard.base u) Tile.FLAG
  + count_tiles (UserBoard.base u) Tile.UNKNOWN + revealedCount u
  = Z.of_nat (length (cells (UserBoard.base u))).
Proof.
  intros Hdef. unfold count_tiles, revealedCount.
  pose proof (length_filter_partition (holds (UserBoard.base u) Tile.FLAG)
    (holds (UserBoard.base u) Tile.UNKNOWN) (shown (UserBoard.base u))
    (cells (UserBoard.base u))) as Hsum.
  rewrite <- Hsum; [lia|]. clear Hsum.
  intros p Hp. apply elem_of_cells in Hp. destruct (Hdef p Hp) as [v Hv].
  unfold holds, shown, is_hidden. rewrite Hv. simpl.
  unfold Tile.FLAG, Tile.UNKNOWN.
  destruct (decide (v = -3)) as [->|]; [left|].
  { repeat split; try done. intros [_ [=]]. }
  destruct (decide (v = -2)) as [->|]; [right; left|right; right].
  { repeat split; try done. intros [_ [=]]. }
  repeat split; try congruence; [by eexists|].
  apply orb_false_iff. split; by apply Z.eqb_neq.
Qed.

Lemma all_defined_setTile b p v :
  in_range b p → all_defined b →
  all_defined (Board.setTile b p.1 p.2 (Some v)).
Proof.
  intros Hp Hdef q Hq. rewrite getTile_setTile by done.
  case_decide; [by eexists|]. by apply Hdef.
Qed.

Lemma initBoard_fold u :
  UserBoard.initBoard_ u =
  foldl (λ u p, UserBoard.setTile u p.1 p.2 (Some Tile.UNKNOWN)) u
    (cells (UserBoard.base u)).
Proof. unfold UserBoard.initBoard_. by rewrite forEachTile_returns. Qed.

Lemma fold_unknown l u :
  (∀ p, p ∈ l → in_range (UserBoard.base u) p) →
  let u' := foldl (λ u p, UserBoard.setTile u p.1 p.2 (Some Tile.UNKNOWN)) u l in
  Board.rowCount (UserBoard.base u') = Board.rowCount (UserBoard.base u)
  ∧ Board.colCount (UserBoard.base u') = Board.colCount (UserBoard.base u)
  ∧ (counters_ok u → counters_ok u')
  ∧ ∀ q, in_range (UserBoard.base u) q →
      UserBoard.getTile u' q.1 q.2 =
      if decide (q ∈ l) then Some Tile.UNKNOWN else UserBoard.getTile u q.1 q.2.
Proof.
  revert u. induction l as [|p l IH]; intros u Hl; simpl.
  - split; [done|]. split; [done|]. split; [done|]. intros q Hq.
    by destruct (decide (q ∈ [])) as [?%elem_of_nil|].
  - assert (in_range (UserBoard.base u) p) as Hp by (apply Hl; by left).
    destruct (IH (UserBoard.setTile u p.1 p.2 (Some Tile.UNKNOWN)))
      as (Hr & Hc & Hcnt & Hget).
    { intros q Hq. rewrite UserBoard_setTile_base. apply Hl. by right. }
    rewrite UserBoard_setTile_base in Hr, Hc, Hget.
    split; [done|]. split; [done|]. split.
    + intros Hok. apply Hcnt. apply setTile_counters_ok; [by destruct p|done].
    + intros q Hq. rewrite Hget by done. unfold UserBoard.getTile.
      rewrite UserBoard_setTile_base, getTile_setTile by done.
      destruct (decide (q ∈ l)) as [Hin|Hin],
               (decide (q ∈ p :: l)) as [Hin'|Hin'];
        try case_decide; subst; try done; exfalso;
        first [ apply Hin', elem_of_cons; (by left) || (by right)
              | apply elem_of_cons in Hin' as [->|?]; done ].
Qed.

Lemma count_tiles_empty b k :
  Board.data_ b = arr_empty → count_tiles b k = 0.
Proof.
  intros Hd. unfold count_tiles. rewrite filter_none; [done|].
  intros p _. unfold holds, Board.getTile, arr_get. rewrite Hd. simpl.
  by rewrite lookup_empty.
Qed.

Lemma written_inv rows opt_cols u :
  written rows opt_cols u →
  Board.rowCount (UserBoard.base u) = rows
  ∧ Board.colCount (UserBoard.base u) = Board.colCount (Board.new rows opt_cols)
  ∧ counters_ok u ∧ all_defined (UserBoard.base u).
Proof.
  induction 1 as [|u row col tile _ (Hr & Hc & Hok & Hdef) Hin].
  - unfold UserBoard.new. rewrite initBoard_fold.
    set (u0 := {| UserBoard.base := Board.new rows opt_cols;
                  UserBoard.flagCount := 0; UserBoard.unknownCount := 0 |}).
    destruct (fold_unknown (cells (UserBoard.base u0)) u0)
      as (Hr & Hc & Hcnt & Hget).
    { intros p Hp. by apply elem_of_cells. }
    repeat split; try done.
    + apply Hcnt. split; simpl; by rewrite count_tiles_empty.
    + apply Hcnt. split; simpl; by rewrite count_tiles_empty.
    + intros q Hq. change (is_Some (UserBoard.getTile
        (foldl (λ u p, UserBoard.setTile u p.1 p.2 (Some Tile.UNKNOWN)) u0
           (cells (UserBoard.base u0))) q.1 q.2)).
      assert (in_range (UserBoard.base u0) q) as Hq'.
      { unfold in_range in *. by rewrite <- Hr, <- Hc. }
      rewrite Hget by done. rewrite decide_True by by apply elem_of_cells.
      by eexists.
  - rewrite UserBoard_setTile_base. repeat split; try done.
    + by apply setTile_counters_ok.
    + by apply setTile_counters_ok.
    + by apply (all_defined_setTile _ (row, col)).
Qed.

(** C3. On a user board made by the constructor and any sequence of
    [setTile] writes at its cells (a write of the value a cell already
    holds included), [flagCount] is the number of cells holding [FLAG],
    [unknownCount] the number holding [UNKNOWN], and together with the
    number of revealed cells they add up to the number of cells.  The user
    board of a game that has been played is such a board
    ([played_written]). *)
Theorem counters_invariant rows opt_cols u :
  0 ≤ rows → 0 ≤ default 0 opt_cols →
  written rows opt_cols u →
  UserBoard.flagCount u = count_tiles (UserBoard.base u) Tile.FLAG
  ∧ UserBoard.unknownCount u = count_tiles (UserBoard.base u) Tile.UNKNOWN
  ∧ UserBoard.flagCount u + UserBoard.unknownCount u + revealedCount u
    = Board.rowCount (UserBoard.base u) * Board.colCount (UserBoard.base u).
Proof.
  intros Hrows Hcols Hw.
  destruct (written_inv _ _ _ Hw) as (Hr & Hc & [Hf Hu] & Hdef).
  repeat split; try done.
  rewrite Hf, Hu, counts_partition by done. apply length_cells; [lia|].
  rewrite Hc. simpl. destruct opt_cols as [c|]; simpl in *; [|done].
  destruct (Z.eqb_spec c 0); lia.
Qed.

(** ** Flagging *)

Lemma setTile_twice_elems b r c w v :
  Board.getTile b r c = Some v →
  elems (Board.data_ (Board.setTile (Board.setTile b r c w) r c (Some v)))
  = elems (Board.data_ b).
Proof.
  unfold Board.getTile, Board.setTile, Board.getIndex_, arr_get. simpl.
  intros Hv. destruct w as [x|].
  - rewrite insert_insert_eq. by apply insert_id.
  - rewrite insert_delete_eq. by apply insert_id.
Qed.

Lemma tile_eq_true t k : tile_eq t k = true → t = Some k.
Proof. destruct t as [v|]; simpl; [|done]. by intros ->%Z.eqb_eq. Qed.

Lemma UserBoard_getTile_setTile_eq u r c v :
  UserBoard.getTile (UserBoard.setTile u r c v) r c = v.
Proof.
  unfold UserBoard.getTile.
  by rewrite UserBoard_setTile_base, getTile_setTile_eq.
Qed.

(** Writing [w] and then the old value [v] back. *)
Lemma UserBoard_setTile_back u row col v w :
  UserBoard.getTile u row col = Some v →
  elems (Board.data_ (UserBoard.base
    (UserBoard.setTile (UserBoard.setTile u row col (Some w)) row col (Some v))))
  = elems (Board.data_ (UserBoard.base u))
  ∧ UserBoard.flagCount
      (UserBoard.setTile (UserBoard.setTile u row col (Some w)) row col (Some v))
    = UserBoard.flagCount u
  ∧ UserBoard.unknownCount
      (UserBoard.setTile (UserBoard.setTile u row col (Some w)) row col (Some v))
    = UserBoard.unknownCount u
  ∧ ∀ r c,
      UserBoard.getTile
        (UserBoard.setTile (UserBoard.setTile u row col (Some w)) row col (Some v))
        r c
      = UserBoard.getTile u r c.
Proof.
  intros Hv.
  assert (elems (Board.data_ (UserBoard.base
    (UserBoard.setTile (UserBoard.setTile u row col (Some w)) row col (Some v))))
    = elems (Board.data_ (UserBoard.base u))) as He.
  { rewrite !UserBoard_setTile_base. by apply setTile_twice_elems. }
  split; [exact He|].
  rewrite !UserBoard_setTile_flagCount, !UserBoard_setTile_unknownCount.
  rewrite UserBoard_getTile_setTile_eq, Hv. simpl.
  split; [clear; lia|]. split; [clear; lia|].
  intros r c. unfold UserBoard.getTile, Board.getTile, arr_get.
  rewrite !UserBoard_setTile_base in *. rewrite He. reflexivity.
Qed.

Lemma UserBoard_setTile_back_eq u row col v w :
  UserBoard.getTile u row col = Some v →
  Board.getIndex_ (UserBoard.base u) row col < len (Board.data_ (UserBoard.base u)) →
  UserBoard.setTile (UserBoard.setTile u row col (Some w)) row col (Some v) = u.
Proof.
  intros Hv Hlen.
  destruct (UserBoard_setTile_back u row col v w Hv) as (He & Hf & Hk & _).
  assert (len (Board.data_ (UserBoard.base
            (UserBoard.setTile (UserBoard.setTile u row col (Some w))
               row col (Some v))))
          = len (Board.data_ (UserBoard.base u))) as Hl.
  { rewrite !UserBoard_setTile_base. unfold Board.setTile, Board.getIndex_ in *.
    cbn [Board.data_ Board.colCount]. rewrite !len_arr_set.
    repeat case_decide; lia. }
  assert (Board.rowCount (UserBoard.base
            (UserBoard.setTile (UserBoard.setTile u row col (Some w))
               row col (Some v)))
          = Board.rowCount (UserBoard.base u)) as Hr
    by (by rewrite !UserBoard_setTile_base).
  assert (Board.colCount (UserBoard.base
            (UserBoard.setTile (UserBoard.setTile u row col (Some w))
               row col (Some v)))
          = Board.colCount (UserBoard.base u)) as Hc
    by (by rewrite !UserBoard_setTile_base).
  destruct (UserBoard.setTile _ row col (Some v)) as [[r2 c2 [e2 l2]] f2 k2].
  destruct u as [[r1 c1 [e1 l1]] f1 k1].
  cbn [UserBoard.base UserBoard.flagCount UserBoard.unknownCount
       Board.rowCount Board.colCount Board.data_ elems len] in *.
  by subst.
Qed.

(** C10. Flagging the same coordinates twice restores the user board: the
    tiles, [flagCount] and [unknownCount] are those before the first call,
    and the solution is untouched.  When the cell lies inside the array, as
    every cell of a constructed board does, the game is the very same. *)
Theorem flagTile_involution :
  ∀ (g : Game.t) (row col : Z),
    elems (Board.data_ (UserBoard.base
      (Game.userBoard (Game.flagTile row col (Game.flagTile row col g)))))
    = elems (Board.data_ (UserBoard.base (Game.userBoard g)))
    ∧ UserBoard.flagCount
        (Game.userBoard (Game.flagTile row col (Game.flagTile row col g)))
      = UserBoard.flagCount (Game.userBoard g)
    ∧ UserBoard.unknownCount
        (Game.userBoard (Game.flagTile row col (Game.flagTile row col g)))
      = UserBoard.unknownCount (Game.userBoard g)
    ∧ (∀ r c, UserBoard.getTile
        (Game.userBoard (Game.flagTile row col (Game.flagTile row col g))) r c
      = UserBoard.getTile (Game.userBoard g) r c)
    ∧ Game.mineBoard (Game.flagTile row col (Game.flagTile row col g))
      = Game.mineBoard g
    ∧ (Board.getIndex_ (UserBoard.base (Game.userBoard g)) row col
       < len (Board.data_ (UserBoard.base (Game.userBoard g))) →
       Game.flagTile row col (Game.flagTile row col g) = g).
Proof.
  intros g row col.
  remember (Game.flagTile row col (Game.flagTile row col g)) as g2 eqn:Hg2.
  unfold Game.flagTile in Hg2.
  destruct (tile_eq (UserBoard.getTile (Game.userBoard g) row col) Tile.UNKNOWN)
    eqn:Hu.
  - apply tile_eq_true in Hu. unfold Game.with_user in Hg2.
    cbn [Game.userBoard Game.mineBoard] in Hg2.
    rewrite UserBoard_getTile_setTile_eq in Hg2. cbn [tile_eq] in Hg2.
    change (Tile.FLAG =? Tile.UNKNOWN) with false in Hg2.
    change (Tile.FLAG =? Tile.FLAG) with true in Hg2.
    subst g2. cbn [Game.userBoard Game.mineBoard].
    destruct (UserBoard_setTile_back _ row col _ Tile.FLAG Hu)
      as (He & Hf & Hk & Hg).
    split; [exact He|]. split; [exact Hf|]. split; [exact Hk|].
    split; [exact Hg|]. split; [reflexivity|].
    intros Hlen. rewrite (UserBoard_setTile_back_eq _ _ _ _ _ Hu Hlen).
    by destruct g.
  - destruct (tile_eq (UserBoard.getTile (Game.userBoard g) row col) Tile.FLAG)
      eqn:Hf.
    + apply tile_eq_true in Hf. unfold Game.with_user in Hg2.
      cbn [Game.userBoard Game.mineBoard] in Hg2.
      rewrite UserBoard_getTile_setTile_eq in Hg2. cbn [tile_eq] in Hg2.
      change (Tile.UNKNOWN =? Tile.UNKNOWN) with true in Hg2.
      subst g2. cbn [Game.userBoard Game.mineBoard].
      destruct (UserBoard_setTile_back _ row col _ Tile.UNKNOWN Hf)
        as (He & Hf' & Hk & Hg).
      split; [exact He|]. split; [exact Hf'|]. split; [exact Hk|].
      split; [exact Hg|]. split; [reflexivity|].
      intros Hlen. rewrite (UserBoard_setTile_back_eq _ _ _ _ _ Hf Hlen).
      by destruct g.
    + rewrite Hu, Hf in Hg2. subst g2. repeat split; reflexivity.
Qed.

(** ** Revealing a revealed cell *)

Lemma guard_hidden t :
  negb (tile_eq t Tile.UNKNOWN) && negb (tile_eq t Tile.FLAG)
  = negb (is_hidden t).
Proof. unfold is_hidden. by rewrite negb_orb. Qed.

Lemma revealTile_fuel_S fuel row col g :
  Game.revealTile_fuel (S fuel) row col g =
  let userTile := UserBoard.getTile (Game.userBoard g) row col in
  if negb (is_hidden userTile) then Some (g, JUndefined)
  else
    let mineTile := MineBoard.getTile (Game.mineBoard g) row col in
    let g := Game.with_user g
               (UserBoard.setTile (Game.userBoard g) row col mineTile) in
    if tile_eq mineTile Tile.MINE then Some (g, JError "mine revealed")
    else if tile_eq mineTile 0 then
      match Board.forEachBoundaryTile board_of row col
              (λ r c _ g, Game.revealTile_fuel fuel r c g) g with
      | None => None
      | Some (g', _) => Some (g', JNull)
      end
    else Some (g, JNull).
Proof. cbn [Game.revealTile_fuel]. by rewrite guard_hidden. Qed.

(** C9 (as the code has it). Revealing a cell that is neither [UNKNOWN] nor
    [FLAG] changes nothing in the game, counters included, and returns
    [undefined]: not an [Error], falsy and equal to [null] under [==], as
    is the [null] of a successful reveal. *)
Theorem revealTile_revealed_noop g row col :
  is_hidden (user_at g (row, col)) = false →
  Game.revealTile row col g = Some (g, JUndefined)
  ∧ is_error JUndefined = false
  ∧ loose_null JUndefined = loose_null JNull
  ∧ truthy JUndefined = truthy JNull.
Proof.
  intros Hh. split; [|done]. unfold Game.revealTile.
  rewrite revealTile_fuel_S. cbv zeta.
  unfold user_at in Hh. cbn [fst snd] in Hh. by rewrite Hh.
Qed.

(** ** Laying the mines: the first pass of [setMines_] *)

Lemma foldl_ext {A B} (f g : A → B → A) (l : list B) (a : A) :
  (∀ a b, f a b = g a b) → foldl f a l = foldl g a l.
Proof.
  intros Hfg. revert a. induction l as [|b l IH]; intros a; simpl; [done|].
  by rewrite Hfg, IH.
Qed.

Lemma clearBoard_fold mineCount m :
  MineBoard.clearBoard_ mineCount m =
  (foldl clear_step (m, mineCount) (cells (MineBoard.base m))).1.
Proof.
  unfold MineBoard.clearBoard_. rewrite forEachTile_visit, visit_returns.
  - simpl. f_equal. apply foldl_ext. intros [m' mc] p.
    unfold call, clear_step. simpl. by destruct (0 <? mc).
  - intros r c tile [m' mc]. by destruct (0 <? mc).
Qed.

Lemma clear_fold l k m mc :
  (λ p : cell, Board.getIndex_ (MineBoard.base m) p.1 p.2) <$> l
    = seqZ k (Z.of_nat (length l)) →
  len (Board.data_ (MineBoard.base m)) = k →
  let m' := (foldl clear_step (m, mc) l).1 in
  Board.rowCount (MineBoard.base m') = Board.rowCount (MineBoard.base m)
  ∧ Board.colCount (MineBoard.base m') = Board.colCount (MineBoard.base m)
  ∧ MineBoard.mineCount m' = MineBoard.mineCount m
  ∧ len (Board.data_ (MineBoard.base m')) = k + Z.of_nat (length l)
  ∧ ∀ i, arr_get (Board.data_ (MineBoard.base m')) i =
         if decide (k ≤ i < k + Z.of_nat (length l))
         then Some (if decide (i - k < mc) then Tile.MINE else 0)
         else arr_get (Board.data_ (MineBoard.base m)) i.
Proof.
  revert k m mc. induction l as [|p l IH]; intros k m mc Hidx Hlen.
  - simpl. repeat split; try done; try lia.
    intros i. by rewrite decide_False by lia.
  - rewrite fmap_cons in Hidx. simpl length in Hidx.
    rewrite Nat2Z.inj_succ, seqZ_cons, Z.pred_succ in Hidx by lia.
    injection Hidx as Hp Hidx.
    cbn [foldl]. set (s1 := clear_step (m, mc) p).
    assert (Board.rowCount (MineBoard.base s1.1) = Board.rowCount (MineBoard.base m)
      ∧ Board.colCount (MineBoard.base s1.1) = Board.colCount (MineBoard.base m)
      ∧ MineBoard.mineCount s1.1 = MineBoard.mineCount m
      ∧ Board.data_ (MineBoard.base s1.1)
        = arr_set (Board.data_ (MineBoard.base m)) k
            (Some (if decide (0 < mc) then Tile.MINE else 0))
      ∧ s1.2 = if decide (0 < mc) then mc - 1 else mc) as (Hr1 & Hc1 & Hm1 & Hd1 & Hmc1).
    { unfold s1, clear_step. simpl. destruct (Z.ltb_spec 0 mc).
      - rewrite !decide_True by done. simpl. by rewrite Hp.
      - rewrite !decide_False by lia. simpl. by rewrite Hp. }
    destruct s1 as [m1 mc1]. simpl in Hr1, Hc1, Hm1, Hd1, Hmc1.
    destruct (IH (Z.succ k) m1 mc1) as (Hr & Hc & Hm & Hl & Hget).
    { rewrite <- Hidx. apply list_fmap_ext. intros _ q _.
      unfold Board.getIndex_. by rewrite Hc1. }
    { rewrite Hd1, len_arr_set, Hlen. destruct (decide (k ≤ k)); lia. }
    repeat split; try congruence.
    + rewrite Hl. simpl length. lia.
    + intros i. rewrite Hget, Hd1, arr_get_set, Hmc1. simpl length.
      repeat case_decide; try done; try lia; exfalso; lia.
Qed.

Lemma clearBoard_spec mines rows opt_cols :
  0 ≤ rows → 0 ≤ Board.colCount (Board.new rows opt_cols) →
  let m := MineBoard.clearBoard_ mines
             {| MineBoard.base := Board.new rows opt_cols;
                MineBoard.mineCount := mines |} in
  Board.rowCount (MineBoard.base m) = rows
  ∧ Board.colCount (MineBoard.base m) = Board.colCount (Board.new rows opt_cols)
  ∧ MineBoard.mineCount m = mines
  ∧ len (Board.data_ (MineBoard.base m))
    = rows * Board.colCount (Board.new rows opt_cols)
  ∧ ∀ i, arr_get (Board.data_ (MineBoard.base m)) i =
         if decide (0 ≤ i < rows * Board.colCount (Board.new rows opt_cols))
         then Some (if decide (i < mines) then Tile.MINE else 0)
         else None.
Proof.
  intros Hr Hc. set (m0 := {| MineBoard.base := Board.new rows opt_cols;
                              MineBoard.mineCount := mines |}).
  cbv zeta. rewrite clearBoard_fold.
  destruct (clear_fold (cells (MineBoard.base m0)) 0 m0 mines)
    as (Hr' & Hc' & Hm' & Hl' & Hget).
  { rewrite index_cells by done. f_equal. by rewrite length_cells. }
  { done. }
  rewrite length_cells in Hl', Hget by done.
  repeat split; try done.
  intros i. rewrite Hget. replace (i - 0) with i by lia.
  replace (0 + Board.rowCount (MineBoard.base m0) * Board.colCount (MineBoard.base m0))
    with (rows * Board.colCount (Board.new rows opt_cols)) by (simpl; lia).
  case_decide; [done|].
  unfold arr_get. simpl. apply lookup_empty.
Qed.

(** ** The shuffle keeps the mines *)

Lemma floor_mul_bounds x n : 0 < n → 0 ≤ floor_mul x n < n.
Proof.
  intros Hn. unfold floor_mul. split.
  - apply Z.div_pos; lia.
  - apply Z.div_lt_upper_bound; nia.
Qed.

Lemma mines_or_zero_swap d n i j :
  0 ≤ i < n → 0 ≤ j < n → len d = n → mines_or_zero d n →
  let d' := arr_set (arr_set d i (arr_get d j)) j (arr_get d i) in
  len d' = n ∧ mines_or_zero d' n
  ∧ ∀ k, count_idx d' n k = count_idx d n k.
Proof.
  intros Hi Hj Hlen Hmz d'. split; [|split].
  - unfold d'. rewrite !len_arr_set, Hlen. repeat case_decide; lia.
  - intros x Hx. unfold d'. rewrite !arr_get_set.
    repeat case_decide; by apply Hmz.
  - intros k. unfold count_idx.
    set (d1 := arr_set d i (arr_get d j)).
    rewrite (length_filter_update (λ x, arr_get d1 x = Some k)
               (λ x, arr_get d' x = Some k) (seqZ 0 n) j).
    2:{ apply NoDup_seqZ. }
    2:{ apply elem_of_seqZ. lia. }
    2:{ intros y _ Hy. unfold d'. fold d1. rewrite arr_get_set.
        by rewrite decide_False by done. }
    rewrite (length_filter_update (λ x, arr_get d x = Some k)
               (λ x, arr_get d1 x = Some k) (seqZ 0 n) i).
    2:{ apply NoDup_seqZ. }
    2:{ apply elem_of_seqZ. lia. }
    2:{ intros y _ Hy. unfold d1. rewrite arr_get_set.
        by rewrite decide_False by done. }
    assert (arr_get d1 i = arr_get d j) as H1i.
    { unfold d1. rewrite arr_get_set. by rewrite decide_True. }
    assert (arr_get d1 j = arr_get d j) as H1j.
    { unfold d1. rewrite arr_get_set. case_decide; [done|done]. }
    assert (arr_get d' j = arr_get d i) as H2j.
    { unfold d'. rewrite arr_get_set. by rewrite decide_True. }
    rewrite (decide_ext (arr_get d1 i = Some k) (arr_get d j = Some k)) by (by rewrite H1i).
    rewrite (decide_ext (arr_get d1 j = Some k) (arr_get d j = Some k)) by (by rewrite H1j).
    rewrite (decide_ext (arr_get d' j = Some k) (arr_get d i = Some k)) by (by rewrite H2j).
    lia.
Qed.

Lemma shuffle_loop_inv random n :
  ∀ i draw d,
    Z.of_nat i < n → len d = n → mines_or_zero d n →
    len (Board.shuffle_loop random i draw d) = n
    ∧ mines_or_zero (Board.shuffle_loop random i draw d) n
    ∧ ∀ k, count_idx (Board.shuffle_loop random i draw d) n k = count_idx d n k.
Proof.
  induction i as [|i IH]; intros draw d Hi Hlen Hmz; [done|].
  cbn [Board.shuffle_loop]. cbv zeta.
  pose proof (floor_mul_bounds (random draw) (Z.of_nat (S i) + 1)) as Hj.
  destruct (mines_or_zero_swap d n (Z.of_nat (S i))
              (floor_mul (random draw) (Z.of_nat (S i) + 1)))
    as (Hlen' & Hmz' & Hcnt'); [lia|lia|done|done|].
  destruct (IH (S draw) _ ltac:(lia) Hlen' Hmz') as (Hlen'' & Hmz'' & Hcnt'').
  split; [done|]. split; [done|]. intros k. by rewrite Hcnt'', Hcnt'.
Qed.

Lemma shuffle_inv random b n :
  0 ≤ n → len (Board.data_ b) = n → mines_or_zero (Board.data_ b) n →
  Board.rowCount (Board.shuffle random b).1 = Board.rowCount b
  ∧ Board.colCount (Board.shuffle random b).1 = Board.colCount b
  ∧ len (Board.data_ (Board.shuffle random b).1) = n
  ∧ mines_or_zero (Board.data_ (Board.shuffle random b).1) n
  ∧ ∀ k, count_idx (Board.data_ (Board.shuffle random b).1) n k
         = count_idx (Board.data_ b) n k.
Proof.
  intros Hn Hlen Hmz. unfold Board.shuffle. rewrite Hlen.
  destruct (Z.eqb_spec n 0) as [->|Hn0]; [done|]. cbn [fst Board.rowCount
    Board.colCount Board.data_].
  destruct (shuffle_loop_inv random n (Z.to_nat (n - 1)) 0 (Board.data_ b))
    as (? & ? & ?); [lia|done|done|done].
Qed.

(** ** Counting the adjacent mines: the second pass of [setMines_] *)

Lemma incrementAdjacentTiles_fold row col m :
  MineBoard.incrementAdjacentTiles_ row col m =
  foldl inc_step m (neighbors (MineBoard.base m) row col).
Proof.
  unfold MineBoard.incrementAdjacentTiles_.
  rewrite forEachBoundaryTile_returns by done. done.
Qed.

Lemma countAdjacent_fold m :
  MineBoard.countAdjacent_ m = foldl adjacent_step m (cells (MineBoard.base m)).
Proof.
  unfold MineBoard.countAdjacent_.
  rewrite forEachTile_returns by done. done.
Qed.

Lemma inc_step_spec m p :
  in_range (MineBoard.base m) p →
  Board.rowCount (MineBoard.base (inc_step m p)) = Board.rowCount (MineBoard.base m)
  ∧ Board.colCount (MineBoard.base (inc_step m p)) = Board.colCount (MineBoard.base m)
  ∧ MineBoard.mineCount (inc_step m p) = MineBoard.mineCount m
  ∧ ∀ q, in_range (MineBoard.base m) q →
      MineBoard.getTile (inc_step m p) q.1 q.2 =
      if decide (p = q) then bump (MineBoard.getTile m p.1 p.2)
      else MineBoard.getTile m q.1 q.2.
Proof.
  intros Hp. unfold inc_step, bump.
  destruct (tile_ge (MineBoard.getTile m p.1 p.2) 0) eqn:Hge.
  - repeat split; try done. intros q Hq. unfold MineBoard.getTile.
    cbn [MineBoard.setTile MineBoard.with_base MineBoard.base].
    by rewrite getTile_setTile.
  - repeat split; try done. intros q Hq. by case_decide; subst.
Qed.

Lemma inc_fold l m :
  (∀ q, q ∈ l → in_range (MineBoard.base m) q) → NoDup l →
  Board.rowCount (MineBoard.base (foldl inc_step m l))
    = Board.rowCount (MineBoard.base m)
  ∧ Board.colCount (MineBoard.base (foldl inc_step m l))
    = Board.colCount (MineBoard.base m)
  ∧ MineBoard.mineCount (foldl inc_step m l) = MineBoard.mineCount m
  ∧ ∀ q, in_range (MineBoard.base m) q →
      MineBoard.getTile (foldl inc_step m l) q.1 q.2 =
      if decide (q ∈ l) then bump (MineBoard.getTile m q.1 q.2)
      else MineBoard.getTile m q.1 q.2.
Proof.
  revert m. induction l as [|p l IH]; intros m Hl Hnd.
  - repeat split; done.
  - apply NoDup_cons in Hnd as [Hp Hnd]. cbn [foldl].
    destruct (inc_step_spec m p) as (Hr1 & Hc1 & Hm1 & Hg1).
    { apply Hl, elem_of_cons. by left. }
    destruct (IH (inc_step m p)) as (Hr & Hc & Hm & Hg); [|done|].
    { intros q Hq. unfold in_range. rewrite Hr1, Hc1.
      apply Hl, elem_of_cons. by right. }
    split; [congruence|]. split; [congruence|]. split; [congruence|].
    intros q Hq. rewrite Hg by (unfold in_range; by rewrite Hr1, Hc1).
    rewrite Hg1 by done.
    destruct (decide (q ∈ l)) as [Hin|Hin].
    + rewrite decide_False by (by intros ->).
      by rewrite decide_True by (apply elem_of_cons; by right).
    + destruct (decide (p = q)) as [->|Hne].
      * by rewrite decide_True by (apply elem_of_cons; by left).
      * rewrite decide_False; [done|].
        intros [->|?]%elem_of_cons; done.
Qed.

Lemma adjacent_sym p q : adjacent p q ↔ adjacent q p.
Proof. unfold adjacent. split; intros (? & ? & ?); repeat split; lia || done. Qed.

Lemma cells_dims b b' :
  Board.rowCount b = Board.rowCount b' → Board.colCount b = Board.colCount b' →
  cells b = cells b'.
Proof. unfold cells. by intros -> ->. Qed.

Lemma neighbors_dims b b' row col :
  Board.rowCount b = Board.rowCount b' → Board.colCount b = Board.colCount b' →
  neighbors b row col = neighbors b' row col.
Proof. intros Hr Hc. unfold neighbors. by rewrite (cells_dims b b'). Qed.

Lemma in_range_dims b b' p :
  Board.rowCount b = Board.rowCount b' → Board.colCount b = Board.colCount b' →
  in_range b p ↔ in_range b' p.
Proof. unfold in_range. by intros -> ->. Qed.

Lemma mines_among_snoc b0 seen p q :
  mines_among b0 (seen ++ [p]) q =
  mines_among b0 seen q
  + if decide (holds b0 Tile.MINE p ∧ adjacent p q) then 1 else 0.
Proof.
  unfold mines_among. rewrite filter_app, length_app.
  rewrite filter_cons, filter_nil. case_decide; simpl; lia.
Qed.

Lemma mines_among_nonneg b0 seen q : 0 ≤ mines_among b0 seen q.
Proof. unfold mines_among. lia. Qed.

Lemma adjacent_step_counting b0 seen m p :
  laid b0 → in_range b0 p → counting b0 seen m →
  counting b0 (seen ++ [p]) (adjacent_step m p).
Proof.
  intros Hlaid Hp (Hr & Hc & Hq). unfold adjacent_step.
  destruct (Hq p Hp) as [Hmine Hzero].
  destruct (Hlaid p Hp) as [Hpm|Hpz].
  - rewrite (Hmine Hpm). cbn [tile_eq]. change (Tile.MINE =? Tile.MINE) with true.
    cbv iota.
    rewrite incrementAdjacentTiles_fold.
    destruct (inc_fold (neighbors (MineBoard.base m) p.1 p.2) m)
      as (Hr' & Hc' & _ & Hg).
    { intros q [_ ?]%elem_of_neighbors. done. }
    { apply NoDup_neighbors. }
    split; [congruence|]. split; [congruence|].
    intros q Hqr. rewrite Hg by (by apply (in_range_dims _ b0)).
    destruct (Hq q Hqr) as [Hqm Hqz]. rewrite mines_among_snoc.
    rewrite (neighbors_dims _ b0) by done.
    destruct (decide (q ∈ neighbors b0 p.1 p.2)) as [Hin|Hin].
    + apply elem_of_neighbors in Hin as [Hadj _].
      replace (p.1, p.2) with p in Hadj by by destruct p.
      split.
      * intros Hm. by rewrite (Hqm Hm).
      * intros Hz. rewrite (Hqz Hz). unfold bump. simpl.
        destruct (Z.leb_spec 0 (mines_among b0 seen q)) as [_|Hneg].
        2:{ pose proof (mines_among_nonneg b0 seen q). lia. }
        simpl. by rewrite decide_True.
    + assert (¬ adjacent p q) as Hnadj.
      { intros Hadj. apply Hin, elem_of_neighbors.
        by replace (p.1, p.2) with p by by destruct p. }
      rewrite decide_False by tauto. rewrite Z.add_0_r. done.
  - rewrite (Hzero Hpz). cbn [tile_eq].
    destruct (Z.eqb_spec (mines_among b0 seen p) Tile.MINE) as [Heq|_].
    { pose proof (mines_among_nonneg b0 seen p). unfold Tile.MINE in Heq. lia. }
    split; [done|]. split; [done|]. intros q Hqr.
    rewrite mines_among_snoc. rewrite decide_False.
    2:{ intros [Hpm _]. unfold holds in Hpm, Hpz. rewrite Hpz in Hpm.
        discriminate Hpm. }
    rewrite Z.add_0_r. by apply Hq.
Qed.

Lemma adjacent_fold_counting b0 l :
  laid b0 → (∀ p, p ∈ l → in_range b0 p) →
  ∀ seen m, counting b0 seen m →
            counting b0 (seen ++ l) (foldl adjacent_step m l).
Proof.
  intros Hlaid. induction l as [|p l IH]; intros Hl seen m Hc.
  - by rewrite app_nil_r.
  - cbn [foldl]. replace (seen ++ p :: l) with ((seen ++ [p]) ++ l)
      by (by rewrite <- app_assoc).
    apply IH.
    + intros q Hq. apply Hl, elem_of_cons. by right.
    + apply adjacent_step_counting; [done| |done].
      apply Hl, elem_of_cons. by left.
Qed.

Lemma inc_fold_mineCount l m :
  MineBoard.mineCount (foldl inc_step m l) = MineBoard.mineCount m.
Proof.
  revert m. induction l as [|q l IH]; intros m; [done|]. cbn [foldl].
  rewrite IH. unfold inc_step. by case_match.
Qed.

Lemma adjacent_step_mineCount m p :
  MineBoard.mineCount (adjacent_step m p) = MineBoard.mineCount m.
Proof.
  unfold adjacent_step. case_match; [|done].
  by rewrite incrementAdjacentTiles_fold, inc_fold_mineCount.
Qed.

Lemma countAdjacent_mineCount m :
  MineBoard.mineCount (MineBoard.countAdjacent_ m) = MineBoard.mineCount m.
Proof.
  rewrite countAdjacent_fold. generalize (cells (MineBoard.base m)).
  intros l. revert m. induction l as [|q l IH]; intros m; [done|].
  cbn [foldl]. by rewrite IH, adjacent_step_mineCount.
Qed.

(** After the second pass the mines are where they were and the adjacency
    invariant holds. *)
Lemma countAdjacent_spec m :
  laid (MineBoard.base m) →
  Board.rowCount (MineBoard.base (MineBoard.countAdjacent_ m))
    = Board.rowCount (MineBoard.base m)
  ∧ Board.colCount (MineBoard.base (MineBoard.countAdjacent_ m))
    = Board.colCount (MineBoard.base m)
  ∧ (∀ q, in_range (MineBoard.base m) q →
       holds (MineBoard.base (MineBoard.countAdjacent_ m)) Tile.MINE q
       ↔ holds (MineBoard.base m) Tile.MINE q)
  ∧ adjacency_ok (MineBoard.base (MineBoard.countAdjacent_ m)).
Proof.
  intros Hlaid. set (b0 := MineBoard.base m).
  destruct (adjacent_fold_counting b0 (cells b0) Hlaid) with (seen := @nil cell) (m := m)
    as (Hr & Hc & Hq).
  { intros p Hp. by apply elem_of_cells. }
  { split; [done|]. split; [done|]. intros q Hq. split; [done|].
    intros Hz. unfold mines_among. simpl. exact Hz. }
  rewrite app_nil_l in Hq. rewrite <- countAdjacent_fold in Hr, Hc, Hq.
  assert (∀ q, in_range b0 q →
       holds (MineBoard.base (MineBoard.countAdjacent_ m)) Tile.MINE q
       ↔ holds b0 Tile.MINE q) as Hmines.
  { intros q Hqr. destruct (Hq q Hqr) as [Hqm Hqz]. split; [|apply Hqm].
    intros Hm. destruct (Hlaid q Hqr) as [|Hz]; [done|].
    specialize (Hqz Hz). unfold holds in Hm.
    unfold MineBoard.getTile in Hqz. rewrite Hqz in Hm.
    pose proof (mines_among_nonneg b0 (cells b0) q).
    injection Hm as Hm. unfold Tile.MINE in Hm. lia. }
  split; [done|]. split; [done|]. split; [done|].
  unfold adjacency_ok. rewrite Forall_forall. intros q Hqc Hnm.
  rewrite (cells_dims (MineBoard.base (MineBoard.countAdjacent_ m)) b0)
    in Hqc by done.
  apply elem_of_cells in Hqc.
  destruct (Hlaid q Hqc) as [Hm|Hz]; [by apply Hmines in Hm|].
  destruct (Hq q Hqc) as [_ Hqz]. specialize (Hqz Hz).
  unfold holds. unfold MineBoard.getTile in Hqz. rewrite Hqz. f_equal.
  unfold mines_among, mine_neighbors. do 2 f_equal.
  unfold neighbors. rewrite list_filter_filter.
  rewrite (cells_dims (MineBoard.base (MineBoard.countAdjacent_ m)) b0) by done.
  apply filter_ext_elem. intros p Hp%elem_of_cells.
  rewrite (Hmines p Hp). replace (q.1, q.2) with q by by destruct q.
  rewrite (adjacent_sym p q). done.
Qed.

(** ** The constructed solution *)

Lemma foldl_invariant {A B} (P : A → Prop) (f : A → B → A) (l : list B) (a : A) :
  (∀ a b, P a → P (f a b)) → P a → P (foldl f a l).
Proof.
  intros Hf. revert a. induction l as [|b l IH]; intros a Ha; [done|].
  cbn [foldl]. by apply IH, Hf.
Qed.

Lemma index_in_range b q :
  in_range b q →
  0 ≤ Board.getIndex_ b q.1 q.2 < Board.rowCount b * Board.colCount b.
Proof. unfold in_range, Board.getIndex_. nia. Qed.

Lemma count_tiles_idx b k :
  0 ≤ Board.rowCount b → 0 ≤ Board.colCount b →
  count_tiles b k
  = count_idx (Board.data_ b) (Board.rowCount b * Board.colCount b) k.
Proof.
  intros Hr Hc. unfold count_tiles, count_idx.
  rewrite <- index_cells by done. rewrite filter_fmap, length_fmap. done.
Qed.

Lemma MineBoard_new_dims random mines rows opt_cols :
  Board.rowCount (MineBoard.base (MineBoard.new random mines rows opt_cols))
    = rows
  ∧ Board.colCount (MineBoard.base (MineBoard.new random mines rows opt_cols))
    = Board.colCount (Board.new rows opt_cols)
  ∧ MineBoard.mineCount (MineBoard.new random mines rows opt_cols) = mines.
Proof.
  unfold MineBoard.new, MineBoard.setMines_. cbv zeta.
  set (m0 := {| MineBoard.base := Board.new rows opt_cols;
                MineBoard.mineCount := mines |}).
  set (P := λ m : MineBoard.t,
    Board.rowCount (MineBoard.base m) = rows
    ∧ Board.colCount (MineBoard.base m) = Board.colCount (Board.new rows opt_cols)
    ∧ MineBoard.mineCount m = mines).
  assert (P (MineBoard.clearBoard_ mines m0)) as H1.
  { rewrite clearBoard_fold.
    apply (foldl_invariant (λ s, P s.1)); [|done].
    intros [m mc] p Hm. unfold clear_step. by destruct (0 <? (m, mc).2). }
  set (m1 := MineBoard.clearBoard_ mines m0) in *.
  assert (P (MineBoard.with_base m1 (Board.shuffle random (MineBoard.base m1)).1))
    as H2.
  { unfold Board.shuffle. destruct H1 as (? & ? & ?).
    by destruct (len (Board.data_ (MineBoard.base m1)) =? 0). }
  set (m2 := MineBoard.with_base m1 _) in *.
  change (P (MineBoard.countAdjacent_ m2)). rewrite countAdjacent_fold.
  apply foldl_invariant; [|done].
  intros m p Hm. unfold adjacent_step. case_match; [|done].
  rewrite incrementAdjacentTiles_fold. apply foldl_invariant; [|done].
  intros m' q Hm'. unfold inc_step. by case_match.
Qed.

Lemma count_idx_cleared d n mines :
  0 ≤ n →
  (∀ i, 0 ≤ i < n →
        arr_get d i = Some (if decide (i < mines) then Tile.MINE else 0)) →
  count_idx d n Tile.MINE = Z.min (Z.max mines 0) n.
Proof.
  intros Hn Hget. unfold count_idx.
  rewrite (filter_ext_elem _ (λ i, 0 ≤ i < mines)).
  2:{ intros i Hi%elem_of_seqZ. rewrite Hget by lia.
      case_decide; [split; [lia|done]|]. split; [done|lia]. }
  rewrite <- (Z2Nat.id n) at 1 by done. rewrite filter_seqZ, length_seqZ. lia.
Qed.

Lemma MineBoard_new_spec random mines rows opt_cols :
  0 ≤ rows → 0 ≤ Board.colCount (Board.new rows opt_cols) →
  adjacency_ok (MineBoard.base (MineBoard.new random mines rows opt_cols))
  ∧ count_tiles (MineBoard.base (MineBoard.new random mines rows opt_cols))
      Tile.MINE
    = Z.min (Z.max mines 0) (rows * Board.colCount (Board.new rows opt_cols)).
Proof.
  intros Hrows Hcols.
  destruct (MineBoard_new_dims random mines rows opt_cols) as (Hr3 & Hc3 & _).
  unfold MineBoard.new, MineBoard.setMines_ in *. cbv zeta in *.
  destruct (clearBoard_spec mines rows opt_cols Hrows Hcols)
    as (Hr1 & Hc1 & _ & Hl1 & Hg1).
  set (m1 := MineBoard.clearBoard_ mines _) in *.
  set (n := rows * Board.colCount (Board.new rows opt_cols)) in *.
  assert (0 ≤ n) as Hn by (unfold n; nia).
  assert (mines_or_zero (Board.data_ (MineBoard.base m1)) n) as Hmz1.
  { intros i Hi. rewrite Hg1, decide_True by done. case_decide; auto. }
  destruct (shuffle_inv random (MineBoard.base m1) n Hn Hl1 Hmz1)
    as (Hr2 & Hc2 & Hl2 & Hmz2 & Hcnt2).
  set (m2 := MineBoard.with_base m1 _) in *.
  assert (laid (MineBoard.base m2)) as Hlaid.
  { intros q Hq. apply Hmz2.
    replace n with (Board.rowCount (MineBoard.base m2)
                    * Board.colCount (MineBoard.base m2)).
    - by apply index_in_range.
    - unfold n. cbn [m2 MineBoard.with_base MineBoard.base].
      by rewrite Hr2, Hc2, Hr1, Hc1. }
  destruct (countAdjacent_spec m2 Hlaid) as (_ & _ & Hmines & Hadj).
  split; [done|].
  unfold count_tiles at 1.
  rewrite (cells_dims _ (MineBoard.base m2)) by (simpl; congruence).
  rewrite (filter_ext_elem _ (holds (MineBoard.base m2) Tile.MINE)).
  2:{ intros q Hq%elem_of_cells. by apply Hmines. }
  fold (count_tiles (MineBoard.base m2) Tile.MINE).
  rewrite count_tiles_idx by (simpl; lia).
  replace (Board.rowCount (MineBoard.base m2) * Board.colCount (MineBoard.base m2))
    with n
    by (unfold n; cbn [m2 MineBoard.with_base MineBoard.base];
        by rewrite Hr2, Hc2, Hr1, Hc1).
  cbn [m2 MineBoard.with_base MineBoard.base]. rewrite Hcnt2.
  apply count_idx_cleared; [done|]. intros i Hi.
  by rewrite Hg1, decide_True.
Qed.

(** Whatever the size: a board without cells satisfies the invariant. *)
Lemma MineBoard_new_adjacency_ok random mines rows opt_cols :
  adjacency_ok (MineBoard.base (MineBoard.new random mines rows opt_cols)).
Proof.
  destruct (decide (0 ≤ rows ∧ 0 ≤ Board.colCount (Board.new rows opt_cols)))
    as [[Hr Hc]|Hneg].
  - by apply MineBoard_new_spec.
  - destruct (MineBoard_new_dims random mines rows opt_cols) as (Hr & Hc & _).
    unfold adjacency_ok, cells. rewrite Hr, Hc, box_empty by lia. constructor.
Qed.

(** C5. In a constructed solution every cell without a mine holds the
    number of its in-range neighbours that hold a mine. *)
Theorem MineBoard_new_adjacency :
  ∀ (random : nat → Rand) (mines rows : Z) (opt_cols : option Z),
    adjacency_ok (MineBoard.base (MineBoard.new random mines rows opt_cols)).
Proof.
  intros random mines rows opt_cols. apply MineBoard_new_adjacency_ok.
Qed.

(** C4 (as the code has it). For dimensions that are not negative, a
    constructed solution holds [min (max mineCount 0) (rowCount * colCount)]
    mines: none for a negative count, one in every cell for a count above
    the number of cells.  The constructor is a total function: there is no
    error to signal. *)
Theorem MineBoard_new_mines random mines rows opt_cols :
  0 ≤ rows → 0 ≤ default 0 opt_cols →
  count_tiles (MineBoard.base (MineBoard.new random mines rows opt_cols))
    Tile.MINE
  = Z.min (Z.max mines 0)
      (Board.rowCount (MineBoard.base (MineBoard.new random mines rows opt_cols))
       * Board.colCount (MineBoard.base (MineBoard.new random mines rows opt_cols)))
  ∧ (mines ≤ 0 →
     count_tiles (MineBoard.base (MineBoard.new random mines rows opt_cols))
       Tile.MINE = 0)
  ∧ (Board.rowCount (MineBoard.base (MineBoard.new random mines rows opt_cols))
     * Board.colCount (MineBoard.base (MineBoard.new random mines rows opt_cols))
     ≤ mines →
     Forall (holds (MineBoard.base (MineBoard.new random mines rows opt_cols))
               Tile.MINE)
       (cells (MineBoard.base (MineBoard.new random mines rows opt_cols)))).
Proof.
  intros Hrows Hcols.
  assert (0 ≤ Board.colCount (Board.new rows opt_cols)) as Hc.
  { simpl. destruct opt_cols as [c|]; simpl in *; [|done].
    destruct (Z.eqb_spec c 0); lia. }
  destruct (MineBoard_new_dims random mines rows opt_cols) as (Hr3 & Hc3 & _).
  destruct (MineBoard_new_spec random mines rows opt_cols Hrows Hc) as [_ Hcnt].
  rewrite Hr3, Hc3. split; [done|]. split.
  - intros Hm. rewrite Hcnt. nia.
  - intros Hm. set (b := MineBoard.base _) in *.
    assert (Z.of_nat (length (filter (holds b Tile.MINE) (cells b)))
            = Z.of_nat (length (cells b))) as Hlen.
    { fold (count_tiles b Tile.MINE). rewrite Hcnt, length_cells by lia.
      rewrite Hr3, Hc3. nia. }
    apply Forall_forall. intros p Hp.
    destruct (decide (holds b Tile.MINE p)) as [|Hnot]; [done|].
    pose proof (length_filter_lt (holds b Tile.MINE) (cells b) p Hp Hnot). lia.
Qed.

(** ** Reveal: termination *)

Lemma is_hidden_Some v : is_hidden (Some v) = Game.hidden v.
Proof. done. Qed.

Lemma is_hidden_true t :
  is_hidden t = true → ∃ v, t = Some v ∧ Game.hidden v = true.
Proof. destruct t as [v|]; [by exists v|done]. Qed.

Lemma hidden_size_store (m : gmap Z Z) i old v :
  m !! i = Some old → Game.hidden old = true →
  (size (filter (λ kv : Z * Z, Game.hidden kv.2 = true)
           (match v with Some x => <[i:=x]> m | None => delete i m end))
   ≤ size (filter (λ kv : Z * Z, Game.hidden kv.2 = true) m))%nat
  ∧ (is_hidden v = false →
     (size (filter (λ kv : Z * Z, Game.hidden kv.2 = true)
           (match v with Some x => <[i:=x]> m | None => delete i m end))
      < size (filter (λ kv : Z * Z, Game.hidden kv.2 = true) m))%nat).
Proof.
  intros Hi Hold.
  set (P := λ kv : Z * Z, Game.hidden kv.2 = true).
  assert (filter P m !! i = Some old) as Hfi
    by (by apply map_lookup_filter_Some_2).
  assert (size (filter P m) ≠ 0%nat) as Hne.
  { apply map_size_ne_0_lookup_2 with i. by eexists. }
  assert (size (filter P (delete i m)) = pred (size (filter P m))) as Hdel.
  { rewrite map_filter_delete. apply map_size_delete_Some. by eexists. }
  destruct v as [x|].
  - destruct (Game.hidden x) eqn:Hx.
    + rewrite map_filter_insert_True by done.
      rewrite map_size_insert_Some by (by eexists). split; [lia|].
      rewrite is_hidden_Some, Hx. done.
    + rewrite map_filter_insert_False by (unfold P; simpl; by rewrite Hx).
      rewrite Hdel. split; lia.
  - rewrite Hdel. split; lia.
Qed.

Lemma hiddenCount_setTile g r c v :
  is_hidden (UserBoard.getTile (Game.userBoard g) r c) = true →
  (Game.hiddenCount
     (Game.with_user g (UserBoard.setTile (Game.userBoard g) r c v))
   ≤ Game.hiddenCount g)%nat
  ∧ (is_hidden v = false →
     (Game.hiddenCount
        (Game.with_user g (UserBoard.setTile (Game.userBoard g) r c v))
      < Game.hiddenCount g)%nat).
Proof.
  intros (old & Hget & Hold)%is_hidden_true. unfold Game.hiddenCount.
  cbn [Game.with_user Game.userBoard]. rewrite UserBoard_setTile_base.
  cbn [Board.setTile Board.data_ arr_set elems].
  by apply (hidden_size_store _ _ old).
Qed.

Lemma visit_total {St : Type} (this : St → Board.t) (callback : Board.Callback)
    (I : St → Prop) (l : list cell) :
  (∀ p s, p ∈ l → I s →
     ∃ s' ret, callback p.1 p.2 (Board.getTile (this s) p.1 p.2) s
               = Some (s', ret)
               ∧ strict_false ret = false ∧ I s') →
  ∀ s, I s → ∃ s', visit this callback l s = Some (s', true) ∧ I s'.
Proof.
  induction l as [|[r c] l IH]; intros Hcb s Hs.
  - by exists s.
  - destruct (Hcb (r, c) s) as (s1 & ret & Hcall & Hret & Hs1);
      [apply elem_of_cons; by left|done|].
    cbn [visit]. cbn [fst snd] in Hcall. rewrite Hcall, Hret.
    apply IH; [|done]. intros p s' Hp. apply Hcb, elem_of_cons. by right.
Qed.

Lemma revealTile_fuel_total fuel :
  ∀ g row col,
    (Game.hiddenCount g < fuel)%nat →
    ∃ g' ret, Game.revealTile_fuel fuel row col g = Some (g', ret)
              ∧ strict_false ret = false
              ∧ (Game.hiddenCount g' ≤ Game.hiddenCount g)%nat.
Proof.
  induction fuel as [|fuel IH]; intros g row col Hfuel; [lia|].
  rewrite revealTile_fuel_S. cbv zeta.
  destruct (is_hidden (UserBoard.getTile (Game.userBoard g) row col)) eqn:Hh;
    cbn [negb].
  2:{ exists g, JUndefined. split; [done|]. split; [done|lia]. }
  destruct (hiddenCount_setTile g row col
              (MineBoard.getTile (Game.mineBoard g) row col) Hh) as [Hle Hlt].
  set (g1 := Game.with_user g _) in *.
  destruct (tile_eq (MineBoard.getTile (Game.mineBoard g) row col) Tile.MINE).
  { exists g1, (JError "mine revealed"). split; [done|]. split; [done|lia]. }
  destruct (tile_eq (MineBoard.getTile (Game.mineBoard g) row col) 0) eqn:H0.
  2:{ exists g1, JNull. split; [done|]. split; [done|lia]. }
  apply tile_eq_true in H0. rewrite H0 in Hlt. specialize (Hlt eq_refl).
  rewrite forEachBoundaryTile_visit.
  destruct (visit_total board_of (λ r c _ g, Game.revealTile_fuel fuel r c g)
              (λ s, (Game.hiddenCount s ≤ Game.hiddenCount g1)%nat)
              (neighbors (board_of g1) row col)) with (s := g1)
    as (g' & Hvisit & Hg'); [|done|].
  { intros p s _ Hs. destruct (IH s p.1 p.2) as (s' & ret & ? & ? & ?); [lia|].
    exists s', ret. split; [done|]. split; [done|lia]. }
  exists g', JNull. rewrite Hvisit. split; [done|]. split; [done|lia].
Qed.

(** The entry point has fuel enough: [revealTile] always returns. *)
Lemma revealTile_total row col g :
  ∃ g' ret, Game.revealTile row col g = Some (g', ret)
            ∧ strict_false ret = false.
Proof.
  destruct (revealTile_fuel_total (S (Game.hiddenCount g)) g row col)
    as (g' & ret & ? & ? & _); [lia|]. by exists g', ret.
Qed.

(** More fuel changes nothing: the result of [revealTile] is that of the
    recursion, whatever bound it is given beyond the number of hidden
    tiles. *)
Lemma visit_mono {St : Type} (this : St → Board.t)
    (cb1 cb2 : @Board.Callback St) (l : list cell) :
  (∀ r c tile s res, cb1 r c tile s = Some res → cb2 r c tile s = Some res) →
  ∀ s res, visit this cb1 l s = Some res → visit this cb2 l s = Some res.
Proof.
  intros Hcb. induction l as [|[r c] l IH]; intros s res Hv; [done|].
  cbn [visit] in *.
  destruct (cb1 r c _ s) as [[s1 ret]|] eqn:H1; [|done].
  rewrite (Hcb _ _ _ _ _ H1). destruct (strict_false ret); [done|].
  by apply IH.
Qed.

Lemma revealTile_fuel_mono n :
  ∀ m row col g res,
    (n ≤ m)%nat →
    Game.revealTile_fuel n row col g = Some res →
    Game.revealTile_fuel m row col g = Some res.
Proof.
  induction n as [|n IH]; intros m row col g res Hnm Hrun; [done|].
  destruct m as [|m]; [lia|].
  rewrite revealTile_fuel_S in *. cbv zeta in *.
  destruct (negb (is_hidden (UserBoard.getTile (Game.userBoard g) row col)));
    [done|].
  destruct (tile_eq (MineBoard.getTile (Game.mineBoard g) row col) Tile.MINE);
    [done|].
  destruct (tile_eq (MineBoard.getTile (Game.mineBoard g) row col) 0);
    [|done].
  rewrite forEachBoundaryTile_visit in *.
  destruct (visit _ (λ r c _ g0, Game.revealTile_fuel n r c g0) _ _)
    as [[g2 b]|] eqn:Hvisit; [|done].
  apply (visit_mono _ _ (λ r c _ g0, Game.revealTile_fuel m r c g0)) in Hvisit.
  - by rewrite Hvisit.
  - intros r c _ s res'. apply IH. lia.
Qed.

Lemma revealTile_fuel_enough fuel row col g :
  (Game.hiddenCount g < fuel)%nat →
  Game.revealTile_fuel fuel row col g = Game.revealTile row col g.
Proof.
  intros Hfuel. destruct (revealTile_total row col g) as (g' & ret & Hrun & _).
  rewrite Hrun. apply (revealTile_fuel_mono (S (Game.hiddenCount g))); [lia|].
  exact Hrun.
Qed.

(** ** Reveal: what it keeps and what it returns *)

Lemma kept_refl g : kept g g.
Proof. by repeat split. Qed.

Lemma kept_trans g1 g2 g3 : kept g1 g2 → kept g2 g3 → kept g1 g3.
Proof.
  intros (Hm & Hr & Hc & Hk) (Hm' & Hr' & Hc' & Hk').
  split; [congruence|]. split; [congruence|]. split; [congruence|].
  intros i Hi. rewrite <- (Hk i Hi). apply Hk'. by rewrite (Hk i Hi).
Qed.

Lemma kept_uncovered g row col :
  is_hidden (UserBoard.getTile (Game.userBoard g) row col) = true →
  kept g (uncovered g row col).
Proof.
  intros Hh. unfold kept, uncovered. cbn [Game.with_user Game.mineBoard
    Game.userBoard]. rewrite UserBoard_setTile_base.
  split; [done|]. split; [done|]. split; [done|].
  intros i Hi. cbn [Board.setTile Board.data_]. rewrite arr_get_set.
  case_decide as Heq; [|done]. subst i.
  unfold UserBoard.getTile, Board.getTile in Hh. congruence.
Qed.

Lemma kept_getTile g g' r c :
  kept g g' →
  is_hidden (UserBoard.getTile (Game.userBoard g) r c) = false →
  UserBoard.getTile (Game.userBoard g') r c
  = UserBoard.getTile (Game.userBoard g) r c.
Proof.
  intros (_ & _ & Hc & Hk) Hh. unfold UserBoard.getTile, Board.getTile in *.
  unfold Board.getIndex_ in *. rewrite Hc. by apply Hk.
Qed.

Lemma visit_partial {St : Type} (this : St → Board.t)
    (callback : Board.Callback) (I : St → Prop) (l : list cell) :
  (∀ p s s' ret, p ∈ l → I s →
     callback p.1 p.2 (Board.getTile (this s) p.1 p.2) s = Some (s', ret) →
     I s') →
  ∀ s s' b, I s → visit this callback l s = Some (s', b) → I s'.
Proof.
  induction l as [|[r c] l IH]; intros Hcb s s' b Hs Hv.
  - by injection Hv as <- _.
  - cbn [visit] in Hv.
    destruct (callback r c _ s) as [[s1 ret]|] eqn:Hcall; [|done].
    assert (I s1) as Hs1.
    { apply (Hcb (r, c) s s1 ret); [apply elem_of_cons; by left|done|done]. }
    destruct (strict_false ret).
    + by injection Hv as <- _.
    + apply (IH ltac:(intros p ?????; eapply Hcb; [apply elem_of_cons; by right|..]; done) s1 s' b Hs1 Hv).
Qed.

Lemma revealTile_fuel_kept fuel :
  ∀ g row col g' ret,
    Game.revealTile_fuel fuel row col g = Some (g', ret) → kept g g'.
Proof.
  induction fuel as [|fuel IH]; intros g row col g' ret Hrun; [done|].
  rewrite revealTile_fuel_S in Hrun. cbv zeta in Hrun.
  destruct (is_hidden (UserBoard.getTile (Game.userBoard g) row col)) eqn:Hh;
    cbn [negb] in Hrun.
  2:{ injection Hrun as <- _. apply kept_refl. }
  fold (uncovered g row col) in Hrun.
  pose proof (kept_uncovered g row col Hh) as Hk1.
  destruct (tile_eq (MineBoard.getTile (Game.mineBoard g) row col) Tile.MINE).
  { by injection Hrun as <- _. }
  destruct (tile_eq (MineBoard.getTile (Game.mineBoard g) row col) 0).
  2:{ by injection Hrun as <- _. }
  rewrite forEachBoundaryTile_visit in Hrun.
  destruct (visit _ _ _ _) as [[g2 b]|] eqn:Hvisit; [|done].
  injection Hrun as <- _.
  apply (visit_partial _ _ (kept g) _) in Hvisit; [done| |done].
  intros p s s' r' _ Hs Hcall. apply (kept_trans _ s); [done|].
  by apply (IH s p.1 p.2 s' r').
Qed.

(** The three ways [revealTile] returns. *)
Lemma revealTile_fuel_ret fuel g row col g' ret :
  Game.revealTile_fuel fuel row col g = Some (g', ret) →
  (ret = JUndefined ∧ g' = g ∧ is_hidden (user_at g (row, col)) = false)
  ∨ (ret = JError "mine revealed" ∧ g' = uncovered g row col
     ∧ is_hidden (user_at g (row, col)) = true
     ∧ tile_eq (mine_at g (row, col)) Tile.MINE = true)
  ∨ (ret = JNull ∧ is_hidden (user_at g (row, col)) = true
     ∧ tile_eq (mine_at g (row, col)) Tile.MINE = false).
Proof.
  destruct fuel as [|fuel]; [done|]. rewrite revealTile_fuel_S. cbv zeta.
  unfold user_at, mine_at. cbn [fst snd].
  destruct (is_hidden (UserBoard.getTile (Game.userBoard g) row col));
    cbn [negb].
  2:{ intros [= <- <-]. by left. }
  destruct (tile_eq (MineBoard.getTile (Game.mineBoard g) row col) Tile.MINE).
  { intros [= <- <-]. right; left. done. }
  destruct (tile_eq (MineBoard.getTile (Game.mineBoard g) row col) 0).
  2:{ intros [= <- <-]. right; right. done. }
  destruct (Board.forEachBoundaryTile _ _ _ _ _) as [[g2 b]|]; [|done].
  intros [= <- <-]. right; right. done.
Qed.

Lemma revealTile_error_iff fuel g row col g' ret :
  Game.revealTile_fuel fuel row col g = Some (g', ret) →
  (is_error ret = true ↔
     is_hidden (user_at g (row, col)) = true
     ∧ mine_at g (row, col) = Some Tile.MINE)
  ∧ loose_null ret = negb (is_error ret)
  ∧ strict_false ret = false.
Proof.
  intros [(-> & _ & Hh)|[(-> & _ & Hh & Hm)|(-> & Hh & Hm)]]%revealTile_fuel_ret.
  - repeat split; try done. intros [Hh' _]. congruence.
  - repeat split; try done. by apply tile_eq_true.
  - repeat split; try done. intros [_ Hm']. rewrite Hm' in Hm. done.
Qed.

(** ** The cascade *)

Lemma board_of_uncovered g row col : board_of (uncovered g row col) = board_of g.
Proof. done. Qed.

(** C6 (as the code has it). No reveal ever returns the boolean [false]:
    it returns an [Error] exactly when its own cell is hidden and holds a
    mine.  So the cascade of a reveal at a hidden 0 is never cut short: it
    calls reveal on every neighbour in order, whatever these calls return,
    and the outer reveal returns [null]. *)
Theorem reveal_cascade_never_stops g row col :
  is_hidden (user_at g (row, col)) = true →
  mine_at g (row, col) = Some 0 →
  (∃ g', Game.revealTile row col g = Some (g', JNull)
         ∧ Run board_of
             (λ r c _ s, Game.revealTile_fuel (Game.hiddenCount g) r c s)
             (neighbors (board_of g) row col) (uncovered g row col) g' true)
  ∧ (∀ fuel r c s s' ret,
       Game.revealTile_fuel fuel r c s = Some (s', ret) →
       ret ≠ JBool false
       ∧ (is_error ret = true ↔
            is_hidden (user_at s (r, c)) = true
            ∧ mine_at s (r, c) = Some Tile.MINE)).
Proof.
  intros Hh Hm. split.
  - unfold user_at, mine_at in Hh, Hm. cbn [fst snd] in Hh, Hm.
    destruct (visit_total board_of
                (λ r c _ s, Game.revealTile_fuel (Game.hiddenCount g) r c s)
                (λ s, Game.hiddenCount s < Game.hiddenCount g)%nat
                (neighbors (board_of g) row col)) with (s := uncovered g row col)
      as (g3 & Hvisit3 & _).
    + intros p s _ Hs.
      destruct (revealTile_fuel_total (Game.hiddenCount g) s p.1 p.2 Hs)
        as (s' & ret & ? & ? & ?).
      exists s', ret. split; [done|]. split; [done|lia].
    + destruct (hiddenCount_setTile g row col
                  (MineBoard.getTile (Game.mineBoard g) row col) Hh) as [_ Hlt].
      apply Hlt. by rewrite Hm.
    + exists g3. split; [|by apply visit_Run].
      unfold Game.revealTile. rewrite revealTile_fuel_S. cbv zeta.
      rewrite Hh. cbn [negb]. fold (uncovered g row col).
      rewrite Hm. cbn [tile_eq]. change (0 =? Tile.MINE) with false.
      change (0 =? 0) with true. cbv iota.
      rewrite forEachBoundaryTile_visit, board_of_uncovered, Hvisit3. done.
  - intros fuel r c s s' ret Hrun.
    destruct (revealTile_error_iff _ _ _ _ _ _ Hrun) as (Herr & _ & Hsf).
    split; [|done]. by intros ->.
Qed.

(** On the hand-made board a reveal at the 0 in the middle reaches the mine
    on its left: the nested reveal returns an [Error], the iteration goes
    on to the cell on the right, and the outer reveal returns [null]. *)
Lemma cascade_over_mine_returns_null :
  match Game.revealTile 0 1 miscounted_game with
  | Some (g', ret) =>
      ret = JNull
      ∧ user_at g' (0, 0) = Some Tile.MINE
      ∧ user_at g' (0, 2) = Some 0
  | None => False
  end
  ∧ match Game.revealTile_fuel 3 0 0 (uncovered miscounted_game 0 1) with
    | Some (_, ret) => ret = JError "mine revealed"
    | None => False
    end.
Proof. vm_compute. repeat split. Qed.

(** ** The chord *)

Lemma flags_fold l g n :
  foldl (call (λ s : Game.t * Z, UserBoard.base (Game.userBoard s.1))
           (λ (r c : Z) (tile : option Z) '(g, adjacentFlags),
              if tile_eq tile Tile.FLAG
              then ((g, adjacentFlags + 1), JUndefined)
              else ((g, adjacentFlags), JUndefined)))
    (g, n) l
  = (g, n + Z.of_nat (length (filter (λ p, user_at g p = Some Tile.FLAG) l))).
Proof.
  revert n. induction l as [|p l IH]; intros n.
  - simpl. f_equal. lia.
  - cbn [foldl]. unfold call at 2. cbn [fst snd]. rewrite filter_cons.
    fold (UserBoard.getTile (Game.userBoard g) p.1 p.2).
    fold (user_at g p).
    destruct (tile_eq (user_at g p) Tile.FLAG) eqn:Hf.
    + cbn [fst]. rewrite IH. apply tile_eq_true in Hf.
      rewrite decide_True by done. f_equal. simpl length. lia.
    + cbn [fst]. rewrite IH. rewrite decide_False; [done|].
      intros Hp. rewrite Hp in Hf. done.
Qed.

Lemma adjacentFlags_count g row col :
  (final (g, 0)
     (Board.forEachBoundaryTile
        (λ s : Game.t * Z, UserBoard.base (Game.userBoard s.1)) row col
        (returns (λ (r c : Z) (tile : option Z) '(g, adjacentFlags),
           if tile_eq tile Tile.FLAG
           then ((g, adjacentFlags + 1), JUndefined)
           else ((g, adjacentFlags), JUndefined)))
        (g, 0))).2
  = flags_around g row col.
Proof.
  rewrite forEachBoundaryTile_returns.
  - by rewrite flags_fold.
  - intros r c tile [g' n]. by destruct (tile_eq tile Tile.FLAG).
Qed.

Lemma revealTile_kept row col g g' ret :
  Game.revealTile row col g = Some (g', ret) → kept g g'.
Proof. apply revealTile_fuel_kept. Qed.

Lemma Chord_kept l g g' ok : Chord l g g' ok → kept g g'.
Proof.
  induction 1 as [g|p l g g' ok _ _ IH|p l g g1 ret g' ok _ Hrun _ _ IH
                 |p l g g1 ret _ Hrun _].
  - apply kept_refl.
  - done.
  - apply (kept_trans _ g1); [|done]. by apply revealTile_kept in Hrun.
  - by apply revealTile_kept in Hrun.
Qed.

Lemma chord_visit l :
  ∀ g, ∃ g' ok,
    visit (λ g, UserBoard.base (Game.userBoard g))
      (λ r c userTile g,
         if tile_eq userTile Tile.UNKNOWN then
           match Game.revealTile r c g with
           | None => None
           | Some (g', ret) => Some (g', JBool (loose_null ret))
           end
         else Some (g, JUndefined))
      l g = Some (g', ok)
    ∧ Chord l g g' ok.
Proof.
  induction l as [|[r c] l IH]; intros g.
  - exists g, true. split; [done|constructor].
  - cbn [visit].
    fold (UserBoard.getTile (Game.userBoard g) r c).
    change (UserBoard.getTile (Game.userBoard g) r c) with (user_at g (r, c)).
    destruct (tile_eq (user_at g (r, c)) Tile.UNKNOWN) eqn:Hu.
    + apply tile_eq_true in Hu.
      destruct (revealTile_total r c g) as (g1 & ret & Hrun & _).
      rewrite Hrun.
      destruct (revealTile_error_iff _ _ _ _ _ _ Hrun) as (_ & Hln & _).
      rewrite Hln. destruct (is_error ret) eqn:Herr; cbn [negb strict_false].
      * exists g1, false. split; [done|]. by apply (Chord_hit _ _ _ _ ret).
      * destruct (IH g1) as (g' & ok & Hv & Hc). exists g', ok.
        split; [done|]. by apply (Chord_reveal _ _ _ g1 ret).
    + cbn [strict_false]. destruct (IH g) as (g' & ok & Hv & Hc).
      exists g', ok. split; [done|]. apply Chord_skip; [|done].
      intros Hp. rewrite Hp in Hu. done.
Qed.

(** The two cases of the chord. *)
Lemma revealUnknownAdjacent_cases :
  ∀ (g : Game.t) (row col : Z),
    ((∃ v, user_at g (row, col) = Some v
           ∧ (v < 0 ∨ flags_around g row col < v)) →
     Game.revealUnknownAdjacent row col g = Some (g, JNull))
    ∧ (¬ (∃ v, user_at g (row, col) = Some v
               ∧ (v < 0 ∨ flags_around g row col < v)) →
       ∃ (g' : Game.t) (ok : bool),
         Game.revealUnknownAdjacent row col g
         = Some (g', if ok then JNull else JError "adajcent mine revealed")
         ∧ Chord (neighbors (UserBoard.base (Game.userBoard g)) row col)
             g g' ok
         ∧ kept g g').
Proof.
  intros g row col. unfold Game.revealUnknownAdjacent.
  rewrite adjacentFlags_count.
  change (UserBoard.getTile (Game.userBoard g) row col)
    with (user_at g (row, col)).
  split.
  - intros (v & Hv & Hcond). rewrite Hv. cbn [tile_lt tile_gt].
    destruct (Z.ltb_spec v 0); [done|].
    destruct (Z.ltb_spec (flags_around g row col) v); [done|lia].
  - intros Hnot.
    assert (tile_lt (user_at g (row, col)) 0 = false
            ∧ tile_gt (user_at g (row, col)) (flags_around g row col) = false)
      as [Hlt Hgt].
    { destruct (user_at g (row, col)) as [v|]; [|done]. cbn [tile_lt tile_gt].
      destruct (Z.ltb_spec v 0).
      { exfalso. apply Hnot. exists v. split; [done|lia]. }
      destruct (Z.ltb_spec (flags_around g row col) v); [|done].
      exfalso. apply Hnot. exists v. split; [done|lia]. }
    rewrite Hlt, Hgt, forEachBoundaryTile_visit.
    destruct (chord_visit (neighbors (UserBoard.base (Game.userBoard g)) row col) g)
      as (g' & ok & Hv & Hc).
    rewrite Hv. exists g', ok. split; [by destruct ok|].
    split; [done|]. by apply Chord_kept in Hc.
Qed.

(** C7. The chord does nothing and returns [null] when the cell holds a
    negative number or a number above that of the flags around it.
    Otherwise it goes through the neighbours in row-major order, reveals
    those that are [UNKNOWN] when their turn comes, and stops at the first
    of these reveals that hits a mine: it returns an [Error] exactly then,
    the neighbours after the mine are not looked at, and what was revealed
    before stays revealed. *)
Theorem revealUnknownAdjacent_spec :
  ∀ (g : Game.t) (row col : Z),
    ((∃ v, user_at g (row, col) = Some v
           ∧ (v < 0 ∨ flags_around g row col < v)) →
     Game.revealUnknownAdjacent row col g = Some (g, JNull))
    ∧ (¬ (∃ v, user_at g (row, col) = Some v
               ∧ (v < 0 ∨ flags_around g row col < v)) →
       ∃ (g' : Game.t) (ok : bool),
         Game.revealUnknownAdjacent row col g
         = Some (g', if ok then JNull else JError "adajcent mine revealed")
         ∧ Chord (neighbors (UserBoard.base (Game.userBoard g)) row col)
             g g' ok
         ∧ kept g g').
Proof. apply revealUnknownAdjacent_cases. Qed.

(** ** Regions of zeros *)

Lemma zero_region_inv b p z :
  zero_region b p z →
  in_range b p ∧ holds b 0 p ∧ in_range b z ∧ holds b 0 z.
Proof. induction 1 as [|q q' _ (? & ? & _ & _)]; done. Qed.

Lemma zero_region_trans b p n z :
  zero_region b p n → zero_region b n z → zero_region b p z.
Proof.
  intros Hpn. induction 1 as [|q q' _ IH Hadj Hr Hz]; [done|].
  by apply (zero_step _ _ q).
Qed.

Lemma touched_neighbor b p n q :
  in_range b p → holds b 0 p → adjacent p n → in_range b n →
  touched b n q → touched b p q.
Proof.
  intros Hp Hz Hadj Hn [->|(z & Hreg & Hzq & Hq)].
  - right. exists p. split; [by apply zero_start|done].
  - right. exists z. split; [|done].
    destruct (zero_region_inv _ _ _ Hreg) as (_ & Hnz & _).
    apply (zero_region_trans _ _ n); [|done].
    apply (zero_step _ _ p); [by apply zero_start|done..].
Qed.

Lemma adjacency_ok_cell b p :
  adjacency_ok b → in_range b p →
  holds b Tile.MINE p ∨ holds b (mine_neighbors b p) p.
Proof.
  intros Hok Hp. unfold adjacency_ok in Hok. rewrite Forall_forall in Hok.
  destruct (decide (holds b Tile.MINE p)); [by left|right].
  apply Hok; [by apply elem_of_cells|done].
Qed.

Lemma mine_neighbors_nonneg b p : 0 ≤ mine_neighbors b p.
Proof. unfold mine_neighbors. lia. Qed.

Lemma adjacency_ok_shown b p :
  adjacency_ok b → in_range b p →
  is_Some (Board.getTile b p.1 p.2) ∧ is_hidden (Board.getTile b p.1 p.2) = false.
Proof.
  intros Hok Hp. destruct (adjacency_ok_cell b p Hok Hp) as [Hm|Hn];
    unfold holds in *.
  - rewrite Hm. split; [by eexists|done].
  - rewrite Hn. split; [by eexists|].
    pose proof (mine_neighbors_nonneg b p). unfold is_hidden. cbn [tile_eq].
    apply orb_false_iff. split; apply Z.eqb_neq; unfold Tile.UNKNOWN, Tile.FLAG; lia.
Qed.

(** Next to a 0 of a solution there is no mine. *)
Lemma zero_no_mine_neighbor b z n :
  adjacency_ok b → in_range b z → holds b 0 z →
  n ∈ neighbors b z.1 z.2 → ¬ holds b Tile.MINE n.
Proof.
  intros Hok Hz H0 Hn.
  destruct (adjacency_ok_cell b z Hok Hz) as [Hm|Hc]; unfold holds in *.
  { rewrite H0 in Hm. discriminate Hm. }
  rewrite H0 in Hc. injection Hc as Hc. unfold mine_neighbors in Hc.
  destruct (filter _ _) as [|x l] eqn:Hf; [|simpl in Hc; lia].
  intros Hm. by apply (filter_nil_not_elem_of _ _ n Hf).
Qed.

Lemma touched_opened b p q :
  adjacency_ok b → in_range b p → holds b 0 p →
  touched b p q ↔ opened b p q.
Proof.
  intros Hok Hp H0. split.
  - intros [->|(z & Hreg & Hadj & Hq)].
    + left. by apply zero_start.
    + destruct (decide (holds b 0 q)) as [Hq0|Hq0].
      * left. by apply (zero_step _ _ z).
      * right. exists z. split; [done|]. split; [done|]. split; [done|].
        split; [done|].
        destruct (zero_region_inv _ _ _ Hreg) as (_ & _ & Hzr & Hz0).
        apply (zero_no_mine_neighbor b z); [done..|].
        apply elem_of_neighbors. split; [|done]. by destruct z.
  - intros [Hreg|(z & Hreg & Hadj & Hq & _)].
    + destruct Hreg as [|z q Hreg Hadj Hq _]; [by left|].
      right. by exists z.
    + right. by exists z.
Qed.

(** ** A visit with an invariant and a lasting effect on each cell *)

Lemma visit_post {St : Type} (this : St → Board.t) (callback : Board.Callback)
    (I : St → Prop) (Q : cell → St → Prop) (l : list cell) :
  (∀ p s s' ret, p ∈ l → I s →
     callback p.1 p.2 (Board.getTile (this s) p.1 p.2) s = Some (s', ret) →
     strict_false ret = false ∧ I s' ∧ Q p s' ∧ (∀ q, Q q s → Q q s')) →
  ∀ s s' b, I s → visit this callback l s = Some (s', b) →
            I s' ∧ (∀ p, p ∈ l → Q p s') ∧ (∀ q, Q q s → Q q s').
Proof.
  induction l as [|[r c] l IH]; intros Hcb s s' b Hs Hv.
  - injection Hv as <- _. split; [done|]. split; [|done].
    intros p Hp. by apply elem_of_nil in Hp.
  - cbn [visit] in Hv.
    destruct (callback r c _ s) as [[s1 ret]|] eqn:Hcall; [|done].
    destruct (Hcb (r, c) s s1 ret) as (Hret & Hs1 & HQ1 & Hstable);
      [apply elem_of_cons; by left|done|done|].
    rewrite Hret in Hv.
    destruct (IH ltac:(intros p ?????; eapply Hcb;
                [apply elem_of_cons; by right|..]; done) s1 s' b Hs1 Hv)
      as (Hs' & HQ & Hstable').
    split; [done|]. split.
    + intros p [->|Hp]%elem_of_cons; [by apply Hstable'|by apply HQ].
    + intros q Hq. by apply Hstable', Hstable.
Qed.

(** ** Reveal: what it changes *)

Lemma consistent_in_range g q :
  consistent g →
  in_range (UserBoard.base (Game.userBoard g)) q ↔ in_range (board_of g) q.
Proof. intros (Hr & Hc & _). by apply in_range_dims. Qed.

Lemma user_at_uncovered g r c q :
  consistent g → in_range (board_of g) (r, c) → in_range (board_of g) q →
  user_at (uncovered g r c) q
  = if decide ((r, c) = q) then mine_at g (r, c) else user_at g q.
Proof.
  intros Hg Hp Hq. unfold user_at, uncovered, UserBoard.getTile.
  cbn [Game.with_user Game.userBoard]. rewrite UserBoard_setTile_base.
  apply (getTile_setTile _ (r, c) q); by apply consistent_in_range.
Qed.

Lemma mine_at_shown g p :
  consistent g → in_range (board_of g) p →
  is_Some (mine_at g p) ∧ is_hidden (mine_at g p) = false.
Proof. intros (_ & _ & Hok & _) Hp. by apply adjacency_ok_shown. Qed.

Lemma revealed_from_consistent opening g p g' :
  consistent g → revealed_from opening g p g' → consistent g'.
Proof.
  intros (Hr & Hc & Hok & Hshow) (Hm & Hr' & Hc' & Hframe & _).
  unfold consistent, board_of, mine_at in *. rewrite Hm.
  split; [congruence|]. split; [congruence|]. split; [done|].
  intros q Hq. destruct (Hframe q Hq) as [->|(_ & -> & _)]; [by apply Hshow|].
  by right.
Qed.

Lemma revealed_from_keeps opening g p g' q :
  revealed_from opening g p g' → in_range (board_of g) q →
  is_hidden (user_at g q) = false → user_at g' q = user_at g q.
Proof.
  intros (_ & _ & _ & Hframe & _) Hq Hh.
  destruct (Hframe q Hq) as [|(Hh' & _)]; [done|congruence].
Qed.

Lemma revealed_from_refl g p :
  is_hidden (user_at g p) = false → revealed_from [] g p g.
Proof.
  intros Hh. repeat split; try done. intros q _. by left.
Qed.

Lemma uncovered_from opening g r c :
  consistent g → in_range (board_of g) (r, c) →
  is_hidden (user_at g (r, c)) = true →
  (mine_at g (r, c) = Some 0 → (r, c) ∈ opening) →
  revealed_from opening g (r, c) (uncovered g r c).
Proof.
  intros Hg Hp Hh Hopen.
  destruct (mine_at_shown g (r, c) Hg Hp) as [[v Hv] Hmh].
  split; [done|].
  split; [unfold uncovered; cbn [Game.with_user Game.userBoard];
          by rewrite UserBoard_setTile_base|].
  split; [unfold uncovered; cbn [Game.with_user Game.userBoard];
          by rewrite UserBoard_setTile_base|].
  split; [|split; [|split]].
  - intros q Hq. rewrite user_at_uncovered by done.
    case_decide as Heq; [|by left]. subst q. right.
    split; [done|]. split; [done|]. by left.
  - rewrite user_at_uncovered by done. by rewrite decide_True.
  - intros pending Hclosed q Hq Hnot Hq0 n Hn.
    change (board_of (uncovered g r c)) with (board_of g) in *.
    rewrite user_at_uncovered in Hq0 by done.
    assert (in_range (board_of g) n) as Hnr
      by (by apply elem_of_neighbors in Hn as [_ ?]).
    rewrite user_at_uncovered by done.
    case_decide as Heq.
    { subst q. exfalso. apply Hnot, elem_of_app. left. by apply Hopen. }
    case_decide; [done|].
    apply (Hclosed q Hq); [|done|done].
    intros Hin. apply Hnot, elem_of_app. by right.
  - intros rows opt_cols Hw. unfold uncovered.
    cbn [Game.with_user Game.userBoard].
    unfold mine_at in Hv. cbn [fst snd] in Hv. rewrite Hv.
    apply written_setTile; [done|]. by apply consistent_in_range.
Qed.

Lemma revealed_from_step g p s n s' :
  consistent g → in_range (board_of g) p → holds (board_of g) 0 p →
  revealed_from [p] g p s →
  n ∈ neighbors (board_of g) p.1 p.2 →
  revealed_from [] s n s' →
  revealed_from [p] g p s'.
Proof.
  intros Hg Hp H0 Hs Hn Hs'.
  pose proof (revealed_from_consistent _ _ _ _ Hg Hs) as Hcs.
  destruct Hs as (Hm & Hr & Hc & Hframe & Hshown & Hclosed & Hw).
  assert (board_of s = board_of g) as Hb by (unfold board_of; by rewrite Hm).
  assert (∀ q, mine_at s q = mine_at g q) as Hma
    by (intros q; unfold mine_at; by rewrite Hm).
  apply elem_of_neighbors in Hn as [Hadj Hnr].
  replace (p.1, p.2) with p in Hadj by by destruct p.
  pose proof Hs' as (Hm' & Hr' & Hc' & Hframe' & Hshown' & Hclosed' & Hw').
  rewrite Hb in Hframe'.
  split; [congruence|]. split; [congruence|]. split; [congruence|].
  split; [|split; [|split]].
  - intros q Hq.
    destruct (Hframe' q Hq) as [Hsame|(Hh & Hval & Htouch)].
    + rewrite Hsame. by apply Hframe.
    + destruct (Hframe q Hq) as [Hsame|(Hh0 & Hval0 & Htouch0)].
      * right. rewrite <- Hsame. split; [done|]. rewrite Hval, Hma.
        split; [done|]. by apply (touched_neighbor _ _ n).
      * right. split; [done|]. rewrite Hval, Hma. done.
  - rewrite (revealed_from_keeps _ _ _ _ p Hs'); [done|by rewrite Hb|done].
  - intros pending Hpend. apply (Hclosed' (p :: pending)).
    by apply Hclosed.
  - intros rows opt_cols Hwg. by apply Hw', Hw.
Qed.

Lemma revealed_from_close g p g' :
  revealed_from [p] g p g' →
  (∀ n, n ∈ neighbors (board_of g) p.1 p.2 → is_hidden (user_at g' n) = false) →
  revealed_from [] g p g'.
Proof.
  intros (Hm & Hr & Hc & Hframe & Hshown & Hclosed & Hw) Hnb.
  assert (board_of g' = board_of g) as Hb by (unfold board_of; by rewrite Hm).
  repeat (split; [done|]). split; [|done].
  intros pending Hpend q Hq Hnot Hq0 n Hn. cbn [app] in Hnot.
  rewrite Hb in Hq, Hn.
  destruct (decide (q = p)) as [->|Hne]; [by apply Hnb|].
  apply (Hclosed pending Hpend q); [by rewrite Hb| |done|by rewrite Hb].
  cbn [app]. intros [->|?]%elem_of_cons; done.
Qed.

Lemma revealTile_fuel_correct fuel :
  ∀ g row col g' ret,
    consistent g → in_range (board_of g) (row, col) →
    Game.revealTile_fuel fuel row col g = Some (g', ret) →
    revealed_from [] g (row, col) g'.
Proof.
  induction fuel as [|fuel IH]; intros g row col g' ret Hg Hp Hrun; [done|].
  rewrite revealTile_fuel_S in Hrun. cbv zeta in Hrun.
  change (UserBoard.getTile (Game.userBoard g) row col)
    with (user_at g (row, col)) in Hrun.
  change (MineBoard.getTile (Game.mineBoard g) row col)
    with (mine_at g (row, col)) in Hrun.
  destruct (is_hidden (user_at g (row, col))) eqn:Hh; cbn [negb] in Hrun.
  2:{ injection Hrun as <- _. by apply revealed_from_refl. }
  fold (uncovered g row col) in Hrun.
  destruct (tile_eq (mine_at g (row, col)) Tile.MINE) eqn:Hmine.
  { injection Hrun as <- _. apply uncovered_from; try done.
    intros H0. rewrite H0 in Hmine. done. }
  destruct (tile_eq (mine_at g (row, col)) 0) eqn:Hzero.
  2:{ injection Hrun as <- _. apply uncovered_from; try done.
      intros H0. rewrite H0 in Hzero. done. }
  apply tile_eq_true in Hzero.
  rewrite forEachBoundaryTile_visit in Hrun.
  destruct (visit _ _ _ _) as [[g2 b]|] eqn:Hvisit; [|done].
  injection Hrun as <- _.
  change (board_of (uncovered g row col)) with (board_of g) in Hvisit.
  apply (visit_post _ _
           (λ s, revealed_from [(row, col)] g (row, col) s)
           (λ n s, in_range (board_of g) n → is_hidden (user_at s n) = false))
    in Hvisit.
  - destruct Hvisit as (Hfrom & Hnb & _).
    apply revealed_from_close; [done|].
    intros n Hn. apply Hnb; [done|].
    by apply elem_of_neighbors in Hn as [_ ?].
  - intros n s s' r' Hn Hs Hcall.
    pose proof (revealed_from_consistent _ _ _ _ Hg Hs) as Hcs.
    assert (board_of s = board_of g) as Hb.
    { destruct Hs as (Hm & _). unfold board_of. by rewrite Hm. }
    assert (in_range (board_of s) (n.1, n.2)) as Hnr.
    { rewrite Hb. apply elem_of_neighbors in Hn as [_ ?]. by destruct n. }
    pose proof (IH s n.1 n.2 s' r' Hcs Hnr Hcall) as Hs'.
    replace (n.1, n.2) with n in Hs' by by destruct n.
    split; [|split; [|split]].
    + by destruct (revealTile_error_iff _ _ _ _ _ _ Hcall) as (_ & _ & ?).
    + by apply (revealed_from_step g (row, col) s n s').
    + intros _. by destruct Hs' as (_ & _ & _ & _ & ? & _).
    + intros q Hq Hqr. rewrite (revealed_from_keeps _ _ _ _ q Hs');
        [by apply Hq|by rewrite Hb|by apply Hq].
  - apply uncovered_from; try done. intros _. apply elem_of_cons. by left.
Qed.

(** ** Well-formed games *)

Lemma game_wf_iff g : game_wf g ↔ consistent g ∧ closed_except [] g.
Proof.
  split.
  - intros [Hr Hc Hm Hs Hcl]. rewrite Forall_forall in Hs, Hcl.
    split.
    + split; [done|]. split; [done|]. split; [done|].
      intros p Hp. by apply Hs, elem_of_cells.
    + intros q Hq _ Hq0 n Hn.
      specialize (Hcl q ltac:(by apply elem_of_cells) Hq0).
      rewrite Forall_forall in Hcl. by apply Hcl.
  - intros [(Hr & Hc & Hm & Hs) Hcl]. split; try done.
    + apply Forall_forall. intros p Hp. by apply Hs, elem_of_cells.
    + apply Forall_forall. intros q Hq Hq0. apply Forall_forall. intros n Hn.
      apply (Hcl q); [by apply elem_of_cells|apply not_elem_of_nil|done|done].
Qed.

Lemma revealTile_wf g row col g' ret :
  game_wf g → in_range (board_of g) (row, col) →
  Game.revealTile row col g = Some (g', ret) →
  game_wf g'
  ∧ Game.mineBoard g' = Game.mineBoard g
  ∧ (∀ rows opt_cols, written rows opt_cols (Game.userBoard g) →
                      written rows opt_cols (Game.userBoard g')).
Proof.
  intros [Hg Hcl]%game_wf_iff Hp Hrun.
  pose proof (revealTile_fuel_correct _ _ _ _ _ _ Hg Hp Hrun) as Hfrom.
  pose proof (revealed_from_consistent _ _ _ _ Hg Hfrom) as Hg'.
  destruct Hfrom as (Hm & _ & _ & _ & _ & Hclosed & Hw).
  split; [|done]. apply game_wf_iff. split; [done|]. by apply (Hclosed []).
Qed.

(** ** The flood fill *)

(** In a well-formed game the region of a revealed 0, and the cells next to
    it, show the solution. *)
Lemma region_shows g p :
  consistent g → closed_except [] g →
  user_at g p = Some 0 →
  ∀ z, zero_region (board_of g) p z →
       user_at g z = Some 0
       ∧ ∀ q, adjacent z q → in_range (board_of g) q →
              user_at g q = mine_at g q.
Proof.
  intros Hg Hcl Hp.
  assert (∀ z, in_range (board_of g) z → user_at g z = Some 0 →
            ∀ q, adjacent z q → in_range (board_of g) q →
                 user_at g q = mine_at g q) as Hnext.
  { intros z Hz Hz0 q Hadj Hq.
    assert (is_hidden (user_at g q) = false) as Hh.
    { apply (Hcl z Hz); [apply not_elem_of_nil|done|].
      apply elem_of_neighbors. split; [|done]. by destruct z. }
    destruct Hg as (_ & _ & _ & Hs).
    destruct (Hs q Hq) as [Hh'|]; [congruence|done]. }
  induction 1 as [Hpr _|z z' Hreg [IH _] Hadj Hr Hz'].
  - split; [done|]. by apply Hnext.
  - destruct (zero_region_inv _ _ _ Hreg) as (_ & _ & Hzr & _).
    assert (user_at g z' = Some 0) as Hz'0.
    { rewrite (Hnext z Hzr IH z' Hadj Hr). exact Hz'. }
    split; [done|]. by apply Hnext.
Qed.

(** C1. In a well-formed game (the solution satisfies the adjacency
    invariant and the user board is one that play produces), a reveal at a
    cell whose solution is 0 returns without error; afterwards the cells of
    the connected region of zeros of that cell and the cells next to the
    region that hold neither 0 nor a mine show the solution, and every
    other cell of the user board is as it was. *)
Theorem revealTile_opens_region g row col :
  game_wf g → in_range (board_of g) (row, col) →
  mine_at g (row, col) = Some 0 →
  ∃ g' ret,
    Game.revealTile row col g = Some (g', ret)
    ∧ is_error ret = false
    ∧ Game.mineBoard g' = Game.mineBoard g
    ∧ ∀ q, in_range (board_of g) q →
        (opened (board_of g) (row, col) q → user_at g' q = mine_at g q)
        ∧ (¬ opened (board_of g) (row, col) q → user_at g' q = user_at g q).
Proof.
  intros Hwf Hp H0.
  destruct (revealTile_total row col g) as (g' & ret & Hrun & _).
  exists g', ret. split; [done|].
  pose proof Hwf as [Hg Hcl]%game_wf_iff.
  pose proof (revealTile_fuel_correct _ _ _ _ _ _ Hg Hp Hrun) as Hfrom.
  pose proof (revealed_from_consistent _ _ _ _ Hg Hfrom) as Hg'.
  pose proof Hfrom as (Hm & _ & _ & Hframe & Hshown & Hclosed & _).
  assert (board_of g' = board_of g) as Hb by (unfold board_of; by rewrite Hm).
  assert (∀ q, mine_at g' q = mine_at g q) as Hma
    by (intros q; unfold mine_at; by rewrite Hm).
  split.
  { destruct (revealTile_error_iff _ _ _ _ _ _ Hrun) as (Herr & _).
    destruct (is_error ret); [|done].
    destruct Herr as [Herr _]. destruct (Herr eq_refl) as [_ Hmine].
    rewrite Hmine in H0. discriminate H0. }
  split; [done|].
  assert (user_at g' (row, col) = Some 0) as Hp0.
  { destruct Hg' as (_ & _ & _ & Hs).
    destruct (Hs (row, col)) as [Hh|Heq]; [by rewrite Hb|congruence|].
    by rewrite Heq, Hma. }
  pose proof (region_shows g' (row, col) Hg' (Hclosed [] Hcl) Hp0) as Hregion.
  rewrite Hb in Hregion.
  intros q Hq. split.
  - intros [Hreg|(z & Hreg & Hadj & _)].
    + destruct (Hregion q Hreg) as [Hq0 _]. rewrite Hq0.
      destruct (zero_region_inv _ _ _ Hreg) as (_ & _ & _ & Hz). by rewrite Hz.
    + destruct (Hregion z Hreg) as [_ Hnext]. rewrite Hnext by done. apply Hma.
  - intros Hnot. destruct (Hframe q Hq) as [|(_ & _ & Htouch)]; [done|].
    exfalso. apply Hnot. apply touched_opened; try done.
    by destruct Hg as (_ & _ & ? & _).
Qed.

(** ** Games reached by play *)

Lemma UserBoard_new_tiles rows opt_cols q :
  in_range (UserBoard.base (UserBoard.new rows opt_cols)) q →
  UserBoard.getTile (UserBoard.new rows opt_cols) q.1 q.2 = Some Tile.UNKNOWN.
Proof.
  unfold UserBoard.new. rewrite initBoard_fold.
  set (u0 := {| UserBoard.base := Board.new rows opt_cols;
                UserBoard.flagCount := 0; UserBoard.unknownCount := 0 |}).
  destruct (fold_unknown (cells (UserBoard.base u0)) u0) as (Hr & Hc & _ & Hget).
  { intros p Hp. by apply elem_of_cells. }
  intros Hq.
  assert (in_range (UserBoard.base u0) q) as Hq'.
  { unfold in_range in *. by rewrite <- Hr, <- Hc. }
  rewrite Hget by done. by rewrite decide_True by by apply elem_of_cells.
Qed.

Lemma Game_new_wf random mines size :
  game_wf (Game.new random mines size)
  ∧ written size None (Game.userBoard (Game.new random mines size)).
Proof.
  split; [|apply written_new].
  destruct (MineBoard_new_dims random mines size None) as (Hr & Hc & _).
  destruct (written_inv size None _ (written_new size None)) as (Hr' & Hc' & _).
  assert (∀ p, in_range (board_of (Game.new random mines size)) p →
            user_at (Game.new random mines size) p = Some Tile.UNKNOWN) as Hu.
  { intros p Hp. apply UserBoard_new_tiles.
    unfold in_range, board_of in *. cbn [Game.new Game.mineBoard] in Hp.
    cbn [Game.new Game.userBoard]. rewrite Hr, Hc in Hp.
    by rewrite Hr', Hc'. }
  apply game_wf_iff. split.
  - split; [unfold board_of; cbn [Game.new Game.mineBoard Game.userBoard];
            congruence|].
    split; [unfold board_of; cbn [Game.new Game.mineBoard Game.userBoard];
            congruence|].
    split; [apply MineBoard_new_adjacency_ok|].
    intros p Hp. left. by rewrite (Hu p Hp).
  - intros q Hq _ Hq0. rewrite (Hu q Hq) in Hq0. discriminate Hq0.
Qed.

Lemma user_at_setTile g p q v :
  consistent g → in_range (board_of g) p → in_range (board_of g) q →
  user_at (Game.with_user g (UserBoard.setTile (Game.userBoard g) p.1 p.2 v)) q
  = if decide (p = q) then v else user_at g q.
Proof.
  intros Hg Hp Hq. unfold user_at, UserBoard.getTile.
  cbn [Game.with_user Game.userBoard]. rewrite UserBoard_setTile_base.
  apply (getTile_setTile _ p q); by apply consistent_in_range.
Qed.

(** Writing a hidden tile over a hidden tile. *)
Lemma toggle_wf g p v :
  game_wf g → in_range (board_of g) p →
  is_hidden (user_at g p) = true → Game.hidden v = true →
  game_wf (Game.with_user g (UserBoard.setTile (Game.userBoard g) p.1 p.2 (Some v))).
Proof.
  intros [Hg Hcl]%game_wf_iff Hp Hh Hv.
  pose proof Hg as (Hr & Hc & Hm & Hs).
  apply game_wf_iff. split.
  - split; [cbn [Game.with_user Game.userBoard];
            by rewrite UserBoard_setTile_base|].
    split; [cbn [Game.with_user Game.userBoard];
            by rewrite UserBoard_setTile_base|].
    split; [done|].
    intros q Hq. change (board_of (Game.with_user g _)) with (board_of g) in Hq.
    rewrite user_at_setTile by done.
    case_decide; [left; by rewrite is_hidden_Some|by apply Hs].
  - intros q Hq _ Hq0 n Hn.
    change (board_of (Game.with_user g _)) with (board_of g) in Hq, Hn.
    assert (in_range (board_of g) n) as Hnr
      by (by apply elem_of_neighbors in Hn as [_ ?]).
    rewrite user_at_setTile in Hq0 by done. rewrite user_at_setTile by done.
    case_decide as Hpq.
    { injection Hq0 as ->. discriminate Hv. }
    pose proof (Hcl q Hq (not_elem_of_nil _) Hq0 n Hn) as Hnh.
    case_decide as Hpn; [|done]. subst n. congruence.
Qed.

Lemma flagTile_wf g row col :
  game_wf g → in_range (board_of g) (row, col) →
  game_wf (Game.flagTile row col g)
  ∧ Game.mineBoard (Game.flagTile row col g) = Game.mineBoard g
  ∧ (∀ rows opt_cols, written rows opt_cols (Game.userBoard g) →
       written rows opt_cols (Game.userBoard (Game.flagTile row col g))).
Proof.
  intros Hwf Hp. unfold Game.flagTile.
  pose proof Hwf as [Hg _]%game_wf_iff.
  assert (in_range (UserBoard.base (Game.userBoard g)) (row, col)) as Hpu
    by (by apply consistent_in_range).
  change (UserBoard.getTile (Game.userBoard g) row col)
    with (user_at g (row, col)).
  destruct (tile_eq (user_at g (row, col)) Tile.UNKNOWN) eqn:Hu.
  { apply tile_eq_true in Hu. split; [|split; [done|]].
    - apply (toggle_wf g (row, col)); try done. by rewrite Hu.
    - intros rows opt_cols Hw. cbn [Game.with_user Game.userBoard].
      by apply written_setTile. }
  destruct (tile_eq (user_at g (row, col)) Tile.FLAG) eqn:Hf.
  { apply tile_eq_true in Hf. split; [|split; [done|]].
    - apply (toggle_wf g (row, col)); try done. by rewrite Hf.
    - intros rows opt_cols Hw. cbn [Game.with_user Game.userBoard].
      by apply written_setTile. }
  done.
Qed.

Lemma Chord_wf l g g' ok :
  Chord l g g' ok →
  (∀ p, p ∈ l → in_range (board_of g) p) → game_wf g →
  game_wf g'
  ∧ Game.mineBoard g' = Game.mineBoard g
  ∧ (∀ rows opt_cols, written rows opt_cols (Game.userBoard g) →
                      written rows opt_cols (Game.userBoard g')).
Proof.
  induction 1 as [g|p l g g' ok _ _ IH|p l g g1 ret g' ok _ Hrun _ _ IH
                 |p l g g1 ret _ Hrun _]; intros Hl Hwf.
  - done.
  - apply IH; [|done]. intros q Hq. apply Hl, elem_of_cons. by right.
  - destruct (revealTile_wf g p.1 p.2 g1 ret Hwf) as (Hwf1 & Hm1 & Hw1);
      [|done|].
    { replace (p.1, p.2) with p by (by destruct p).
      apply Hl, elem_of_cons. by left. }
    destruct IH as (Hwf' & Hm' & Hw'); [|done|].
    { intros q Hq. unfold board_of. rewrite Hm1.
      apply Hl, elem_of_cons. by right. }
    split; [done|]. split; [congruence|]. intros rows oc Hw. by apply Hw', Hw1.
  - apply (revealTile_wf g p.1 p.2 g1 ret Hwf); [|done].
    replace (p.1, p.2) with p by (by destruct p).
    apply Hl, elem_of_cons. by left.
Qed.

Lemma revealUnknownAdjacent_wf g row col g' ret :
  game_wf g →
  Game.revealUnknownAdjacent row col g = Some (g', ret) →
  game_wf g'
  ∧ Game.mineBoard g' = Game.mineBoard g
  ∧ (∀ rows opt_cols, written rows opt_cols (Game.userBoard g) →
                      written rows opt_cols (Game.userBoard g')).
Proof.
  intros Hwf Hrun.
  destruct (revealUnknownAdjacent_cases g row col) as [Hnoop Hchord].
  assert (Decision (∃ v, user_at g (row, col) = Some v
                         ∧ (v < 0 ∨ flags_around g row col < v))) as [Hc|Hc].
  { destruct (user_at g (row, col)) as [v|].
    - destruct (decide (v < 0 ∨ flags_around g row col < v)).
      + left. by exists v.
      + right. intros (v' & [= <-] & ?). done.
    - right. by intros (v' & [=] & _). }
  - rewrite (Hnoop Hc) in Hrun. by injection Hrun as <- _.
  - destruct (Hchord Hc) as (g2 & ok & Hrun2 & Hch & _).
    rewrite Hrun2 in Hrun. injection Hrun as <- _.
    apply (Chord_wf _ _ _ _ Hch); [|done].
    intros p [_ Hp]%elem_of_neighbors.
    apply game_wf_iff in Hwf as [Hg _]. by apply consistent_in_range.
Qed.

Lemma played_inv g0 g :
  game_wf g0 → played g0 g →
  game_wf g
  ∧ Game.mineBoard g = Game.mineBoard g0
  ∧ (∀ rows opt_cols, written rows opt_cols (Game.userBoard g0) →
                      written rows opt_cols (Game.userBoard g)).
Proof.
  intros Hwf0.
  induction 1 as [|g row col _ (Hwf & Hm & Hw) Hp
                  |g row col g' ret _ (Hwf & Hm & Hw) Hp Hrun
                  |g row col g' ret _ (Hwf & Hm & Hw) Hp Hrun].
  - done.
  - destruct (flagTile_wf g row col Hwf Hp) as (? & ? & Hw').
    split; [done|]. split; [congruence|]. intros rows oc Hw0. by apply Hw', Hw.
  - destruct (revealTile_wf g row col g' ret Hwf Hp Hrun) as (? & ? & Hw').
    split; [done|]. split; [congruence|]. intros rows oc Hw0. by apply Hw', Hw.
  - destruct (revealUnknownAdjacent_wf g row col g' ret Hwf Hrun)
      as (? & ? & Hw').
    split; [done|]. split; [congruence|]. intros rows oc Hw0. by apply Hw', Hw.
Qed.

(** ** Validation *)

Lemma validate_visit l g :
  ∃ b, visit board_of
         (returns (λ r c mineTile g,
            let userTile := UserBoard.getTile (Game.userBoard g) r c in
            if tile_eq mineTile Tile.MINE || tile_eq userTile Tile.FLAG
            then (g, JBool (tile_eq mineTile Tile.MINE
                            && tile_eq userTile Tile.FLAG))
            else (g, JUndefined)))
         l g = Some (g, b)
       ∧ (b = true ↔
          ∀ p, p ∈ l → (mine_at g p = Some Tile.MINE
                        ↔ user_at g p = Some Tile.FLAG)).
Proof.
  induction l as [|[r c] l (b & Hv & Hb)].
  - exists true. split; [done|]. split; [|done]. intros _ p Hp.
    by apply elem_of_nil in Hp.
  - cbn [visit]. unfold returns at 1. cbv zeta.
    change (Board.getTile (board_of g) r c) with (mine_at g (r, c)).
    change (UserBoard.getTile (Game.userBoard g) r c) with (user_at g (r, c)).
    assert (∀ t k, tile_eq t k = true ↔ t = Some k) as Heq.
    { intros t k. split; [apply tile_eq_true|]. intros ->. apply Z.eqb_refl. }
    destruct (tile_eq (mine_at g (r, c)) Tile.MINE) eqn:Hm,
             (tile_eq (user_at g (r, c)) Tile.FLAG) eqn:Hf;
      cbn [orb andb strict_false].
    + exists b. split; [done|]. rewrite Hb. split.
      * intros Hl p [->|Hp]%elem_of_cons; [|by apply Hl].
        apply Heq in Hm, Hf. done.
      * intros Hl p Hp. apply Hl, elem_of_cons. by right.
    + exists false. split; [done|]. split; [done|]. intros Hl.
      apply Heq in Hm. apply (Hl (r, c)) in Hm; [|apply elem_of_cons; by left].
      apply Heq in Hm. congruence.
    + exists false. split; [done|]. split; [done|]. intros Hl.
      apply Heq in Hf. apply (Hl (r, c)) in Hf; [|apply elem_of_cons; by left].
      apply Heq in Hf. congruence.
    + exists b. split; [done|]. rewrite Hb. split.
      * intros Hl p [->|Hp]%elem_of_cons; [|by apply Hl].
        split; intros H%Heq; congruence.
      * intros Hl p Hp. apply Hl, elem_of_cons. by right.
Qed.

Lemma validate_spec g :
  Game.validate g = true ↔
  UserBoard.flagCount (Game.userBoard g) = MineBoard.mineCount (Game.mineBoard g)
  ∧ ∀ p, in_range (board_of g) p →
         (mine_at g p = Some Tile.MINE ↔ user_at g p = Some Tile.FLAG).
Proof.
  unfold Game.validate.
  destruct (Z.eqb_spec (UserBoard.flagCount (Game.userBoard g))
              (MineBoard.mineCount (Game.mineBoard g))) as [Hc|Hc];
    cbn [negb].
  2:{ split; [done|]. by intros [? _]. }
  rewrite forEachTile_visit. cbv beta.
  destruct (validate_visit (cells (board_of g)) g) as (b & Hv & Hb).
  unfold board_of in Hv. rewrite Hv. cbn [outcome]. rewrite Hb. split.
  - intros Hl. split; [done|]. intros p Hp. by apply Hl, elem_of_cells.
  - intros [_ Hl] p Hp. by apply Hl, elem_of_cells.
Qed.

(** C2 (as the code has it). In a game constructed with a size that is not
    negative and a mine count between 0 and the number of cells, and then
    played, [validate] returns [true] exactly when the flagged cells are
    the cells of the mines; it returns [false] whenever [flagCount] differs
    from [mineCount]. *)
Theorem validate_iff_flags_are_mines random mines size g :
  0 ≤ size → 0 ≤ mines ≤ size * size →
  played (Game.new random mines size) g →
  (Game.validate g = true ↔
     ∀ p, in_range (board_of g) p →
          (user_at g p = Some Tile.FLAG ↔ mine_at g p = Some Tile.MINE))
  ∧ (UserBoard.flagCount (Game.userBoard g)
     ≠ MineBoard.mineCount (Game.mineBoard g) →
     Game.validate g = false).
Proof.
  intros Hsize Hmines Hplayed.
  destruct (Game_new_wf random mines size) as [Hwf0 Hw0].
  destruct (played_inv _ _ Hwf0 Hplayed) as (Hwf & Hm & Hw).
  split.
  - rewrite validate_spec. split.
    + intros [_ Hl] p Hp. by rewrite Hl.
    + intros Hl. split; [|intros p Hp; by rewrite Hl].
      destruct (written_inv _ _ _ (Hw _ _ Hw0)) as (_ & _ & [Hf _] & _).
      rewrite Hf, Hm.
      destruct (MineBoard_new_dims random mines size None) as (Hr & Hc & Hmc).
      cbn [Game.new Game.mineBoard]. rewrite Hmc.
      destruct (MineBoard_new_spec random mines size None) as [_ Hcnt];
        [done|done|].
      cbn [Board.new Board.colCount] in Hcnt.
      trans (count_tiles (MineBoard.base (MineBoard.new random mines size None))
               Tile.MINE); [|rewrite Hcnt; lia].
      unfold count_tiles.
      apply game_wf_iff in Hwf as [(Hur & Huc & _) _].
      rewrite (cells_dims _ (board_of g)) by done.
      assert (board_of g = MineBoard.base (MineBoard.new random mines size None))
        as Hb by (unfold board_of; by rewrite Hm).
      rewrite <- Hb. do 2 f_equal. apply filter_ext_elem.
      intros p Hp%elem_of_cells. by apply Hl.
  - intros Hne. destruct (Game.validate g) eqn:Hv; [|done].
    apply validate_spec in Hv as [? _]. done.
Qed.

(** ** The theorems at work on small games *)

Lemma played_written random mines size g :
  played (Game.new random mines size) g →
  written size None (Game.userBoard g).
Proof.
  intros Hplayed. destruct (Game_new_wf random mines size) as [Hwf0 Hw0].
  destruct (played_inv _ _ Hwf0 Hplayed) as (_ & _ & Hw). by apply Hw.
Qed.

Lemma played_wf random mines size g :
  played (Game.new random mines size) g → game_wf g.
Proof.
  intros Hplayed. destruct (Game_new_wf random mines size) as [Hwf0 _].
  by destruct (played_inv _ _ Hwf0 Hplayed) as (? & _).
Qed.

Lemma revealTile_opens_region_witness :
  ∃ g' ret,
    Game.revealTile 0 0 small_game = Some (g', ret)
    ∧ is_error ret = false
    ∧ Game.mineBoard g' = Game.mineBoard small_game
    ∧ ∀ q, in_range (board_of small_game) q →
        (opened (board_of small_game) (0, 0) q
         → user_at g' q = mine_at small_game q)
        ∧ (¬ opened (board_of small_game) (0, 0) q
           → user_at g' q = user_at small_game q).
Proof.
  apply (revealTile_opens_region small_game 0 0).
  - apply (bool_decide_unpack _). vm_compute. exact I.
  - apply (bool_decide_unpack _). vm_compute. exact I.
  - vm_compute. reflexivity.
Defined.

(** With a negative mine count the flags are the mines (there is neither)
    and still [validate] returns [false]. *)
Lemma validate_negative_mines :
  -1 ≤ 1 * 1
  ∧ ¬ (Game.validate negative_game = true ↔
       ∀ p, in_range (board_of negative_game) p →
            (user_at negative_game p = Some Tile.FLAG
             ↔ mine_at negative_game p = Some Tile.MINE)).
Proof.
  split; [lia|]. intros [_ Hflags].
  assert (Game.validate negative_game = true) as Hv.
  { apply Hflags. intros [r c] Hp.
    assert (r = 0 ∧ c = 0) as [-> ->].
    { assert (Board.rowCount (board_of negative_game) = 1) as Hr
        by (vm_compute; reflexivity).
      assert (Board.colCount (board_of negative_game) = 1) as Hc
        by (vm_compute; reflexivity).
      unfold in_range in Hp. rewrite Hr, Hc in Hp. simpl in Hp. lia. }
    vm_compute. split; intros [=]. }
  vm_compute in Hv. discriminate Hv.
Qed.

Lemma validate_iff_flags_are_mines_witness :
  (Game.validate (Game.flagTile 2 2 small_game) = true ↔
     ∀ p, in_range (board_of (Game.flagTile 2 2 small_game)) p →
          (user_at (Game.flagTile 2 2 small_game) p = Some Tile.FLAG
           ↔ mine_at (Game.flagTile 2 2 small_game) p = Some Tile.MINE))
  ∧ (UserBoard.flagCount (Game.userBoard (Game.flagTile 2 2 small_game))
     ≠ MineBoard.mineCount (Game.mineBoard (Game.flagTile 2 2 small_game)) →
     Game.validate (Game.flagTile 2 2 small_game) = false).
Proof.
  apply (validate_iff_flags_are_mines no_random 1 3).
  - lia.
  - lia.
  - apply played_flag; [apply played_start|].
    apply (bool_decide_unpack _). vm_compute. exact I.
Defined.

Lemma counters_invariant_witness :
  UserBoard.flagCount
    (UserBoard.setTile
       (UserBoard.setTile (UserBoard.new 2 None) 0 1 (Some Tile.FLAG))
       0 1 (Some Tile.FLAG))
  = count_tiles
      (UserBoard.base
         (UserBoard.setTile
            (UserBoard.setTile (UserBoard.new 2 None) 0 1 (Some Tile.FLAG))
            0 1 (Some Tile.FLAG)))
      Tile.FLAG
  ∧ UserBoard.unknownCount
      (UserBoard.setTile
         (UserBoard.setTile (UserBoard.new 2 None) 0 1 (Some Tile.FLAG))
         0 1 (Some Tile.FLAG))
    = count_tiles
        (UserBoard.base
           (UserBoard.setTile
              (UserBoard.setTile (UserBoard.new 2 None) 0 1 (Some Tile.FLAG))
              0 1 (Some Tile.FLAG)))
        Tile.UNKNOWN
  ∧ UserBoard.flagCount
      (UserBoard.setTile
         (UserBoard.setTile (UserBoard.new 2 None) 0 1 (Some Tile.FLAG))
         0 1 (Some Tile.FLAG))
    + UserBoard.unknownCount
        (UserBoard.setTile
           (UserBoard.setTile (UserBoard.new 2 None) 0 1 (Some Tile.FLAG))
           0 1 (Some Tile.FLAG))
    + revealedCount
        (UserBoard.setTile
           (UserBoard.setTile (UserBoard.new 2 None) 0 1 (Some Tile.FLAG))
           0 1 (Some Tile.FLAG))
    = Board.rowCount
        (UserBoard.base
           (UserBoard.setTile
              (UserBoard.setTile (UserBoard.new 2 None) 0 1 (Some Tile.FLAG))
              0 1 (Some Tile.FLAG)))
      * Board.colCount
          (UserBoard.base
             (UserBoard.setTile
                (UserBoard.setTile (UserBoard.new 2 None) 0 1 (Some Tile.FLAG))
                0 1 (Some Tile.FLAG))).
Proof.
  apply (counters_invariant 2 None).
  - lia.
  - simpl. lia.
  - apply written_setTile; [apply written_setTile; [apply written_new|]|];
      apply (bool_decide_unpack _); vm_compute; exact I.
Defined.

(** A mine count of -1 lays no mine, and 0 is not [min (-1) (1 * 1)]. *)
Lemma MineBoard_new_negative_count :
  count_tiles (MineBoard.base (MineBoard.new no_random (-1) 1 None)) Tile.MINE
  ≠ Z.min (-1) (1 * 1).
Proof. vm_compute. intros [=]. Qed.

Lemma MineBoard_new_mines_witness :
  count_tiles (MineBoard.base (MineBoard.new no_random 20 3 None)) Tile.MINE
  = Z.min (Z.max 20 0)
      (Board.rowCount (MineBoard.base (MineBoard.new no_random 20 3 None))
       * Board.colCount (MineBoard.base (MineBoard.new no_random 20 3 None)))
  ∧ (20 ≤ 0 →
     count_tiles (MineBoard.base (MineBoard.new no_random 20 3 None))
       Tile.MINE = 0)
  ∧ (Board.rowCount (MineBoard.base (MineBoard.new no_random 20 3 None))
     * Board.colCount (MineBoard.base (MineBoard.new no_random 20 3 None))
     ≤ 20 →
     Forall (holds (MineBoard.base (MineBoard.new no_random 20 3 None))
               Tile.MINE)
       (cells (MineBoard.base (MineBoard.new no_random 20 3 None)))).
Proof.
  apply (MineBoard_new_mines no_random 20 3 None).
  - lia.
  - simpl. lia.
Defined.

Lemma reveal_cascade_never_stops_witness :
  (∃ g', Game.revealTile 0 1 miscounted_game = Some (g', JNull)
         ∧ Run board_of
             (λ r c _ s,
                Game.revealTile_fuel (Game.hiddenCount miscounted_game) r c s)
             (neighbors (board_of miscounted_game) 0 1)
             (uncovered miscounted_game 0 1) g' true)
  ∧ (∀ fuel r c s s' ret,
       Game.revealTile_fuel fuel r c s = Some (s', ret) →
       ret ≠ JBool false
       ∧ (is_error ret = true ↔
            is_hidden (user_at s (r, c)) = true
            ∧ mine_at s (r, c) = Some Tile.MINE)).
Proof.
  apply (reveal_cascade_never_stops miscounted_game 0 1).
  - vm_compute. reflexivity.
  - vm_compute. reflexivity.
Defined.

(** A reveal of a hidden cell returns [null]; a second reveal of the same
    cell returns [undefined], which is another value. *)
Lemma revealed_returns_undefined_not_null :
  match Game.revealTile 0 0 small_game with
  | Some (g, first) =>
      match Game.revealTile 0 0 g with
      | Some (_, second) =>
          first = JNull ∧ second = JUndefined ∧ second ≠ first
      | None => False
      end
  | None => False
  end.
Proof. vm_compute. repeat split. intros [=]. Qed.

Lemma revealTile_revealed_noop_witness :
  Game.revealTile 0 0 opened_game = Some (opened_game, JUndefined)
  ∧ is_error JUndefined = false
  ∧ loose_null JUndefined = loose_null JNull
  ∧ truthy JUndefined = truthy JNull.
Proof.
  apply (revealTile_revealed_noop opened_game 0 0).
  vm_compute. reflexivity.
Defined.

Lemma flagTile_involution_witness :
  Game.flagTile 2 2 (Game.flagTile 2 2 small_game) = small_game.
Proof.
  apply (flagTile_involution small_game 2 2).
  vm_compute. reflexivity.
Defined.

(** * Further properties of the code *)

(** ** [Board]: indices, reads and writes *)






(** ** [Board.shuffle] *)

Lemma transpose_inj i j : Inj (=) (=) (transpose i j).
Proof.
  intros x y. unfold transpose. repeat case_decide; congruence.
Qed.

(** One pass of the loop of [shuffle] exchanges two slots. *)
Lemma swap_tiles d i j :
  0 ≤ i < len d → 0 ≤ j < len d →
  let d' := arr_set (arr_set d i (arr_get d j)) j (arr_get d i) in
  len d' = len d ∧ tiles d' ≡ₚ tiles d.
Proof.
  intros Hi Hj d'.
  assert (len d' = len d) as Hlen.
  { unfold d'. rewrite !len_arr_set. repeat case_decide; lia. }
  split; [done|].
  unfold tiles. rewrite Hlen. apply Permutation_inj. split.
  { by rewrite !length_fmap. }
  exists (transpose (Z.to_nat i) (Z.to_nat j)).
  split; [apply transpose_inj|].
  intros k. rewrite !list_lookup_fmap.
  destruct (decide (Z.of_nat k < len d)) as [Hk|Hk].
  - assert (Z.of_nat (transpose (Z.to_nat i) (Z.to_nat j) k) < len d) as Hk'.
    { unfold transpose. repeat case_decide; lia. }
    rewrite !lookup_seqZ_lt by done. cbn [fmap option_fmap option_map].
    f_equal. unfold d'. rewrite !arr_get_set.
    unfold transpose.
    repeat case_decide; try done; try lia; f_equal; lia.
  - assert (transpose (Z.to_nat i) (Z.to_nat j) k = k) as ->.
    { unfold transpose. repeat case_decide; lia. }
    by rewrite !lookup_seqZ_ge by lia.
Qed.

Lemma shuffle_loop_permutes random :
  ∀ i draw d,
    Z.of_nat i < len d →
    len (Board.shuffle_loop random i draw d) = len d
    ∧ tiles (Board.shuffle_loop random i draw d) ≡ₚ tiles d.
Proof.
  induction i as [|i IH]; intros draw d Hi; [done|].
  cbn [Board.shuffle_loop].
  pose proof (floor_mul_bounds (random draw) (Z.of_nat (S i) + 1)) as Hj.
  destruct (swap_tiles d (Z.of_nat (S i))
              (floor_mul (random draw) (Z.of_nat (S i) + 1)))
    as [Hlen Hperm]; [lia|lia|].
  cbv zeta in Hlen, Hperm.
  destruct (IH (Datatypes.S draw) _ ltac:(rewrite Hlen; lia)) as [Hlen' Hperm'].
  split; [by rewrite Hlen'|]. by rewrite Hperm'.
Qed.

(** X4 ([Board.shuffle]): whatever [Math.random] returns, the shuffle
    rearranges the tiles of the array: afterwards they are a permutation of
    those before, and the length and the dimensions are the same.  On an
    empty array, and only then, it returns [false] (and does nothing);
    otherwise it returns [undefined]. *)
Theorem shuffle_permutes random b :
  tiles (Board.data_ (Board.shuffle random b).1) ≡ₚ tiles (Board.data_ b)
  ∧ len (Board.data_ (Board.shuffle random b).1) = len (Board.data_ b)
  ∧ Board.rowCount (Board.shuffle random b).1 = Board.rowCount b
  ∧ Board.colCount (Board.shuffle random b).1 = Board.colCount b
  ∧ ((Board.shuffle random b).2 = JBool false ↔ len (Board.data_ b) = 0)
  ∧ ((Board.shuffle random b).2 = JUndefined ↔ len (Board.data_ b) ≠ 0)
  ∧ (len (Board.data_ b) = 0 → (Board.shuffle random b).1 = b).
Proof.
  unfold Board.shuffle.
  destruct (Z.eqb_spec (len (Board.data_ b)) 0) as [H0|H0];
    cbn [fst snd Board.data_ Board.rowCount Board.colCount].
  { repeat split; try done. }
  destruct (decide (0 < len (Board.data_ b))) as [Hpos|Hneg].
  - destruct (shuffle_loop_permutes random
                (Z.to_nat (len (Board.data_ b) - 1)) 0 (Board.data_ b))
      as [Hlen Hperm]; [lia|].
    split; [done|]. split; [done|]. repeat split; try done.
  - replace (Z.to_nat (len (Board.data_ b) - 1)) with O by lia.
    cbn [Board.shuffle_loop]. repeat split; try done.
Qed.

(** ** The constructors *)

Lemma length_cells_max b :
  Z.of_nat (length (cells b))
  = Z.max (Board.rowCount b) 0 * Z.max (Board.colCount b) 0.
Proof.
  destruct (decide (0 ≤ Board.rowCount b ∧ 0 ≤ Board.colCount b)) as [[Hr Hc]|Hn].
  - rewrite length_cells by done. lia.
  - unfold cells. rewrite box_empty.
    + simpl. nia.
    + destruct (decide (Board.rowCount b ≤ 0)); [by left|right].
      destruct (decide (Board.colCount b ≤ 0)); [done|]. lia.
Qed.

Lemma UserBoard_new_spec rows opt_cols :
  Board.rowCount (UserBoard.base (UserBoard.new rows opt_cols)) = rows
  ∧ Board.colCount (UserBoard.base (UserBoard.new rows opt_cols))
    = match opt_cols with
      | Some c => if decide (c = 0) then rows else c
      | None => rows
      end
  ∧ (∀ p, in_range (UserBoard.base (UserBoard.new rows opt_cols)) p →
          UserBoard.getTile (UserBoard.new rows opt_cols) p.1 p.2
          = Some Tile.UNKNOWN)
  ∧ UserBoard.flagCount (UserBoard.new rows opt_cols) = 0
  ∧ UserBoard.unknownCount (UserBoard.new rows opt_cols)
    = Z.max rows 0
      * Z.max (Board.colCount (UserBoard.base (UserBoard.new rows opt_cols))) 0
  ∧ (UserBoard.completed (UserBoard.new rows opt_cols) = true
     ↔ rows ≤ 0
       ∨ Board.colCount (UserBoard.base (UserBoard.new rows opt_cols)) ≤ 0).
Proof.
  destruct (written_inv rows opt_cols _ (written_new rows opt_cols))
    as (Hr & Hc & [Hflag Hunk] & _).
  pose proof (UserBoard_new_tiles rows opt_cols) as Htiles.
  assert (UserBoard.flagCount (UserBoard.new rows opt_cols) = 0) as Hf0.
  { rewrite Hflag. unfold count_tiles. rewrite filter_none; [done|].
    intros p Hp%elem_of_cells. unfold holds.
    change (Board.getTile (UserBoard.base (UserBoard.new rows opt_cols)) p.1 p.2)
      with (UserBoard.getTile (UserBoard.new rows opt_cols) p.1 p.2).
    rewrite (Htiles p Hp). intros [=]. }
  assert (UserBoard.unknownCount (UserBoard.new rows opt_cols)
          = Z.max rows 0
            * Z.max (Board.colCount (UserBoard.base (UserBoard.new rows opt_cols))) 0)
    as Hu.
  { rewrite Hunk. unfold count_tiles. rewrite filter_all.
    - by rewrite length_cells_max, Hr.
    - intros p Hp%elem_of_cells. unfold holds. by apply Htiles. }
  split; [done|]. split.
  { rewrite Hc. destruct opt_cols as [c|]; [|done]. simpl.
    destruct (Z.eqb_spec c 0); by case_decide. }
  split; [done|]. split; [done|]. split; [done|].
  unfold UserBoard.completed. rewrite Hu, Z.eqb_eq. nia.
Qed.

(** X5 ([UserBoard] constructor, [initBoard_], [Board] constructor): a new
    user board has the rows asked for and as many columns when the second
    argument is omitted or 0; every cell holds [UNKNOWN], no flag is
    counted and [unknownCount] is the number of cells (none when a
    dimension is negative); it is [completed] only when it has no cell. *)
Theorem UserBoard_new_fresh rows opt_cols :
  Board.rowCount (UserBoard.base (UserBoard.new rows opt_cols)) = rows
  ∧ Board.colCount (UserBoard.base (UserBoard.new rows opt_cols))
    = match opt_cols with
      | Some c => if decide (c = 0) then rows else c
      | None => rows
      end
  ∧ (∀ p, in_range (UserBoard.base (UserBoard.new rows opt_cols)) p →
          UserBoard.getTile (UserBoard.new rows opt_cols) p.1 p.2
          = Some Tile.UNKNOWN)
  ∧ UserBoard.flagCount (UserBoard.new rows opt_cols) = 0
  ∧ UserBoard.unknownCount (UserBoard.new rows opt_cols)
    = Z.max rows 0
      * Z.max (Board.colCount (UserBoard.base (UserBoard.new rows opt_cols))) 0
  ∧ (UserBoard.completed (UserBoard.new rows opt_cols) = true
     ↔ rows ≤ 0
       ∨ Board.colCount (UserBoard.base (UserBoard.new rows opt_cols)) ≤ 0).
Proof. apply UserBoard_new_spec. Qed.

(** A cell has at most eight neighbours. *)
Lemma neighbors_length b row col : (length (neighbors b row col) ≤ 8)%nat.
Proof.
  change 8%nat with
    (length [(row - 1, col - 1); (row - 1, col); (row - 1, col + 1);
             (row, col - 1); (row, col + 1);
             (row + 1, col - 1); (row + 1, col); (row + 1, col + 1)]).
  apply submseteq_length, NoDup_submseteq; [apply NoDup_neighbors|].
  intros [r c] [(Hr & Hc & Hne) _]%elem_of_neighbors. simpl in Hr, Hc.
  assert (r = row - 1 ∨ r = row ∨ r = row + 1) as Hr' by lia.
  assert (c = col - 1 ∨ c = col ∨ c = col + 1) as Hc' by lia.
  rewrite !elem_of_cons.
  destruct Hr' as [->| [->| ->]], Hc' as [->| [->| ->]]; tauto.
Qed.

Lemma mine_neighbors_le b p : mine_neighbors b p ≤ 8.
Proof.
  unfold mine_neighbors.
  pose proof (length_filter (holds b Tile.MINE) (neighbors b p.1 p.2)).
  pose proof (neighbors_length b p.1 p.2). lia.
Qed.

(** X6 ([MineBoard] constructor, [setMines_]): the solution has the
    dimensions asked for and stores [mineCount] as given, in range or not;
    every cell holds [MINE] or a count from 0 to 8, and a cell that holds 0
    has no mine next to it. *)
Theorem MineBoard_new_tiles random mines rows opt_cols :
  Board.rowCount (MineBoard.base (MineBoard.new random mines rows opt_cols))
  = rows
  ∧ Board.colCount (MineBoard.base (MineBoard.new random mines rows opt_cols))
    = match opt_cols with
      | Some c => if decide (c = 0) then rows else c
      | None => rows
      end
  ∧ MineBoard.mineCount (MineBoard.new random mines rows opt_cols) = mines
  ∧ ∀ p, in_range (MineBoard.base (MineBoard.new random mines rows opt_cols)) p →
      ∃ v, MineBoard.getTile (MineBoard.new random mines rows opt_cols) p.1 p.2
           = Some v
           ∧ (v = Tile.MINE ∨ 0 ≤ v ≤ 8)
           ∧ (v = 0 →
              ∀ q, q ∈ neighbors
                         (MineBoard.base
                            (MineBoard.new random mines rows opt_cols)) p.1 p.2 →
                   MineBoard.getTile (MineBoard.new random mines rows opt_cols)
                     q.1 q.2 ≠ Some Tile.MINE).
Proof.
  destruct (MineBoard_new_dims random mines rows opt_cols) as (Hr & Hc & Hm).
  pose proof (MineBoard_new_adjacency_ok random mines rows opt_cols) as Hok.
  split; [done|]. split.
  { rewrite Hc. destruct opt_cols as [c|]; [|done]. simpl.
    destruct (Z.eqb_spec c 0); by case_decide. }
  split; [done|]. intros p Hp.
  destruct (adjacency_ok_cell _ p Hok Hp) as [Hmine|Hcount].
  - exists Tile.MINE. split; [done|]. split; [by left|]. intros [=].
  - eexists. split; [exact Hcount|]. split.
    + right. split; [apply mine_neighbors_nonneg|apply mine_neighbors_le].
    + intros H0 q Hq. rewrite H0 in Hcount.
      by apply (zero_no_mine_neighbor _ p q Hok Hp Hcount Hq).
Qed.

(** X7 ([MineBoard.incrementAdjacentTiles_]): the count of every neighbour
    of the cell goes up by one; a neighbour that holds a mine (or any
    negative tile), the cell itself and the cells further away are as they
    were, and so are the dimensions and [mineCount]. *)
Theorem incrementAdjacentTiles_spec m row col :
  Board.rowCount (MineBoard.base (MineBoard.incrementAdjacentTiles_ row col m))
  = Board.rowCount (MineBoard.base m)
  ∧ Board.colCount (MineBoard.base (MineBoard.incrementAdjacentTiles_ row col m))
    = Board.colCount (MineBoard.base m)
  ∧ MineBoard.mineCount (MineBoard.incrementAdjacentTiles_ row col m)
    = MineBoard.mineCount m
  ∧ ∀ q, in_range (MineBoard.base m) q →
      MineBoard.getTile (MineBoard.incrementAdjacentTiles_ row col m) q.1 q.2
      = if decide (adjacent (row, col) q)
        then match MineBoard.getTile m q.1 q.2 with
             | Some v => if decide (0 ≤ v) then Some (v + 1) else Some v
             | None => None
             end
        else MineBoard.getTile m q.1 q.2.
Proof.
  rewrite incrementAdjacentTiles_fold.
  destruct (inc_fold (neighbors (MineBoard.base m) row col) m)
    as (Hr & Hc & Hm & Htiles).
  { by intros q [_ ?]%elem_of_neighbors. }
  { apply NoDup_neighbors. }
  split; [done|]. split; [done|]. split; [done|].
  intros q Hq. rewrite (Htiles q Hq).
  destruct (decide (adjacent (row, col) q)) as [Ha|Ha].
  - rewrite decide_True by (by apply elem_of_neighbors).
    unfold bump. destruct (MineBoard.getTile m q.1 q.2) as [v|]; [|done].
    simpl. destruct (Z.leb_spec 0 v); case_decide; done || lia.
  - rewrite decide_False; [done|]. by intros [? _]%elem_of_neighbors.
Qed.

(** ** Play: what every action returns and keeps *)

Lemma completed_spec rows opt_cols u :
  written rows opt_cols u →
  UserBoard.completed u = true
  ↔ ∀ p, in_range (UserBoard.base u) p →
         UserBoard.getTile u p.1 p.2 ≠ Some Tile.UNKNOWN.
Proof.
  intros (_ & _ & [_ Hunk] & _)%written_inv.
  unfold UserBoard.completed. rewrite Hunk, Z.eqb_eq. unfold count_tiles.
  split.
  - intros Hlen p Hp Hu.
    assert (p ∈ filter (holds (UserBoard.base u) Tile.UNKNOWN)
                  (cells (UserBoard.base u))) as Hin.
    { apply list_elem_of_filter. split; [exact Hu|by apply elem_of_cells]. }
    destruct (filter _ _); [by apply elem_of_nil in Hin|simpl in Hlen; lia].
  - intros Hno. rewrite filter_none; [done|].
    intros p Hp%elem_of_cells. by apply Hno.
Qed.

(** X8 ([UserBoard.completed]): on a user board made by the constructor
    and written at cells of the board, [completed] is true exactly when no
    cell holds [UNKNOWN]. *)
Theorem completed_iff_no_unknown rows opt_cols u :
  written rows opt_cols u →
  UserBoard.completed u = true
  ↔ ∀ p, in_range (UserBoard.base u) p →
         UserBoard.getTile u p.1 p.2 ≠ Some Tile.UNKNOWN.
Proof. apply completed_spec. Qed.

Lemma completed_iff_no_unknown_witness :
  UserBoard.completed (UserBoard.new 2 None) = true
  ↔ ∀ p, in_range (UserBoard.base (UserBoard.new 2 None)) p →
         UserBoard.getTile (UserBoard.new 2 None) p.1 p.2 ≠ Some Tile.UNKNOWN.
Proof.
  apply (completed_iff_no_unknown 2 None (UserBoard.new 2 None)).
  apply written_new.
Defined.

(** X9 ([Game.revealTile], [Game.revealUnknownAdjacent]): both return on
    every game and at all coordinates.  The recursion of [revealTile] is
    never deeper than the number of hidden tiles plus one: any bound above
    that number gives the same result, and a reveal leaves no more tiles
    hidden than there were. *)
Theorem actions_return g row col :
  (∃ g' ret,
     Game.revealTile row col g = Some (g', ret)
     ∧ (∀ fuel, (Game.hiddenCount g < fuel)%nat →
                Game.revealTile_fuel fuel row col g = Some (g', ret))
     ∧ (Game.hiddenCount g' ≤ Game.hiddenCount g)%nat)
  ∧ (∃ g' ret, Game.revealUnknownAdjacent row col g = Some (g', ret)).
Proof.
  split.
  - destruct (revealTile_fuel_total (S (Game.hiddenCount g)) g row col)
      as (g' & ret & Hrun & _ & Hle); [lia|].
    exists g', ret. split; [exact Hrun|]. split; [|done].
    intros fuel Hfuel. by rewrite revealTile_fuel_enough.
  - destruct (revealUnknownAdjacent_cases g row col) as [Hnoop Hchord].
    destruct (user_at g (row, col)) as [v|] eqn:Hv.
    + destruct (decide (v < 0 ∨ flags_around g row col < v)) as [Hc|Hc].
      * exists g, JNull. apply Hnoop. by exists v.
      * destruct Hchord as (g' & ok & Hrun & _).
        { intros (v' & [= <-] & ?). done. }
        by exists g', (if ok then JNull else JError "adajcent mine revealed").
    + destruct Hchord as (g' & ok & Hrun & _).
      { by intros (v' & [=] & ?). }
      by exists g', (if ok then JNull else JError "adajcent mine revealed").
Qed.

Lemma kept_setTile g row col v :
  is_hidden (UserBoard.getTile (Game.userBoard g) row col) = true →
  kept g (Game.with_user g (UserBoard.setTile (Game.userBoard g) row col v)).
Proof.
  intros Hh. unfold kept. cbn [Game.with_user Game.mineBoard
    Game.userBoard]. rewrite UserBoard_setTile_base.
  split; [done|]. split; [done|]. split; [done|].
  intros i Hi. cbn [Board.setTile Board.data_]. rewrite arr_get_set.
  case_decide as Heq; [|done]. subst i.
  unfold UserBoard.getTile, Board.getTile in Hh. congruence.
Qed.

Lemma flagTile_kept row col g : kept g (Game.flagTile row col g).
Proof.
  unfold Game.flagTile.
  destruct (tile_eq (UserBoard.getTile (Game.userBoard g) row col) Tile.UNKNOWN)
    eqn:Hu.
  { apply kept_setTile. unfold is_hidden. by rewrite Hu. }
  destruct (tile_eq (UserBoard.getTile (Game.userBoard g) row col) Tile.FLAG)
    eqn:Hf.
  { apply kept_setTile. unfold is_hidden. by rewrite Hf, orb_true_r. }
  apply kept_refl.
Qed.

Lemma revealUnknownAdjacent_kept row col g g' ret :
  Game.revealUnknownAdjacent row col g = Some (g', ret) → kept g g'.
Proof.
  intros Hrun. destruct (revealUnknownAdjacent_cases g row col) as [Hnoop Hchord].
  destruct (user_at g (row, col)) as [v|] eqn:Hv.
  - destruct (decide (v < 0 ∨ flags_around g row col < v)) as [Hc|Hc].
    + rewrite Hnoop in Hrun by (by exists v). injection Hrun as <- _.
      apply kept_refl.
    + destruct Hchord as (g1 & ok & Hrun1 & _ & Hk).
      { intros (v' & [= <-] & ?). done. }
      rewrite Hrun1 in Hrun. by injection Hrun as <- _.
  - destruct Hchord as (g1 & ok & Hrun1 & _ & Hk).
    { by intros (v' & [=] & ?). }
    rewrite Hrun1 in Hrun. by injection Hrun as <- _.
Qed.

Lemma played_kept g0 g : played g0 g → kept g0 g.
Proof.
  induction 1 as [|g row col _ IH _|g row col g' ret _ IH _ Hrun
                  |g row col g' ret _ IH _ Hrun].
  - apply kept_refl.
  - eapply kept_trans; [exact IH|apply flagTile_kept].
  - eapply kept_trans; [exact IH|by eapply revealTile_kept].
  - eapply kept_trans; [exact IH|by eapply revealUnknownAdjacent_kept].
Qed.

(** X10 ([Game.flagTile], [Game.revealTile], [Game.revealUnknownAdjacent]):
    no sequence of the player's actions, on any game, changes the solution
    (so [cheat] gives the same text throughout) or the dimensions of the
    user board, and a tile that is revealed, or [undefined], stays as it
    is for the rest of the game. *)
Theorem play_keeps_revealed g0 g :
  played g0 g →
  Game.mineBoard g = Game.mineBoard g0
  ∧ Game.cheat g = Game.cheat g0
  ∧ Board.rowCount (UserBoard.base (Game.userBoard g))
    = Board.rowCount (UserBoard.base (Game.userBoard g0))
  ∧ Board.colCount (UserBoard.base (Game.userBoard g))
    = Board.colCount (UserBoard.base (Game.userBoard g0))
  ∧ ∀ row col,
      is_hidden (UserBoard.getTile (Game.userBoard g0) row col) = false →
      UserBoard.getTile (Game.userBoard g) row col
      = UserBoard.getTile (Game.userBoard g0) row col.
Proof.
  intros Hk%played_kept. pose proof Hk as (Hm & Hr & Hc & _).
  split; [done|]. split; [unfold Game.cheat; by rewrite Hm|].
  split; [done|]. split; [done|].
  intros row col Hh. by apply kept_getTile.
Qed.

Lemma play_keeps_revealed_witness :
  Game.mineBoard (Game.flagTile 2 2 opened_game) = Game.mineBoard opened_game
  ∧ Game.cheat (Game.flagTile 2 2 opened_game) = Game.cheat opened_game
  ∧ Board.rowCount (UserBoard.base (Game.userBoard (Game.flagTile 2 2 opened_game)))
    = Board.rowCount (UserBoard.base (Game.userBoard opened_game))
  ∧ Board.colCount (UserBoard.base (Game.userBoard (Game.flagTile 2 2 opened_game)))
    = Board.colCount (UserBoard.base (Game.userBoard opened_game))
  ∧ ∀ row col,
      is_hidden (UserBoard.getTile (Game.userBoard opened_game) row col) = false →
      UserBoard.getTile (Game.userBoard (Game.flagTile 2 2 opened_game)) row col
      = UserBoard.getTile (Game.userBoard opened_game) row col.
Proof.
  apply (play_keeps_revealed opened_game (Game.flagTile 2 2 opened_game)).
  apply played_flag; [apply played_start|].
  apply (bool_decide_unpack _). vm_compute. exact I.
Defined.

(** X11 ([Game] constructor and the player's actions): in every game made
    by the constructor and played at cells of the board, a cell of the user
    board is hidden ([UNKNOWN] or [FLAG]) or shows the tile of the
    solution, and every cell next to a revealed 0 is revealed. *)
Theorem play_shows_solution random mines size g p :
  played (Game.new random mines size) g →
  in_range (board_of g) p →
  (is_hidden (user_at g p) = true ∨ user_at g p = mine_at g p)
  ∧ (user_at g p = Some 0 →
     ∀ q, q ∈ neighbors (board_of g) p.1 p.2 →
          is_hidden (user_at g q) = false).
Proof.
  intros [_ _ _ Hshows Hclosed]%played_wf Hp%elem_of_cells.
  rewrite Forall_forall in Hshows, Hclosed.
  split; [by apply Hshows|].
  intros H0 q Hq. specialize (Hclosed p Hp H0).
  rewrite Forall_forall in Hclosed. by apply Hclosed.
Qed.

Lemma play_shows_solution_witness :
  (is_hidden (user_at opened_game (0, 0)) = true
   ∨ user_at opened_game (0, 0) = mine_at opened_game (0, 0))
  ∧ (user_at opened_game (0, 0) = Some 0 →
     ∀ q, q ∈ neighbors (board_of opened_game) (0, 0).1 (0, 0).2 →
          is_hidden (user_at opened_game q) = false).
Proof.
  apply (play_shows_solution no_random 1 3 opened_game (0, 0)).
  - apply (played_reveal _ small_game 0 0 opened_game JNull);
      [apply played_start| |].
    + apply (bool_decide_unpack _). vm_compute. exact I.
    + vm_compute. reflexivity.
  - apply (bool_decide_unpack _). vm_compute. exact I.
Defined.

(** ** How a game ends *)

Lemma played_trans g0 g1 g2 : played g0 g1 → played g1 g2 → played g0 g2.
Proof.
  intros H01. induction 1 as [|g row col _ IH Hp|g row col g' ret _ IH Hp Hrun
                              |g row col g' ret _ IH Hp Hrun].
  - done.
  - by apply played_flag.
  - by eapply played_reveal.
  - by eapply played_chord.
Qed.

Lemma played_board_of g0 g : played g0 g → board_of g = board_of g0.
Proof. intros (Hm & _)%played_kept. unfold board_of. by rewrite Hm. Qed.

Lemma played_consistent random mines size g :
  played (Game.new random mines size) g → consistent g.
Proof. intros Hwf%played_wf. by apply game_wf_iff in Hwf as [? _]. Qed.

(** The flags counted are between none and all the cells. *)
Lemma played_flagCount random mines size g :
  played (Game.new random mines size) g →
  UserBoard.flagCount (Game.userBoard g)
  = count_tiles (UserBoard.base (Game.userBoard g)) Tile.FLAG
  ∧ 0 ≤ UserBoard.flagCount (Game.userBoard g) ≤ Z.max size 0 * Z.max size 0.
Proof.
  intros Hplayed.
  destruct (written_inv _ _ _ (played_written _ _ _ _ Hplayed))
    as (Hr & Hc & [Hflag _] & _).
  split; [done|]. rewrite Hflag. unfold count_tiles.
  pose proof (length_filter (holds (UserBoard.base (Game.userBoard g)) Tile.FLAG)
                (cells (UserBoard.base (Game.userBoard g)))) as Hle.
  pose proof (length_cells_max (UserBoard.base (Game.userBoard g))) as Hlen.
  rewrite Hr, Hc in Hlen. simpl in Hlen. lia.
Qed.

(** X12 ([Game.revealTile], [Game.validate]): a reveal of a hidden cell
    that holds a mine returns the [Error] 'mine revealed' and writes the
    mine into that cell of the user board, leaving every other cell as it
    was; whatever is played afterwards, [validate] returns [false]. *)
Theorem revealTile_mine_hit random mines size g row col :
  played (Game.new random mines size) g →
  in_range (board_of g) (row, col) →
  is_hidden (user_at g (row, col)) = true →
  mine_at g (row, col) = Some Tile.MINE →
  ∃ g', Game.revealTile row col g = Some (g', JError "mine revealed")
        ∧ user_at g' (row, col) = Some Tile.MINE
        ∧ (∀ q, in_range (board_of g) q → q ≠ (row, col) →
                user_at g' q = user_at g q)
        ∧ (∀ g'', played g' g'' → Game.validate g'' = false).
Proof.
  intros Hplayed Hp Hh Hmine. pose proof (played_consistent _ _ _ _ Hplayed) as Hcons.
  exists (uncovered g row col).
  assert (Game.revealTile row col g
          = Some (uncovered g row col, JError "mine revealed")) as Hrun.
  { unfold Game.revealTile, uncovered. rewrite revealTile_fuel_S. cbv zeta.
    change (UserBoard.getTile (Game.userBoard g) row col)
      with (user_at g (row, col)).
    change (MineBoard.getTile (Game.mineBoard g) row col)
      with (mine_at g (row, col)).
    rewrite Hh, Hmine. reflexivity. }
  assert (user_at (uncovered g row col) (row, col) = Some Tile.MINE) as Hshown.
  { rewrite (user_at_uncovered g row col (row, col)) by done.
    by rewrite decide_True. }
  split; [done|]. split; [done|]. split.
  - intros q Hq Hne. rewrite (user_at_uncovered g row col q) by done.
    by rewrite decide_False.
  - intros g'' Hplayed'.
    destruct (Game.validate g'') eqn:Hv; [exfalso|done].
    apply validate_spec in Hv as [_ Hv].
    pose proof (played_kept _ _ Hplayed') as Hk.
    assert (user_at g'' (row, col) = Some Tile.MINE) as Hu.
    { unfold user_at. cbn [fst snd]. rewrite (kept_getTile _ _ row col Hk).
      - exact Hshown.
      - change (UserBoard.getTile (Game.userBoard (uncovered g row col)) row col)
          with (user_at (uncovered g row col) (row, col)).
        by rewrite Hshown. }
    assert (board_of g'' = board_of g) as Hb.
    { by rewrite (played_board_of _ _ Hplayed'). }
    assert (mine_at g'' (row, col) = Some Tile.MINE) as Hm.
    { unfold mine_at, MineBoard.getTile. fold (board_of g''). by rewrite Hb. }
    specialize (Hv (row, col)). rewrite Hb in Hv.
    apply Hv in Hm; [|done]. rewrite Hu in Hm. discriminate Hm.
Qed.

Lemma revealTile_mine_hit_witness :
  ∃ g', Game.revealTile 2 2 small_game = Some (g', JError "mine revealed")
        ∧ user_at g' (2, 2) = Some Tile.MINE
        ∧ (∀ q, in_range (board_of small_game) q → q ≠ (2, 2) →
                user_at g' q = user_at small_game q)
        ∧ (∀ g'', played g' g'' → Game.validate g'' = false).
Proof.
  apply (revealTile_mine_hit no_random 1 3 small_game 2 2).
  - apply played_start.
  - apply (bool_decide_unpack _). vm_compute. exact I.
  - vm_compute. reflexivity.
  - vm_compute. reflexivity.
Defined.

(** X13 ([Game.validate], [MineBoard] constructor): [mineCount] is stored
    as given, so a game made with a negative number of mines, or with more
    mines than cells, never validates, whatever is played. *)
Theorem validate_false_out_of_range random mines size g :
  mines < 0 ∨ size * size < mines →
  played (Game.new random mines size) g →
  Game.validate g = false.
Proof.
  intros Hmines Hplayed.
  destruct (Game.validate g) eqn:Hv; [exfalso|done].
  apply validate_spec in Hv as [Hcount _].
  destruct (played_flagCount _ _ _ _ Hplayed) as [_ Hrange].
  destruct (played_kept _ _ Hplayed) as (Hm & _).
  rewrite Hm in Hcount. unfold Game.new in Hcount.
  cbn [Game.mineBoard] in Hcount.
  destruct (MineBoard_new_dims random mines size None) as (_ & _ & Hmc).
  rewrite Hmc in Hcount. nia.
Qed.

Lemma validate_false_out_of_range_witness :
  Game.validate (Game.flagTile 0 0 (Game.new no_random 10 3)) = false.
Proof.
  apply (validate_false_out_of_range no_random 10 3).
  - right. lia.
  - apply played_flag; [apply played_start|].
    apply (bool_decide_unpack _). vm_compute. exact I.
Defined.

(** The solution of a game holds no hidden tile. *)
Lemma solution_not_hidden random mines size g p :
  played (Game.new random mines size) g → in_range (board_of g) p →
  is_Some (mine_at g p) ∧ is_hidden (mine_at g p) = false.
Proof. intros Hcons%played_consistent Hp. by apply mine_at_shown. Qed.

Lemma solved_flags random mines size g p :
  played (Game.new random mines size) g → solved g → in_range (board_of g) p →
  mine_at g p = Some Tile.MINE ↔ user_at g p = Some Tile.FLAG.
Proof.
  intros Hplayed Hsolved Hp. specialize (Hsolved p Hp).
  case_decide as Hm; [done|]. split; [done|]. intros Hf.
  destruct (solution_not_hidden _ _ _ g p Hplayed Hp) as [_ Hnh].
  rewrite <- Hsolved, Hf in Hnh. done.
Qed.

Lemma win_spec random mines size g :
  0 ≤ size → 0 ≤ mines ≤ size * size →
  played (Game.new random mines size) g →
  UserBoard.completed (Game.userBoard g) = true ∧ Game.validate g = true
  ↔ solved g.
Proof.
  intros Hsize Hmines Hplayed.
  pose proof (played_wf _ _ _ _ Hplayed) as Hwf.
  pose proof (played_consistent _ _ _ _ Hplayed) as Hcons.
  pose proof (played_written _ _ _ _ Hplayed) as Hw.
  rewrite (completed_spec _ _ _ Hw), validate_spec.
  split.
  - intros (Hno & _ & Hflags) p Hp.
    destruct (Hflags p Hp) as [Hmf Hfm].
    case_decide as Hm; [by apply Hmf|].
    destruct Hwf as [_ _ _ Hshows _]. rewrite Forall_forall in Hshows.
    destruct (Hshows p ltac:(by apply elem_of_cells)) as [Hh|Heq]; [|done].
    exfalso. apply is_hidden_true in Hh as (v & Hv & Hhid).
    unfold Game.hidden in Hhid. apply orb_true_iff in Hhid as [Hu|Hf].
    + apply Z.eqb_eq in Hu. subst v.
      apply (Hno p); [by apply consistent_in_range|done].
    + apply Z.eqb_eq in Hf. subst v. by apply Hm, Hfm.
  - intros Hsolved.
    assert (∀ p, in_range (board_of g) p →
              mine_at g p = Some Tile.MINE ↔ user_at g p = Some Tile.FLAG)
      as Hflags by (intros p Hp; by eapply solved_flags).
    split; [|split; [|done]].
    + intros p Hp%(consistent_in_range g p Hcons) Hu.
      destruct (solution_not_hidden _ _ _ g p Hplayed Hp) as [_ Hnh].
      specialize (Hsolved p Hp). case_decide as Hm.
      * unfold user_at in Hsolved. rewrite Hu in Hsolved. discriminate Hsolved.
      * unfold user_at in Hsolved. rewrite <- Hsolved, Hu in Hnh. done.
    + destruct (played_flagCount _ _ _ _ Hplayed) as [-> _].
      destruct (played_kept _ _ Hplayed) as (Hm & _).
      change (Game.mineBoard (Game.new random mines size))
        with (MineBoard.new random mines size None) in Hm.
      destruct (MineBoard_new_dims random mines size None) as (Hr0 & Hc0 & Hmc).
      destruct (MineBoard_new_spec random mines size None) as [_ Hcount];
        [done|simpl; lia|].
      simpl in Hcount, Hc0.
      rewrite Hm, Hmc.
      transitivity (count_tiles (board_of g) Tile.MINE).
      * unfold count_tiles. destruct Hcons as (Hr & Hc & _).
        rewrite (cells_dims _ (board_of g) Hr Hc). f_equal. f_equal.
        apply filter_ext_elem. intros p Hp%elem_of_cells.
        symmetry. apply (Hflags p Hp).
      * unfold board_of. rewrite Hm, Hcount. lia.
Qed.

(** X14 ([UserBoard.completed], [Game.validate]): in a game made with a
    size that is not negative and a number of mines from 0 to the number of
    cells, however it was played, [completed] and [validate] are both true
    exactly when every mine is flagged and every other cell is revealed
    with the tile of the solution. *)
Theorem win_iff_solved random mines size g :
  0 ≤ size → 0 ≤ mines ≤ size * size →
  played (Game.new random mines size) g →
  UserBoard.completed (Game.userBoard g) = true ∧ Game.validate g = true
  ↔ solved g.
Proof. apply win_spec. Qed.

Lemma win_iff_solved_witness :
  UserBoard.completed (Game.userBoard (Game.flagTile 2 2 opened_game)) = true
  ∧ Game.validate (Game.flagTile 2 2 opened_game) = true
  ↔ solved (Game.flagTile 2 2 opened_game).
Proof.
  apply (win_iff_solved no_random 1 3 (Game.flagTile 2 2 opened_game)).
  - lia.
  - lia.
  - apply played_flag.
    + apply (played_reveal _ small_game 0 0 opened_game JNull);
        [apply played_start| |].
      * apply (bool_decide_unpack _). vm_compute. exact I.
      * vm_compute. reflexivity.
    + apply (bool_decide_unpack _). vm_compute. exact I.
Defined.

(** ** The chord with correct flags *)

Lemma length_filter_impl {A} (P Q : A → Prop) `{∀ x, Decision (P x)}
    `{∀ x, Decision (Q x)} (l : list A) :
  (∀ x, x ∈ l → P x → Q x) →
  (length (filter P l) ≤ length (filter Q l))%nat.
Proof.
  induction l as [|x l IH]; intros Himp; [done|].
  assert (length (filter P l) ≤ length (filter Q l))%nat as IH'.
  { apply IH. intros y Hy. apply Himp, elem_of_cons. by right. }
  rewrite !filter_cons.
  destruct (decide (P x)) as [HP|HP].
  - rewrite decide_True by (apply Himp; [apply elem_of_cons; by left|done]).
    simpl. lia.
  - destruct (decide (Q x)); simpl; lia.
Qed.

(** Within a list, a property that implies another one and holds at least
    as often holds of the same elements. *)
Lemma filter_impl_same {A} (P Q : A → Prop) `{∀ x, Decision (P x)}
    `{∀ x, Decision (Q x)} (l : list A) :
  (∀ x, x ∈ l → P x → Q x) →
  (length (filter Q l) ≤ length (filter P l))%nat →
  ∀ x, x ∈ l → Q x → P x.
Proof.
  induction l as [|x l IH]; intros Himp Hlen y Hy HQ.
  { by apply elem_of_nil in Hy. }
  assert (∀ z, z ∈ l → P z → Q z) as Himp'.
  { intros z Hz. apply Himp, elem_of_cons. by right. }
  pose proof (length_filter_impl P Q l Himp') as Hle.
  rewrite !filter_cons in Hlen.
  destruct (decide (P x)) as [HP|HP].
  - rewrite decide_True in Hlen
      by (apply Himp; [apply elem_of_cons; by left|done]).
    simpl in Hlen. apply elem_of_cons in Hy as [->|Hy]; [done|].
    apply IH; [done|lia|done|done].
  - destruct (decide (Q x)) as [HQx|HQx]; simpl in Hlen; [lia|].
    apply elem_of_cons in Hy as [->|Hy]; [done|].
    apply IH; [done|lia|done|done].
Qed.

(** A cell that a reveal may touch, other than the one it starts at, holds
    no mine. *)
Lemma touched_no_mine b p q :
  adjacency_ok b → touched b p q → q ≠ p → ¬ holds b Tile.MINE q.
Proof.
  intros Hok [->|(z & Hz & Hadj & Hq)] Hne; [done|].
  destruct (zero_region_inv _ _ _ Hz) as (_ & _ & Hzr & Hz0).
  apply (zero_no_mine_neighbor b z q Hok Hzr Hz0).
  apply elem_of_neighbors. destruct z. by split.
Qed.

Lemma not_hidden_iff t :
  is_hidden t = false ↔ t ≠ Some Tile.UNKNOWN ∧ t ≠ Some Tile.FLAG.
Proof.
  destruct t as [v|]; unfold is_hidden, tile_eq; [|by split].
  rewrite orb_false_iff, !Z.eqb_neq. split.
  - intros [??]. split; congruence.
  - intros [??]. split; congruence.
Qed.

Lemma mine_at_played g0 g q : played g0 g → mine_at g q = mine_at g0 q.
Proof. intros (Hm & _)%played_kept. unfold mine_at. by rewrite Hm. Qed.

(** The chord over cells none of which hides a mine without a flag. *)
Lemma Chord_safe random mines size g0 (N : list cell) l g g' ok :
  Chord l g g' ok →
  played (Game.new random mines size) g0 →
  played g0 g →
  (∀ q, q ∈ l → q ∈ N) →
  (∀ q, q ∈ N → in_range (board_of g0) q) →
  (∀ q, q ∈ N → mine_at g0 q = Some Tile.MINE ↔ user_at g q = Some Tile.FLAG) →
  ok = true
  ∧ played g0 g'
  ∧ (∀ q, q ∈ N →
       mine_at g0 q = Some Tile.MINE ↔ user_at g' q = Some Tile.FLAG)
  ∧ (∀ q, q ∈ l → mine_at g0 q ≠ Some Tile.MINE →
          is_hidden (user_at g' q) = false).
Proof.
  intros Hchord Hplayed0.
  induction Hchord as [g|p l g g' ok Hnu Hrest IH
                       |p l g g1 ret g' ok Hu Hrun Hne Hrest IH
                       |p l g g1 ret Hu Hrun Herr];
    intros Hplayed Hl HN Hflags.
  - split; [done|]. split; [done|]. split; [done|].
    intros q Hq. by apply elem_of_nil in Hq.
  - destruct IH as (-> & Hplayed' & Hflags' & Hshown); [done| |done|done|].
    { intros q Hq. apply Hl, elem_of_cons. by right. }
    split; [done|]. split; [done|]. split; [done|].
    intros q [->|Hq]%elem_of_cons Hnm; [|by apply Hshown].
    assert (p ∈ N) as HpN by (apply Hl, elem_of_cons; by left).
    assert (is_hidden (user_at g p) = false) as Hh.
    { apply not_hidden_iff. split; [done|]. intros Hf. by apply Hnm, Hflags. }
    unfold user_at. rewrite (kept_getTile g g' _ _ (Chord_kept _ _ _ _ Hrest) Hh).
    exact Hh.
  - assert (p ∈ N) as HpN by (apply Hl, elem_of_cons; by left).
    pose proof (played_board_of _ _ Hplayed) as Hb.
    assert (in_range (board_of g) p) as Hp by (rewrite Hb; by apply HN).
    pose proof (played_consistent _ _ _ _ (played_trans _ _ _ Hplayed0 Hplayed))
      as Hcons.
    assert (played g0 g1) as Hplayed1.
    { apply (played_reveal g0 g p.1 p.2 g1 ret Hplayed); [by destruct p|done]. }
    pose proof (revealTile_fuel_correct _ g p.1 p.2 g1 ret Hcons
                  ltac:(by destruct p) Hrun) as Hfrom.
    replace (p.1, p.2) with p in Hfrom by (by destruct p).
    destruct Hfrom as (_ & _ & _ & Hframe & Hshownp & _).
    assert (∀ q, q ∈ N →
              mine_at g0 q = Some Tile.MINE ↔ user_at g1 q = Some Tile.FLAG)
      as Hflags1.
    { intros q Hq.
      assert (in_range (board_of g) q) as Hqr by (rewrite Hb; by apply HN).
      destruct (Hframe q Hqr) as [->|(_ & Heq & Htouched)]; [by apply Hflags|].
      rewrite Heq, (mine_at_played g0 g q Hplayed).
      destruct (mine_at_shown g q Hcons Hqr) as [_ Hnh].
      rewrite (mine_at_played g0 g q Hplayed) in Hnh.
      split.
      - intros Hmine. exfalso. destruct (decide (q = p)) as [->|Hqp].
        + apply Hflags in Hmine; [|done]. rewrite Hu in Hmine. discriminate Hmine.
        + destruct Hcons as (_ & _ & Hok & _).
          assert (holds (board_of g) Tile.MINE q) as Hholds.
          { unfold holds. change (mine_at g q = Some Tile.MINE).
            by rewrite (mine_at_played g0 g q Hplayed). }
          exact (touched_no_mine _ _ _ Hok Htouched Hqp Hholds).
      - intros Hf. rewrite Hf in Hnh. done. }
    destruct IH as (-> & Hplayed' & Hflags' & Hshown); [done| |done|done|].
    { intros q Hq. apply Hl, elem_of_cons. by right. }
    split; [done|]. split; [done|]. split; [done|].
    intros q [->|Hq]%elem_of_cons Hnm; [|by apply Hshown].
    unfold user_at.
    rewrite (kept_getTile g1 g' _ _ (Chord_kept _ _ _ _ Hrest) Hshownp).
    exact Hshownp.
  - exfalso.
    assert (p ∈ N) as HpN by (apply Hl, elem_of_cons; by left).
    destruct (revealTile_error_iff _ g p.1 p.2 g1 ret Hrun) as [Hiff _].
    apply Hiff in Herr as [_ Hmine].
    replace (p.1, p.2) with p in Hmine by (by destruct p).
    rewrite (mine_at_played g0 g p Hplayed) in Hmine.
    apply Hflags in Hmine; [|done]. rewrite Hu in Hmine. discriminate Hmine.
Qed.

Lemma played_defined random mines size g p :
  played (Game.new random mines size) g → in_range (board_of g) p →
  is_Some (user_at g p).
Proof.
  intros Hplayed Hp.
  destruct (written_inv _ _ _ (played_written _ _ _ _ Hplayed))
    as (_ & _ & _ & Hdef).
  apply Hdef. by apply (consistent_in_range g p (played_consistent _ _ _ _ Hplayed)).
Qed.

(** X15 ([Game.revealUnknownAdjacent]): in a game made by the constructor
    and played at cells of the board, a chord at a cell none of whose
    neighbours carries a wrong flag never reveals a mine: it returns
    [null].  When the cell shows a count that the flags around it reach,
    every neighbour without a mine ends up revealed with the tile of the
    solution and the mines around keep their flags; otherwise the game is
    as it was. *)
Theorem chord_with_correct_flags random mines size g row col :
  played (Game.new random mines size) g →
  in_range (board_of g) (row, col) →
  (∀ q, q ∈ neighbors (board_of g) row col →
        user_at g q = Some Tile.FLAG → mine_at g q = Some Tile.MINE) →
  ∃ g', Game.revealUnknownAdjacent row col g = Some (g', JNull)
        ∧ ∀ v, user_at g (row, col) = Some v →
            if decide (0 ≤ v ≤ flags_around g row col)
            then ∀ q, q ∈ neighbors (board_of g) row col →
                   user_at g' q
                   = if decide (mine_at g q = Some Tile.MINE)
                     then Some Tile.FLAG else mine_at g q
            else g' = g.
Proof.
  intros Hplayed Hp Hcorrect.
  pose proof (played_wf _ _ _ _ Hplayed) as Hwf.
  pose proof (played_consistent _ _ _ _ Hplayed) as Hcons.
  destruct (played_defined _ _ _ g (row, col) Hplayed Hp) as [v Hv].
  destruct (revealUnknownAdjacent_cases g row col) as [Hnoop Hchord].
  assert (neighbors (UserBoard.base (Game.userBoard g)) row col
          = neighbors (board_of g) row col) as HN.
  { destruct Hcons as (Hr & Hc & _). by apply neighbors_dims. }
  destruct (decide (v < 0 ∨ flags_around g row col < v)) as [Hc|Hc].
  { exists g. split; [apply Hnoop; by exists v|].
    intros v' Hv'. rewrite Hv in Hv'. injection Hv' as <-.
    rewrite decide_False by lia. done. }
  destruct Hchord as (g' & ok & Hrun & HChord & _).
  { intros (v' & Hv' & ?). rewrite Hv in Hv'. by injection Hv' as <-. }
  rewrite HN in HChord.
  (* the tile shown is the number of mines around *)
  assert (v = mine_neighbors (board_of g) (row, col)) as Hcount.
  { destruct Hwf as [_ _ Hok Hshows _]. rewrite Forall_forall in Hshows.
    destruct (Hshows (row, col) ltac:(by apply elem_of_cells)) as [Hh|Heq].
    - exfalso. rewrite Hv in Hh. apply is_hidden_true in Hh as (w & [= <-] & Hw).
      unfold Game.hidden, Tile.UNKNOWN, Tile.FLAG in Hw.
      apply orb_true_iff in Hw as [?%Z.eqb_eq|?%Z.eqb_eq]; lia.
    - destruct (adjacency_ok_cell _ (row, col) Hok Hp) as [Hm|Hm].
      + exfalso. unfold holds in Hm.
        change (Board.getTile (board_of g) (row, col).1 (row, col).2)
          with (mine_at g (row, col)) in Hm.
        rewrite <- Heq, Hv in Hm. injection Hm as Hm.
        unfold Tile.MINE in Hm. lia.
      + unfold holds in Hm.
        change (Board.getTile (board_of g) (row, col).1 (row, col).2)
          with (mine_at g (row, col)) in Hm.
        rewrite <- Heq, Hv in Hm. by injection Hm. }
  (* so the flags are exactly on the mines *)
  assert (∀ q, q ∈ neighbors (board_of g) row col →
            mine_at g q = Some Tile.MINE ↔ user_at g q = Some Tile.FLAG)
    as Hflags.
  { intros q Hq. split; [|by apply Hcorrect].
    apply (filter_impl_same (λ p, user_at g p = Some Tile.FLAG)
             (holds (board_of g) Tile.MINE) (neighbors (board_of g) row col));
      [done| |done].
    unfold flags_around in Hc. rewrite HN in Hc.
    unfold mine_neighbors in Hcount. cbn [fst snd] in Hcount. lia. }
  destruct (Chord_safe random mines size g (neighbors (board_of g) row col)
              _ g g' ok HChord Hplayed (played_start g))
    as (-> & Hplayed' & Hflags' & Hshown); [done| |done|].
  { by intros q [_ ?]%elem_of_neighbors. }
  exists g'. split; [done|].
  intros v' Hv'. rewrite Hv in Hv'. injection Hv' as <-.
  rewrite decide_True by lia. intros q Hq.
  case_decide as Hm; [by apply Hflags'|].
  pose proof (played_trans _ _ _ Hplayed Hplayed') as Hplayed0'.
  destruct (played_wf _ _ _ _ Hplayed0') as [_ _ _ Hshows _].
  rewrite Forall_forall in Hshows.
  assert (in_range (board_of g') q) as Hqr.
  { rewrite (played_board_of _ _ Hplayed').
    by apply elem_of_neighbors in Hq as [_ ?]. }
  destruct (Hshows q ltac:(by apply elem_of_cells)) as [Hh|Heq].
  - rewrite (Hshown q Hq Hm) in Hh. done.
  - by rewrite Heq, (mine_at_played g g' q Hplayed').
Qed.

Lemma chord_with_correct_flags_witness :
  ∃ g', Game.revealUnknownAdjacent 1 1 flagged_game = Some (g', JNull)
        ∧ ∀ v, user_at flagged_game (1, 1) = Some v →
            if decide (0 ≤ v ≤ flags_around flagged_game 1 1)
            then ∀ q, q ∈ neighbors (board_of flagged_game) 1 1 →
                   user_at g' q
                   = if decide (mine_at flagged_game q = Some Tile.MINE)
                     then Some Tile.FLAG else mine_at flagged_game q
            else g' = flagged_game.
Proof.
  apply (chord_with_correct_flags no_random 1 3 flagged_game 1 1).
  - apply played_flag.
    + apply (played_reveal _ small_game 1 1 probed_game JNull);
        [apply played_start| |].
      * apply (bool_decide_unpack _). vm_compute. exact I.
      * vm_compute. reflexivity.
    + apply (bool_decide_unpack _). vm_compute. exact I.
  - apply (bool_decide_unpack _). vm_compute. exact I.
  - apply (proj1 (Forall_forall
             (λ q, user_at flagged_game q = Some Tile.FLAG →
                   mine_at flagged_game q = Some Tile.MINE)
             (neighbors (board_of flagged_game) 1 1))).
    apply (bool_decide_unpack _). vm_compute. exact I.
Defined.

(** ** [toString] *)

Lemma app_String a s1 s2 : String a s1 +:+ s2 = String a (s1 +:+ s2).
Proof. reflexivity. Qed.

Lemma string_length_app s1 s2 :
  String.length (s1 +:+ s2) = (String.length s1 + String.length s2)%nat.
Proof.
  induction s1 as [|a s1 IH]; [done|].
  rewrite app_String. cbn [String.length]. by rewrite IH.
Qed.

Lemma get_app_l s1 s2 i :
  (i < String.length s1)%nat → String.get i (s1 +:+ s2) = String.get i s1.
Proof. intros Hi. symmetry. by apply String.append_correct1. Qed.

Lemma get_app_r s1 s2 i :
  String.get (String.length s1 + i) (s1 +:+ s2) = String.get i s2.
Proof. rewrite Nat.add_comm. symmetry. apply String.append_correct2. Qed.

Lemma length_edge_loop n s :
  String.length (Board.edge_loop n s) = (String.length s + n)%nat.
Proof.
  revert s. induction n as [|n IH]; intros s; cbn [Board.edge_loop]; [lia|].
  rewrite IH, string_length_app. simpl. lia.
Qed.

Lemma tile_text_is_Some tile : is_Some (Board.tile_text tile) ↔ is_Some tile.
Proof. destruct tile; simpl; split; intros [? ?]; eauto; done. Qed.

(** The inner loop writes four characters for a cell, the second of which
    is the tile when its text is one character long. *)
Lemma row_loop_spec b r n :
  ∀ c rowBuf,
    (∀ j, (j < n)%nat →
       ∃ text, Board.tile_text (Board.getTile b r (c + Z.of_nat j)) = Some text
               ∧ String.length text = 1%nat) →
    ∃ out,
      Board.row_loop b r n c rowBuf = Some out
      ∧ String.length out = (String.length rowBuf + 4 * n)%nat
      ∧ (∀ i, (i < String.length rowBuf)%nat →
              String.get i out = String.get i rowBuf)
      ∧ ∀ j, (j < n)%nat →
          String.get (String.length rowBuf + 4 * j + 1) out
          = tile_char (Board.getTile b r (c + Z.of_nat j)).
Proof.
  induction n as [|n IH]; intros c rowBuf Htexts.
  { exists rowBuf. cbn [Board.row_loop]. repeat split; [lia|lia..]. }
  cbn [Board.row_loop].
  destruct (Htexts 0%nat ltac:(lia)) as (text & Htext & Hlen).
  rewrite Z.add_0_r in Htext. rewrite Htext.
  destruct text as [|a [|]]; try done.
  destruct (IH (c + 1) (rowBuf +:+ " " +:+ String a "" +:+ " |"))
    as (out & Hrun & Hlen' & Hkeep & Hshow).
  { intros j Hj. replace (c + 1 + Z.of_nat j) with (c + Z.of_nat (S j)) by lia.
    apply Htexts. lia. }
  rewrite string_length_app in Hlen', Hkeep, Hshow.
  change (String.length (" " +:+ String a "" +:+ " |")) with 4%nat
    in Hlen', Hkeep, Hshow.
  exists out. split; [done|]. split; [lia|]. split.
  - intros i Hi. rewrite Hkeep by lia. by apply get_app_l.
  - intros [|j] Hj.
    + rewrite Hkeep by lia.
      replace (String.length rowBuf + 4 * 0 + 1)%nat
        with (String.length rowBuf + 1)%nat by lia.
      rewrite get_app_r, Z.add_0_r. unfold tile_char. rewrite Htext. done.
    + replace (String.length rowBuf + 4 * S j + 1)%nat
        with (String.length rowBuf + 4 + 4 * j + 1)%nat by lia.
      rewrite Hshow by lia. do 2 f_equal. lia.
Qed.

Lemma row_loop_is_Some b r n :
  ∀ c rowBuf,
    is_Some (Board.row_loop b r n c rowBuf)
    ↔ ∀ j, (j < n)%nat → is_Some (Board.getTile b r (c + Z.of_nat j)).
Proof.
  induction n as [|n IH]; intros c rowBuf; cbn [Board.row_loop].
  { split; [lia|by eexists]. }
  destruct (Board.getTile b r c) as [v|] eqn:Hv; cbn [Board.tile_text].
  - rewrite IH. split.
    + intros Hrest [|j] Hj.
      * rewrite Z.add_0_r, Hv. by eexists.
      * replace (c + Z.of_nat (S j)) with (c + 1 + Z.of_nat j) by lia.
        apply Hrest. lia.
    + intros Hall j Hj.
      replace (c + 1 + Z.of_nat j) with (c + Z.of_nat (S j)) by lia.
      apply Hall. lia.
  - split; [by intros [? ?]|]. intros Hall.
    specialize (Hall 0%nat ltac:(lia)). rewrite Z.add_0_r, Hv in Hall.
    by destruct Hall.
Qed.

(** The outer loop pushes two lines for a row: the row and the edge. *)
Lemma rows_loop_spec b edge n :
  ∀ r lineBuf,
    (∀ k j, (k < n)%nat → (j < Z.to_nat (Board.colCount b))%nat →
       ∃ text, Board.tile_text
                 (Board.getTile b (r + Z.of_nat k) (Z.of_nat j)) = Some text
               ∧ String.length text = 1%nat) →
    ∃ out,
      Board.rows_loop b edge n r lineBuf = Some out
      ∧ length out = (length lineBuf + 2 * n)%nat
      ∧ (∀ i, (i < length lineBuf)%nat → out !! i = lineBuf !! i)
      ∧ ∀ k, (k < n)%nat →
          (∃ line,
             out !! (length lineBuf + 2 * k)%nat = Some line
             ∧ String.length line = (1 + 4 * Z.to_nat (Board.colCount b))%nat
             ∧ ∀ j, (j < Z.to_nat (Board.colCount b))%nat →
                 String.get (4 * j + 2) line
                 = tile_char (Board.getTile b (r + Z.of_nat k) (Z.of_nat j)))
          ∧ out !! (length lineBuf + 2 * k + 1)%nat = Some edge.
Proof.
  induction n as [|n IH]; intros r lineBuf Htexts.
  { exists lineBuf. cbn [Board.rows_loop]. repeat split; [lia|lia..]. }
  cbn [Board.rows_loop].
  destruct (row_loop_spec b r (Z.to_nat (Board.colCount b)) 0 "|")
    as (rowBuf & Hrow & Hlen & _ & Hshow).
  { intros j Hj. rewrite Z.add_0_l.
    specialize (Htexts 0%nat j ltac:(lia) Hj). by rewrite Z.add_0_r in Htexts. }
  rewrite Hrow.
  destruct (IH (r + 1) (lineBuf ++ [rowBuf; edge]))
    as (out & Hrun & Hlen' & Hkeep & Hrows).
  { intros k j Hk Hj.
    replace (r + 1 + Z.of_nat k) with (r + Z.of_nat (S k)) by lia.
    apply Htexts; lia. }
  rewrite length_app in Hlen', Hkeep, Hrows. cbn [length] in Hlen', Hkeep, Hrows.
  exists out. split; [done|]. split; [lia|]. split.
  - intros i Hi. rewrite Hkeep by lia. by apply lookup_app_l.
  - intros [|k] Hk.
    + split.
      * exists rowBuf. split.
        { rewrite Hkeep by lia. rewrite lookup_app_r by lia.
          by replace (length lineBuf + 2 * 0 - length lineBuf)%nat with 0%nat by lia. }
        split; [simpl in Hlen; lia|].
        intros j Hj. rewrite Z.add_0_r.
        specialize (Hshow j Hj). rewrite Z.add_0_l in Hshow.
        rewrite <- Hshow. f_equal. simpl. lia.
      * rewrite Hkeep by lia. rewrite lookup_app_r by lia.
        by replace (length lineBuf + 2 * 0 + 1 - length lineBuf)%nat with 1%nat by lia.
    + destruct (Hrows k ltac:(lia)) as [(line & Hline & Hwidth & Htiles) Hedge].
      split.
      * exists line. split.
        { rewrite <- Hline. f_equal. lia. }
        split; [done|]. intros j Hj. rewrite (Htiles j Hj).
        do 2 f_equal. lia.
      * rewrite <- Hedge. f_equal. lia.
Qed.

Lemma rows_loop_is_Some b edge n :
  ∀ r lineBuf,
    is_Some (Board.rows_loop b edge n r lineBuf)
    ↔ ∀ k j, (k < n)%nat → (j < Z.to_nat (Board.colCount b))%nat →
             is_Some (Board.getTile b (r + Z.of_nat k) (Z.of_nat j)).
Proof.
  induction n as [|n IH]; intros r lineBuf; cbn [Board.rows_loop].
  { split; [lia|by eexists]. }
  destruct (Board.row_loop b r (Z.to_nat (Board.colCount b)) 0 "|")
    as [rowBuf|] eqn:Hrow.
  - assert (∀ j, (j < Z.to_nat (Board.colCount b))%nat →
              is_Some (Board.getTile b r (Z.of_nat j))) as Hr.
    { intros j Hj.
      pose proof (proj1 (row_loop_is_Some b r _ 0 "|") ltac:(by rewrite Hrow) j Hj)
        as Hs. by rewrite Z.add_0_l in Hs. }
    rewrite IH. split.
    + intros Hrest [|k] j Hk Hj.
      * rewrite Z.add_0_r. by apply Hr.
      * replace (r + Z.of_nat (S k)) with (r + 1 + Z.of_nat k) by lia.
        apply Hrest; lia.
    + intros Hall k j Hk Hj.
      replace (r + 1 + Z.of_nat k) with (r + Z.of_nat (S k)) by lia.
      apply Hall; lia.
  - split; [by intros [? ?]|]. intros Hall. exfalso.
    assert (is_Some (Board.row_loop b r (Z.to_nat (Board.colCount b)) 0 "|"))
      as [? Hs]; [|congruence].
    apply row_loop_is_Some. intros j Hj. rewrite Z.add_0_l.
    specialize (Hall 0%nat j ltac:(lia) Hj). by rewrite Z.add_0_r in Hall.
Qed.

(** X16 ([Board.toString]): [toString] returns a text exactly when every
    cell of the board holds a tile; on a board with a cell that is
    [undefined] it throws. *)
Theorem toString_returns_iff b :
  is_Some (Board.toString b)
  ↔ ∀ p, in_range b p → is_Some (Board.getTile b p.1 p.2).
Proof.
  unfold Board.toString.
  transitivity (is_Some (Board.rows_loop b
    (Board.edge_loop (Z.to_nat (Board.colCount b * 4 + 1)) "")
    (Z.to_nat (Board.rowCount b)) 0
    [Board.edge_loop (Z.to_nat (Board.colCount b * 4 + 1)) ""])).
  { destruct (Board.rows_loop _ _ _ _ _); split; intros [? ?];
      first [done|by eexists]. }
  rewrite rows_loop_is_Some. split.
  - intros Hall [r c] [Hr Hc]. simpl in Hr, Hc. simpl.
    specialize (Hall (Z.to_nat r) (Z.to_nat c) ltac:(lia) ltac:(lia)).
    by rewrite Z.add_0_l, !Z2Nat.id in Hall by lia.
  - intros Hall k j Hk Hj.
    apply (Hall (0 + Z.of_nat k, Z.of_nat j)). split; simpl; lia.
Qed.

(** The text of a board all of whose tiles take one character. *)
Lemma toString_grid b :
  0 ≤ Board.rowCount b → 0 ≤ Board.colCount b →
  (∀ p, in_range b p →
     ∃ text, Board.tile_text (Board.getTile b p.1 p.2) = Some text
             ∧ String.length text = 1%nat) →
  ∃ lines, Board.toString b = Some (String.concat Board.newline lines)
           ∧ grid_of b lines.
Proof.
  intros Hr Hc Htexts. unfold Board.toString.
  set (edge := Board.edge_loop (Z.to_nat (Board.colCount b * 4 + 1)) "").
  destruct (rows_loop_spec b edge (Z.to_nat (Board.rowCount b)) 0 [edge])
    as (lines & Hrun & Hlen & Hkeep & Hrows).
  { intros k j Hk Hj.
    apply (Htexts (0 + Z.of_nat k, Z.of_nat j)). split; simpl; lia. }
  cbn [length] in Hlen, Hkeep, Hrows.
  rewrite Hrun. exists lines. split; [done|].
  assert (String.length edge = Z.to_nat (4 * Board.colCount b + 1)) as Hedge.
  { unfold edge. rewrite length_edge_loop. simpl. f_equal. lia. }
  split; [lia|]. split.
  - apply Forall_lookup. intros i line Hi.
    assert (i < length lines)%nat as Hlt by (by eapply lookup_lt_Some).
    destruct (decide (i = 0%nat)) as [->|Hi0].
    { rewrite Hkeep in Hi by lia. by injection Hi as <-. }
    destruct (Hrows ((i - 1) / 2)%nat) as [(row & Hrow & Hwidth & _) Hedge'].
    { apply Nat.Div0.div_lt_upper_bound. lia. }
    pose proof (Nat.div_mod_eq (i - 1) 2) as Hdiv.
    pose proof (Nat.mod_upper_bound (i - 1) 2 ltac:(lia)) as Hmod.
    destruct (decide ((i - 1) mod 2 = 0)%nat) as [H0|H1].
    + replace (1 + 2 * ((i - 1) / 2))%nat with i in Hrow by lia.
      rewrite Hi in Hrow. injection Hrow as <-. lia.
    + replace (1 + 2 * ((i - 1) / 2) + 1)%nat with i in Hedge' by lia.
      rewrite Hi in Hedge'. by injection Hedge' as <-.
  - intros [r c] [Hpr Hpc]. simpl in Hpr, Hpc. cbn [fst snd].
    destruct (Hrows (Z.to_nat r) ltac:(lia)) as [(line & Hline & _ & Htiles) _].
    exists line. split.
    { rewrite <- Hline. f_equal. lia. }
    specialize (Htiles (Z.to_nat c) ltac:(lia)).
    rewrite Z.add_0_l, !Z2Nat.id in Htiles by lia.
    rewrite <- Htiles. f_equal. lia.
Qed.

Lemma tile_text_single v :
  -3 ≤ v ≤ 9 →
  ∃ text, Board.tile_text (Some v) = Some text ∧ String.length text = 1%nat.
Proof.
  intros Hv.
  assert (v = -3 ∨ v = -2 ∨ v = -1 ∨ v = 0 ∨ v = 1 ∨ v = 2 ∨ v = 3 ∨ v = 4
          ∨ v = 5 ∨ v = 6 ∨ v = 7 ∨ v = 8 ∨ v = 9) as Hcases by lia.
  repeat (destruct Hcases as [->|Hcases]); [..|subst v];
    eexists; (split; [reflexivity|vm_compute; reflexivity]).
Qed.

Lemma played_dims random mines size g :
  played (Game.new random mines size) g →
  Board.rowCount (board_of g) = size ∧ Board.colCount (board_of g) = size
  ∧ Board.rowCount (UserBoard.base (Game.userBoard g)) = size
  ∧ Board.colCount (UserBoard.base (Game.userBoard g)) = size.
Proof.
  intros Hplayed.
  destruct (played_consistent _ _ _ _ Hplayed) as (Hr & Hc & _).
  rewrite Hr, Hc, (played_board_of _ _ Hplayed).
  destruct (MineBoard_new_dims random mines size None) as (Hr0 & Hc0 & _).
  by repeat split.
Qed.

(** The tiles of a game: a mine or a count up to 8 in the solution; these,
    [UNKNOWN] or [FLAG] on the user board. *)
Lemma played_tiles random mines size g p :
  played (Game.new random mines size) g → in_range (board_of g) p →
  (∃ v, mine_at g p = Some v ∧ -1 ≤ v ≤ 8)
  ∧ (∃ v, user_at g p = Some v ∧ -3 ≤ v ≤ 8).
Proof.
  intros Hplayed Hp.
  pose proof (played_wf _ _ _ _ Hplayed) as [_ _ Hok Hshows _].
  assert (∃ v, mine_at g p = Some v ∧ -1 ≤ v ≤ 8) as Hmine.
  { destruct (adjacency_ok_cell _ p Hok Hp) as [Hm|Hm].
    - exists Tile.MINE. split; [done|]. unfold Tile.MINE. lia.
    - eexists. split; [exact Hm|].
      pose proof (mine_neighbors_nonneg (board_of g) p).
      pose proof (mine_neighbors_le (board_of g) p). lia. }
  split; [done|]. rewrite Forall_forall in Hshows.
  destruct (Hshows p ltac:(by apply elem_of_cells)) as [Hh|Heq].
  - apply is_hidden_true in Hh as (v & Hv & Hhid). exists v. split; [done|].
    unfold Game.hidden, Tile.UNKNOWN, Tile.FLAG in Hhid.
    apply orb_true_iff in Hhid as [?%Z.eqb_eq|?%Z.eqb_eq]; lia.
  - destruct Hmine as (v & Hv & ?). exists v. split; [congruence|lia].
Qed.

(** X17 ([Game.toString], [Game.cheat], [Board.toString]): in a game made
    by the constructor with a size that is not negative and played at
    cells of the board, [toString] and [cheat] never throw; each gives
    2 * size + 1 lines of 4 * size + 1 characters joined by line feeds, the
    tile of the cell (r, c) being the character at position 4 * c + 2 of
    line 2 * r + 1. *)
Theorem game_text_grid random mines size g :
  0 ≤ size →
  played (Game.new random mines size) g →
  Board.rowCount (UserBoard.base (Game.userBoard g)) = size
  ∧ Board.colCount (UserBoard.base (Game.userBoard g)) = size
  ∧ Board.rowCount (board_of g) = size
  ∧ Board.colCount (board_of g) = size
  ∧ ∃ user_lines mine_lines,
      Game.toString g = Some (String.concat Board.newline user_lines)
      ∧ grid_of (UserBoard.base (Game.userBoard g)) user_lines
      ∧ Game.cheat g = Some (String.concat Board.newline mine_lines)
      ∧ grid_of (board_of g) mine_lines.
Proof.
  intros Hsize Hplayed.
  destruct (played_dims _ _ _ _ Hplayed) as (Hmr & Hmc & Hur & Huc).
  pose proof (played_consistent _ _ _ _ Hplayed) as Hcons.
  split; [done|]. split; [done|]. split; [done|]. split; [done|].
  destruct (toString_grid (UserBoard.base (Game.userBoard g)))
    as (user_lines & Huser & Hugrid); [lia|lia| |].
  { intros p Hp%(consistent_in_range g p Hcons).
    destruct (played_tiles _ _ _ g p Hplayed Hp) as [_ (v & Hv & ?)].
    unfold user_at, UserBoard.getTile in Hv. rewrite Hv.
    apply tile_text_single. lia. }
  destruct (toString_grid (board_of g))
    as (mine_lines & Hmine & Hmgrid); [lia|lia| |].
  { intros p Hp.
    destruct (played_tiles _ _ _ g p Hplayed Hp) as [(v & Hv & ?) _].
    unfold mine_at, MineBoard.getTile in Hv. fold (board_of g) in Hv.
    rewrite Hv. apply tile_text_single. lia. }
  by exists user_lines, mine_lines.
Qed.

Lemma game_text_grid_witness :
  Board.rowCount (UserBoard.base (Game.userBoard flagged_game)) = 3
  ∧ Board.colCount (UserBoard.base (Game.userBoard flagged_game)) = 3
  ∧ Board.rowCount (board_of flagged_game) = 3
  ∧ Board.colCount (board_of flagged_game) = 3
  ∧ ∃ user_lines mine_lines,
      Game.toString flagged_game
      = Some (String.concat Board.newline user_lines)
      ∧ grid_of (UserBoard.base (Game.userBoard flagged_game)) user_lines
      ∧ Game.cheat flagged_game
        = Some (String.concat Board.newline mine_lines)
      ∧ grid_of (board_of flagged_game) mine_lines.
Proof.
  apply (game_text_grid no_random 1 3 flagged_game).
  - lia.
  - apply played_flag.
    + apply (played_reveal _ small_game 1 1 probed_game JNull);
        [apply played_start| |].
      * apply (bool_decide_unpack _). vm_compute. exact I.
      * vm_compute. reflexivity.
    + apply (bool_decide_unpack _). vm_compute. exact I.
Defined.

(** ** The click handler of the controller *)









(** ** The cells an iteration calls back on *)

Lemma note_fold (this : list cell → Board.t) l log :
  foldl (call this
           (λ (r c : Z) (_ : option Z) (log : list cell),
              (log ++ [(r, c)], JUndefined))) log l
  = log ++ l.
Proof.
  revert log. induction l as [|[r c] l IH]; intros log; simpl.
  - by rewrite app_nil_r.
  - unfold call at 2. simpl. rewrite IH. by rewrite <- app_assoc.
Qed.

(** X19 ([Board.forEachTile], [Board.forEachBoundaryTile]): with a callback
    that never returns [false], [forEachTile] calls back once on every
    cell of the board, in row-major order, and [forEachBoundaryTile] once on
    every cell of the board next to the centre, never on the centre
    itself, on eight cells at most; both return [true]. *)
Theorem iteration_cells b row col :
  Board.forEachTile (λ _, b) note [] = Some (cells b, true)
  ∧ Board.forEachBoundaryTile (λ _, b) row col note []
    = Some (neighbors b row col, true)
  ∧ NoDup (cells b)
  ∧ (∀ p, p ∈ cells b ↔ 0 ≤ p.1 < Board.rowCount b ∧ 0 ≤ p.2 < Board.colCount b)
  ∧ Z.of_nat (length (cells b))
    = Z.max (Board.rowCount b) 0 * Z.max (Board.colCount b) 0
  ∧ NoDup (neighbors b row col)
  ∧ (∀ p, p ∈ neighbors b row col
          ↔ (Z.abs (p.1 - row) ≤ 1 ∧ Z.abs (p.2 - col) ≤ 1 ∧ p ≠ (row, col))
            ∧ 0 ≤ p.1 < Board.rowCount b ∧ 0 ≤ p.2 < Board.colCount b)
  ∧ (length (neighbors b row col) ≤ 8)%nat.
Proof.
  split.
  { rewrite forEachTile_visit. unfold note.
    rewrite visit_returns by (intros; simpl; discriminate).
    by rewrite note_fold. }
  split.
  { rewrite forEachBoundaryTile_visit. unfold note.
    rewrite visit_returns by (intros; simpl; discriminate).
    by rewrite note_fold. }
  split; [apply NoDup_cells|]. split; [apply elem_of_cells|].
  split; [apply length_cells_max|]. split; [apply NoDup_neighbors|].
  split; [apply elem_of_neighbors|apply neighbors_length].
Qed.

(** ** A reveal of a count; a new game *)

(** X20 ([Game.revealTile], [UserBoard.setTile]): in a game made by the
    constructor and played at cells of the board, a reveal of a hidden cell
    whose solution is a count above 0 returns [null] and writes the count
    into that cell, leaving every other cell and the solution as they were.
    A flag on the cell does not protect it: the flag is counted out of
    [flagCount], as an [UNKNOWN] tile is counted out of [unknownCount]. *)
Theorem revealTile_count random mines size g row col v :
  played (Game.new random mines size) g →
  in_range (board_of g) (row, col) →
  is_hidden (user_at g (row, col)) = true →
  mine_at g (row, col) = Some v → 0 < v →
  ∃ g', Game.revealTile row col g = Some (g', JNull)
        ∧ user_at g' (row, col) = Some v
        ∧ (∀ q, in_range (board_of g) q → q ≠ (row, col) →
                user_at g' q = user_at g q)
        ∧ Game.mineBoard g' = Game.mineBoard g
        ∧ UserBoard.flagCount (Game.userBoard g')
          = UserBoard.flagCount (Game.userBoard g)
            - (if decide (user_at g (row, col) = Some Tile.FLAG) then 1 else 0)
        ∧ UserBoard.unknownCount (Game.userBoard g')
          = UserBoard.unknownCount (Game.userBoard g)
            - (if decide (user_at g (row, col) = Some Tile.UNKNOWN)
               then 1 else 0).
Proof.
  intros Hplayed Hp Hh Hmine Hv.
  pose proof (played_consistent _ _ _ _ Hplayed) as Hcons.
  exists (uncovered g row col).
  assert (tile_eq (Some v) Tile.MINE = false) as Hnm.
  { simpl. apply Z.eqb_neq. unfold Tile.MINE. lia. }
  assert (tile_eq (Some v) 0 = false) as Hnz.
  { simpl. apply Z.eqb_neq. lia. }
  split.
  { unfold Game.revealTile, uncovered. rewrite revealTile_fuel_S. cbv zeta.
    change (UserBoard.getTile (Game.userBoard g) row col)
      with (user_at g (row, col)).
    change (MineBoard.getTile (Game.mineBoard g) row col)
      with (mine_at g (row, col)).
    rewrite Hh, Hmine, Hnm, Hnz. reflexivity. }
  split.
  { rewrite (user_at_uncovered g row col (row, col)) by done.
    by rewrite decide_True. }
  split.
  { intros q Hq Hne. rewrite (user_at_uncovered g row col q) by done.
    by rewrite decide_False. }
  split; [done|].
  unfold uncovered. cbn [Game.with_user Game.userBoard].
  rewrite UserBoard_setTile_flagCount, UserBoard_setTile_unknownCount.
  change (UserBoard.getTile (Game.userBoard g) row col)
    with (user_at g (row, col)).
  change (MineBoard.getTile (Game.mineBoard g) row col)
    with (mine_at g (row, col)).
  rewrite Hmine.
  assert (tile_eq (Some v) Tile.FLAG = false) as ->.
  { simpl. apply Z.eqb_neq. unfold Tile.FLAG. lia. }
  assert (tile_eq (Some v) Tile.UNKNOWN = false) as ->.
  { simpl. apply Z.eqb_neq. unfold Tile.UNKNOWN. lia. }
  split.
  - case_decide as Hd.
    + rewrite Hd. simpl. lia.
    + assert (tile_eq (user_at g (row, col)) Tile.FLAG = false) as ->.
      { apply not_true_is_false. intros E. by apply tile_eq_true in E. }
      simpl. lia.
  - case_decide as Hd.
    + rewrite Hd. simpl. lia.
    + assert (tile_eq (user_at g (row, col)) Tile.UNKNOWN = false) as ->.
      { apply not_true_is_false. intros E. by apply tile_eq_true in E. }
      simpl. lia.
Qed.

Lemma revealTile_count_witness :
  ∃ g', Game.revealTile 1 1 (Game.flagTile 1 1 small_game) = Some (g', JNull)
        ∧ user_at g' (1, 1) = Some 1
        ∧ (∀ q, in_range (board_of (Game.flagTile 1 1 small_game)) q →
                q ≠ (1, 1) →
                user_at g' q = user_at (Game.flagTile 1 1 small_game) q)
        ∧ Game.mineBoard g' = Game.mineBoard (Game.flagTile 1 1 small_game)
        ∧ UserBoard.flagCount (Game.userBoard g')
          = UserBoard.flagCount (Game.userBoard (Game.flagTile 1 1 small_game))
            - (if decide (user_at (Game.flagTile 1 1 small_game) (1, 1)
                          = Some Tile.FLAG) then 1 else 0)
        ∧ UserBoard.unknownCount (Game.userBoard g')
          = UserBoard.unknownCount
              (Game.userBoard (Game.flagTile 1 1 small_game))
            - (if decide (user_at (Game.flagTile 1 1 small_game) (1, 1)
                          = Some Tile.UNKNOWN) then 1 else 0).
Proof.
  apply (revealTile_count no_random 1 3 (Game.flagTile 1 1 small_game) 1 1 1).
  - apply played_flag; [apply played_start|].
    apply (bool_decide_unpack _). vm_compute. exact I.
  - apply (bool_decide_unpack _). vm_compute. exact I.
  - vm_compute. reflexivity.
  - vm_compute. reflexivity.
  - lia.
Defined.

(** X21 ([Game] constructor, [Game.validate]): a new game validates
    exactly when it was made with 0 mines: no flag is set, and [validate]
    compares the number of flags with [mineCount] first. *)
Theorem validate_new random mines size :
  Game.validate (Game.new random mines size) = true ↔ mines = 0.
Proof.
  rewrite validate_spec.
  destruct (UserBoard_new_spec size None) as (_ & _ & Htiles & Hflags & _).
  destruct (MineBoard_new_dims random mines size None) as (Hr & Hc & Hmc).
  destruct (Game_new_wf random mines size) as [Hwf _].
  apply game_wf_iff in Hwf as [Hcons _].
  unfold Game.new at 1 2. cbn [Game.userBoard Game.mineBoard].
  rewrite Hflags, Hmc. split; [by intros [-> _]|]. intros ->.
  split; [done|]. intros p Hp.
  assert (user_at (Game.new random 0 size) p = Some Tile.UNKNOWN) as Hu.
  { apply Htiles. by apply (consistent_in_range _ p Hcons). }
  assert (mine_at (Game.new random 0 size) p ≠ Some Tile.MINE) as Hm.
  { destruct (MineBoard_new_spec random 0 size None) as [_ Hcount].
    - destruct Hp as [Hp _]. unfold board_of, Game.new in Hp.
      cbn [Game.mineBoard] in Hp. rewrite Hr in Hp. lia.
    - destruct Hp as [Hp _]. unfold board_of, Game.new in Hp.
      cbn [Game.mineBoard] in Hp. rewrite Hr in Hp. simpl. lia.
    - unfold count_tiles in Hcount.
      intros Hmine.
      assert (p ∈ filter (holds (MineBoard.base (MineBoard.new random 0 size None))
                            Tile.MINE)
                    (cells (MineBoard.base (MineBoard.new random 0 size None))))
        as Hin.
      { apply list_elem_of_filter. split; [exact Hmine|by apply elem_of_cells]. }
      destruct (filter _ _); [by apply elem_of_nil in Hin|].
      simpl in Hcount. lia. }
  rewrite Hu. split; [done|]. intros Hf. discriminate Hf.
Qed.

(** ** The chord that reveals a mine *)

(** One reveal leaves an [UNKNOWN] tile as it is or reveals it. *)
Lemma reveal_step random mines size g p g1 ret q :
  played (Game.new random mines size) g →
  in_range (board_of g) p → in_range (board_of g) q →
  Game.revealTile p.1 p.2 g = Some (g1, ret) →
  (user_at g1 q = Some Tile.UNKNOWN → user_at g q = Some Tile.UNKNOWN)
  ∧ (q ≠ p → mine_at g q = Some Tile.MINE → user_at g1 q = user_at g q).
Proof.
  intros Hplayed Hp Hq Hrun.
  pose proof (played_consistent _ _ _ _ Hplayed) as Hcons.
  pose proof (revealTile_fuel_correct _ g p.1 p.2 g1 ret Hcons
                ltac:(by destruct p) Hrun) as Hfrom.
  replace (p.1, p.2) with p in Hfrom by (by destruct p).
  destruct Hfrom as (_ & _ & _ & Hframe & _).
  destruct (mine_at_shown g q Hcons Hq) as [_ Hnh].
  destruct (Hframe q Hq) as [->|(_ & Heq & Htouched)]; [done|].
  split.
  - intros Hu. rewrite Heq in Hu. rewrite Hu in Hnh. done.
  - intros Hne Hmine. exfalso.
    destruct Hcons as (_ & _ & Hok & _).
    by apply (touched_no_mine _ _ _ Hok Htouched Hne).
Qed.

(** The chord fails exactly when one of its cells holds a mine under an
    [UNKNOWN] tile. *)
Lemma Chord_ok_iff random mines size l g g' ok :
  Chord l g g' ok →
  played (Game.new random mines size) g →
  (∀ p, p ∈ l → in_range (board_of g) p) →
  ok = false
  ↔ ∃ q, q ∈ l ∧ user_at g q = Some Tile.UNKNOWN
         ∧ mine_at g q = Some Tile.MINE.
Proof.
  induction 1 as [g|p l g g' ok Hnu Hrest IH
                  |p l g g1 ret g' ok Hu Hrun Hne Hrest IH
                  |p l g g1 ret Hu Hrun Herr];
    intros Hplayed Hl.
  - split; [done|]. intros (q & Hq & _). by apply elem_of_nil in Hq.
  - rewrite IH; [|done|intros q Hq; apply Hl, elem_of_cons; by right].
    split.
    + intros (q & Hq & ?). exists q. split; [apply elem_of_cons; by right|done].
    + intros (q & [->|Hq]%elem_of_cons & Hu & Hm); [done|]. by exists q.
  - assert (in_range (board_of g) p) as Hp by (apply Hl, elem_of_cons; by left).
    assert (played g g1) as Hstep.
    { apply (played_reveal g g p.1 p.2 g1 ret (played_start g));
        [by destruct p|done]. }
    pose proof (played_board_of _ _ Hstep) as Hb.
    rewrite IH; [|by eapply played_trans
                 |intros q Hq; rewrite Hb; apply Hl, elem_of_cons; by right].
    destruct (revealTile_error_iff _ g p.1 p.2 g1 ret Hrun) as [Hiff _].
    replace (p.1, p.2) with p in Hiff by (by destruct p).
    split.
    + intros (q & Hq & Hu1 & Hm1). exists q.
      assert (in_range (board_of g) q) as Hqr
        by (apply Hl, elem_of_cons; by right).
      split; [apply elem_of_cons; by right|]. split.
      * by apply (reveal_step _ _ _ g p g1 ret q Hplayed Hp Hqr Hrun).
      * by rewrite <- (mine_at_played g g1 q Hstep).
    + intros (q & [->|Hq]%elem_of_cons & Huq & Hmq).
      * exfalso. assert (is_error ret = true) as Herr; [|congruence].
        apply Hiff. split; [|done]. by rewrite Huq.
      * exists q. split; [done|].
        assert (in_range (board_of g) q) as Hqr
          by (apply Hl, elem_of_cons; by right).
        rewrite (mine_at_played g g1 q Hstep). split; [|done].
        destruct (decide (q = p)) as [->|Hne'].
        { exfalso. assert (is_error ret = true) as Herr; [|congruence].
          apply Hiff. split; [|done]. by rewrite Huq. }
        destruct (reveal_step _ _ _ g p g1 ret q Hplayed Hp Hqr Hrun)
          as [_ Hkeep].
        by rewrite Hkeep.
  - split; [|done]. intros _. exists p.
    split; [apply elem_of_cons; by left|]. split; [done|].
    destruct (revealTile_error_iff _ g p.1 p.2 g1 ret Hrun) as [Hiff _].
    replace (p.1, p.2) with p in Hiff by (by destruct p).
    by apply Hiff in Herr as [_ ?].
Qed.

(** X22 ([Game.revealUnknownAdjacent]): in a game made by the constructor
    and played at cells of the board, a chord at a cell that shows a count
    reached by the flags around it returns the [Error] 'adajcent mine
    revealed' exactly when one of the neighbours holds a mine under an
    [UNKNOWN] tile, and [null] otherwise; flags on cells without a mine do
    not matter. *)
Theorem chord_error_iff random mines size g row col v :
  played (Game.new random mines size) g →
  in_range (board_of g) (row, col) →
  user_at g (row, col) = Some v →
  0 ≤ v ≤ flags_around g row col →
  ∃ g' ret,
    Game.revealUnknownAdjacent row col g = Some (g', ret)
    ∧ (ret = JError "adajcent mine revealed" ∨ ret = JNull)
    ∧ (ret = JError "adajcent mine revealed"
       ↔ ∃ q, q ∈ neighbors (board_of g) row col
              ∧ user_at g q = Some Tile.UNKNOWN
              ∧ mine_at g q = Some Tile.MINE).
Proof.
  intros Hplayed Hp Hv Hflags.
  destruct (revealUnknownAdjacent_cases g row col) as [_ Hchord].
  destruct Hchord as (g' & ok & Hrun & Hch & _).
  { intros (v' & Hv' & ?). rewrite Hv in Hv'. injection Hv' as <-. lia. }
  assert (neighbors (UserBoard.base (Game.userBoard g)) row col
          = neighbors (board_of g) row col) as HN.
  { destruct (played_consistent _ _ _ _ Hplayed) as (Hr & Hc & _).
    by apply neighbors_dims. }
  rewrite HN in Hch.
  pose proof (Chord_ok_iff random mines size _ g g' ok Hch Hplayed
                ltac:(by intros p [_ ?]%elem_of_neighbors)) as Hiff.
  exists g', (if ok then JNull else JError "adajcent mine revealed").
  split; [done|]. rewrite <- Hiff. destruct ok.
  - split; [by right|]. split; intros [=].
  - split; [by left|]. done.
Qed.

Lemma chord_error_iff_witness :
  ∃ g' ret,
    Game.revealUnknownAdjacent 1 1 misflagged_game = Some (g', ret)
    ∧ (ret = JError "adajcent mine revealed" ∨ ret = JNull)
    ∧ (ret = JError "adajcent mine revealed"
       ↔ ∃ q, q ∈ neighbors (board_of misflagged_game) 1 1
              ∧ user_at misflagged_game q = Some Tile.UNKNOWN
              ∧ mine_at misflagged_game q = Some Tile.MINE).
Proof.
  apply (chord_error_iff no_random 1 3 misflagged_game 1 1 1).
  - apply played_flag.
    + apply (played_reveal _ small_game 1 1 probed_game JNull);
        [apply played_start| |].
      * apply (bool_decide_unpack _). vm_compute. exact I.
      * vm_compute. reflexivity.
    + apply (bool_decide_unpack _). vm_compute. exact I.
  - apply (bool_decide_unpack _). vm_compute. exact I.
  - vm_compute. reflexivity.
  - apply (bool_decide_unpack _). vm_compute. exact I.
Defined.

(** ** The CSS class of a tile *)

(** X23 ([GameController.getDisplayClass_]): the tiles of a game, from
    [FLAG] (-3) to the count 8, have classes that differ from one another;
    [UNKNOWN] has the empty class, [FLAG] the class ' flag', and every
    revealed tile a class that starts with ' reveal tile'. *)
Theorem getDisplayClass_inj v w :
  -3 ≤ v ≤ 8 → -3 ≤ w ≤ 8 →
  (GameController.getDisplayClass_ (Some v)
   = GameController.getDisplayClass_ (Some w) → v = w)
  ∧ (GameController.getDisplayClass_ (Some v) = Some "" ↔ v = Tile.UNKNOWN)
  ∧ (GameController.getDisplayClass_ (Some v) = Some " flag" ↔ v = Tile.FLAG)
  ∧ (Game.hidden v = false →
     ∃ text, GameController.getDisplayClass_ (Some v)
             = Some (" reveal tile" +:+ text)
             ∧ String.length text = 1%nat).
Proof.
  intros Hv Hw.
  assert (v = -3 ∨ v = -2 ∨ v = -1 ∨ v = 0 ∨ v = 1 ∨ v = 2 ∨ v = 3 ∨ v = 4
          ∨ v = 5 ∨ v = 6 ∨ v = 7 ∨ v = 8) as Hvs by lia.
  assert (w = -3 ∨ w = -2 ∨ w = -1 ∨ w = 0 ∨ w = 1 ∨ w = 2 ∨ w = 3 ∨ w = 4
          ∨ w = 5 ∨ w = 6 ∨ w = 7 ∨ w = 8) as Hws by lia.
  split; [|split; [|split]].
  - destruct Hvs as [->|[->|[->|[->|[->|[->|[->|[->|[->|[->|[->| ->]]]]]]]]]]];
      destruct Hws as [->|[->|[->|[->|[->|[->|[->|[->|[->|[->|[->| ->]]]]]]]]]]];
      intros Heq; vm_compute in Heq; first [done|discriminate Heq].
  - clear Hws.
    destruct Hvs as [->|[->|[->|[->|[->|[->|[->|[->|[->|[->|[->| ->]]]]]]]]]]];
      (split; [intros Heq; vm_compute in Heq; first [done|discriminate Heq]
              |intros Heq; first [reflexivity|discriminate Heq]]).
  - clear Hws.
    destruct Hvs as [->|[->|[->|[->|[->|[->|[->|[->|[->|[->|[->| ->]]]]]]]]]]];
      (split; [intros Heq; vm_compute in Heq; first [done|discriminate Heq]
              |intros Heq; first [reflexivity|discriminate Heq]]).
  - clear Hws.
    destruct Hvs as [->|[->|[->|[->|[->|[->|[->|[->|[->|[->|[->| ->]]]]]]]]]]]; intros Hh;
      first [discriminate Hh
            |eexists; (split; [reflexivity|vm_compute; reflexivity])].
Qed.

Lemma getDisplayClass_inj_witness :
  (GameController.getDisplayClass_ (Some 3)
   = GameController.getDisplayClass_ (Some 3) → 3 = 3)
  ∧ (GameController.getDisplayClass_ (Some 3) = Some "" ↔ 3 = Tile.UNKNOWN)
  ∧ (GameController.getDisplayClass_ (Some 3) = Some " flag" ↔ 3 = Tile.FLAG)
  ∧ (Game.hidden 3 = false →
     ∃ text, GameController.getDisplayClass_ (Some 3)
             = Some (" reveal tile" +:+ text)
             ∧ String.length text = 1%nat).
Proof. apply (getDisplayClass_inj 3 3); lia. Defined.
